(** * EigenPod proof generation: validator-field proofs and CLI selection

    A shallow embedding of the Go sources of the repository:

    - the prover ([ProveValidatorContainers], [ProveValidatorFields],
      [ProveValidatorAgainstBeaconState], [ProveValidatorAgainstValidatorList]);
    - the CLI helpers of [cli/core/utils.go] ([SortByStatus],
      [GetOnchainValidatorInfo], [IsAwaitingWithdrawalCredentialProof],
      [SelectAwaitingCredentialValidators]; in [Core]: [chunk], [AllZero],
      [FindAllValidatorsForEigenpod], the other selections, and
      [GetCheckpointTimestampAndBeaconState] with its two callees).

    Go functions that return [(T, error)] are embedded as computations that
    yield a pair of a value and an optional error, in a small monad that
    threads the mutable receiver and records runtime panics. *)

From Stdlib Require Import ZArith NArith List Lia Strings.Byte String Ascii
  DecimalString.
From stdpp Require Import base option list gmap strings sorting.
Import ListNotations.

(* ================================================================== *)
(** ** Bytes and chunks *)

Abbreviation byte := Byte.byte.

#[global] Instance byte_eq_dec : EqDecision byte := Byte.byte_eq_dec.

(** [Bytes32] and [phase0.Root] are [[32]byte] in Go; a chunk is carried as
    its byte sequence. *)
Definition Bytes32 := list byte.
Definition Root := Bytes32.

(** [common.Proof] is [[]Bytes32]. *)
Definition Proof := list Bytes32.

Definition zero_bytes (n : nat) : list byte := replicate n Byte.x00.

Definition byte_of_N (n : N) : byte :=
  match Byte.of_N (n mod 256)%N with
  | Some b => b
  | None => Byte.x00
  end.

(* ================================================================== *)
(** ** crypto/sha256 *)

Module SHA256.
Local Open Scope N_scope.

Definition mask32 : N := 0xffffffff.
Definition w32 (x : N) : N := N.land x mask32.
Definition add32 (x y : N) : N := w32 (x + y).
Definition rotr (n x : N) : N := N.lor (N.shiftr x n) (w32 (N.shiftl x (32 - n))).
Definition not32 (x : N) : N := N.lxor x mask32.

Definition Ch (x y z : N) : N := N.lxor (N.land x y) (N.land (not32 x) z).
Definition Maj (x y z : N) : N :=
  N.lxor (N.lxor (N.land x y) (N.land x z)) (N.land y z).
Definition bsig0 (x : N) : N := N.lxor (N.lxor (rotr 2 x) (rotr 13 x)) (rotr 22 x).
Definition bsig1 (x : N) : N := N.lxor (N.lxor (rotr 6 x) (rotr 11 x)) (rotr 25 x).
Definition ssig0 (x : N) : N := N.lxor (N.lxor (rotr 7 x) (rotr 18 x)) (N.shiftr x 3).
Definition ssig1 (x : N) : N := N.lxor (N.lxor (rotr 17 x) (rotr 19 x)) (N.shiftr x 10).

(** The largest [x] below [2^bits] with [x^k <= n], found bit by bit. *)
Fixpoint iroot (k n : N) (bits : nat) (x : N) : N :=
  match bits with
  | O => x
  | S b =>
      let x' := x + 2 ^ N.of_nat b in
      iroot k n b (if x' ^ k <=? n then x' else x)
  end.

(** The first 32 bits of the fractional part of the [k]-th root of [p]. *)
Definition frac_root (k p : N) : N := w32 (iroot k (p * 2 ^ (32 * k)) 40 0).

Definition is_prime (n : N) : bool :=
  forallb (fun d => negb (n mod d =? 0)) (N.of_nat <$> seq 2 (N.to_nat n - 2)).

(** The first [n] prime numbers; the 64th is 311. *)
Definition primes (n : nat) : list N :=
  take n (List.filter is_prime (N.of_nat <$> seq 2 310)).

(** The round constants: the cube roots of the first 64 primes. *)
Definition K : list N := Eval vm_compute in frac_root 3 <$> primes 64.

(** The initial hash value: the square roots of the first 8 primes. *)
Definition H0 : list N := Eval vm_compute in frac_root 2 <$> primes 8.

(** Working variables [a..h] followed by the sliding window of the message
    schedule, [W_t .. W_{t+15}]. *)
Record round_state := { vars : list N; window : list N }.

Definition word_at (l : list N) (i : nat) : N := nth i l 0.

Definition round (st : round_state) (k : N) : round_state :=
  let v := vars st in
  let w := window st in
  let a := word_at v 0 in let b := word_at v 1 in
  let c := word_at v 2 in let d := word_at v 3 in
  let e := word_at v 4 in let f := word_at v 5 in
  let g := word_at v 6 in let h := word_at v 7 in
  let wt := word_at w 0 in
  let t1 := add32 (add32 (add32 (add32 h (bsig1 e)) (Ch e f g)) k) wt in
  let t2 := add32 (bsig0 a) (Maj a b c) in
  let wnext :=
    add32 (add32 (add32 (ssig1 (word_at w 14)) (word_at w 9))
                 (ssig0 (word_at w 1))) wt in
  {| vars := [add32 t1 t2; a; b; c; add32 d t1; e; f; g];
     window := tail w ++ [wnext] |}.

Definition compress (h : list N) (block : list N) : list N :=
  let st := fold_left round K {| vars := h; window := block |} in
  zip_with add32 h (vars st).

Definition be32 (b0 b1 b2 b3 : byte) : N :=
  N.lor (N.shiftl (Byte.to_N b0) 24)
    (N.lor (N.shiftl (Byte.to_N b1) 16)
       (N.lor (N.shiftl (Byte.to_N b2) 8) (Byte.to_N b3))).

Fixpoint words_of_bytes (bs : list byte) : list N :=
  match bs with
  | b0 :: b1 :: b2 :: b3 :: rest => be32 b0 b1 b2 b3 :: words_of_bytes rest
  | _ => []
  end.

Definition bytes_of_word (w : N) : list byte :=
  [ byte_of_N (N.shiftr w 24); byte_of_N (N.shiftr w 16);
    byte_of_N (N.shiftr w 8); byte_of_N w ].

Definition pad (msg : list byte) : list byte :=
  let len := length msg in
  let zeros := ((64 - ((len + 9) mod 64)) mod 64)%nat in
  let bits := (8 * N.of_nat len)%N in
  msg ++ [Byte.x80] ++ zero_bytes zeros
      ++ bytes_of_word (N.shiftr bits 32) ++ bytes_of_word bits.

Fixpoint blocks (fuel : nat) (ws : list N) : list (list N) :=
  match fuel with
  | O => []
  | S fuel' =>
      match ws with
      | [] => []
      | _ => take 16 ws :: blocks fuel' (drop 16 ws)
      end
  end.

(** [sha256.Sum256]. *)
Definition Sum256 (msg : list byte) : Bytes32 :=
  let ws := words_of_bytes (pad msg) in
  let h := fold_left compress (blocks (length ws) ws) H0 in
  flat_map bytes_of_word h.

End SHA256.

(* ================================================================== *)
(** ** Go values: errors, panics, calls on a mutable receiver *)

(** An [error] value.  The kinds are the ones the prover surfaces; the CLI
    wraps the error of a collaborator with [fmt.Errorf("...: %w", err)]. *)
Inductive go_error : Type :=
  | ErrStateAccess
  | ErrUnknownFork
  | ErrIndexOutOfRange
  | ErrValueTooLarge
  | ErrInternalTree
  | ErrExternal (msg : string)
  | Errorf (msg : string) (cause : go_error).

(** The interface value [error]; [None] is [nil]. *)
Definition error := option go_error.

(** [err != nil]. *)
Definition nonnil (err : error) : bool :=
  match err with
  | Some _ => true
  | None => false
  end.

(** A run-time panic: it unwinds the call, nothing is returned. *)
Inductive panic : Type :=
  | IndexOutOfRange (index : Z) (length : Z)
  | NilDereference
  | PanicError (e : go_error).

Inductive outcome (S A : Type) : Type :=
  | Returns (a : A) (s : S)
  | Panics (p : panic) (s : S).
Arguments Returns {S A} a s.
Arguments Panics {S A} p s.

(** A call that runs on the mutable state [S] (the receiver's caches, or the
    log of the remote calls made so far). *)
Definition Go (S A : Type) : Type := S -> outcome S A.

Definition go_ret {S A} (a : A) : Go S A := fun s => Returns a s.

Definition go_bind {S A B} (m : Go S A) (k : A -> Go S B) : Go S B :=
  fun s =>
    match m s with
    | Returns a s' => k a s'
    | Panics p s' => Panics p s'
    end.

Definition go_panic {S A} (p : panic) : Go S A := fun s => Panics p s.

#[global] Instance Go_ret {S} : MRet (Go S) := fun A => @go_ret S A.
#[global] Instance Go_bind {S} : MBind (Go S) := fun A B k m => @go_bind S A B m k.

(** [len(s)] of a slice is an [int]. *)
Definition len {A} (l : list A) : Z := Z.of_nat (length l).

(** The conversion [int64(x)] of an integer: wrap-around into
    [-2^63 .. 2^63 - 1]. *)
Definition int64 (x : Z) : Z := (x + 2 ^ 63) mod 2 ^ 64 - 2 ^ 63.

(** The index expression [s[i]] with [i] a [uint64]: a run-time panic when
    [i] is not below [len(s)]. *)
Definition slice_index {S A} (l : list A) (i : Z) : Go S A :=
  if (0 <=? i)%Z && (i <? len l)%Z then
    match l !! Z.to_nat i with
    | Some x => go_ret x
    | None => go_panic (IndexOutOfRange i (len l))
    end
  else go_panic (IndexOutOfRange i (len l)).

(** A field access through a pointer: a run-time panic on [nil]. *)
Definition deref {S A} (p : option A) : Go S A :=
  match p with
  | Some x => go_ret x
  | None => go_panic NilDereference
  end.

(** [make([]T, n)]: [n] zero values. *)
Definition make {A} (zero : A) (n : Z) : list A := replicate (Z.to_nat n) zero.

(* ================================================================== *)
(** ** Beacon-chain data (go-eth2-client) *)

(** [phase0.Validator]. *)
Record Validator := {
  PublicKey : list byte;                (* [48]byte *)
  WithdrawalCredentials : list byte;    (* 32 bytes *)
  EffectiveBalance : Z;
  Slashed : bool;
  ActivationEligibilityEpoch : Z;
  ActivationEpoch : Z;
  ExitEpoch : Z;
  WithdrawableEpoch : Z
}.

(** [phase0.BeaconBlockHeader]. *)
Record BeaconBlockHeader := {
  hdr_Slot : Z;
  ProposerIndex : Z;
  ParentRoot : Root;
  StateRoot : Root;
  BodyRoot : Root
}.

Inductive DataVersion : Type :=
  | DataVersionUnknown
  | DataVersionPhase0
  | DataVersionAltair
  | DataVersionBellatrix
  | DataVersionCapella
  | DataVersionDeneb.

#[global] Instance DataVersion_eq_dec : EqDecision DataVersion.
Proof. solve_decision. Defined.

(** The state of one fork.  The fields the prover reads are kept as data;
    every other field of the container is kept as its hash-tree-root, in
    container order. *)
Record BeaconState := {
  GenesisTime : Z;
  Slot : Z;
  Validators : list Validator;
  Balances : list Z;
  FieldRoots : list Root
}.

(** [spec.VersionedBeaconState]: a version tag and the state of that fork,
    which may be absent. *)
Record VersionedBeaconState := {
  Version : DataVersion;
  State : option BeaconState
}.

(** The accessors fail when the version is unknown or its state is absent. *)
Definition state_access {A} (zero : A) (f : BeaconState -> A)
    (st : VersionedBeaconState) : A * error :=
  match Version st, State st with
  | DataVersionUnknown, _ => (zero, Some ErrStateAccess)
  | _, None => (zero, Some ErrStateAccess)
  | _, Some bs => (f bs, None)
  end.

Definition VersionedBeaconState_Slot := state_access 0%Z Slot.
Definition VersionedBeaconState_Validators := state_access [] Validators.

(* ================================================================== *)
(** ** Proof objects of the prover *)

(** Modelled from the spec: the type of the validator tree is declared in a
    file that is not among the sources.  "Build layers bottom-up": a tree as
    its layers, leaves first. *)
Definition Tree := list (list Root).

(** Modelled from the spec: [beacon.BeaconStateTopLevelRoots] is not among
    the sources.  "the cached vector of per-field roots, one Root per
    immediate field of the state container". *)
Definition BeaconStateTopLevelRoots := list Root.

(** Modelled from the spec: [StateRootProof] is declared in a file that is
    not among the sources; the prover assigns its two fields, which the spec
    names "beaconStateRoot" and "stateRootProof". *)
Record StateRootProof := {
  BeaconStateRoot : Root;
  StateRootProof_Proof : Proof
}.

Record VerifyValidatorFieldsCallParams := {
  OracleTimestamp : Z;
  StateRootProof_ : option StateRootProof;
  ValidatorIndices : list Z;
  ValidatorFieldsProofs : list Proof;
  ValidatorFields : list (list Bytes32)
}.

(* ================================================================== *)
(** ** Little-endian chunks *)

(** The [n] low bytes of [x], least significant first. *)
Fixpoint le_bytes (n : nat) (x : N) : list byte :=
  match n with
  | O => []
  | S n' => byte_of_N x :: le_bytes n' (x / 256)
  end.

(** The number a byte sequence spells, least significant byte first. *)
Fixpoint le_decode (bs : list byte) : N :=
  match bs with
  | [] => 0
  | b :: bs' => Byte.to_N b + 256 * le_decode bs'
  end.

(** A chunk read as a little-endian [uint64]: its first eight bytes. *)
Definition decode_u64_le (chunk : Bytes32) : Z := Z.of_N (le_decode (take 8 chunk)).

(** Modelled from the spec: [BigToLittleEndian] is not among the sources.
    "big_to_little_endian_32(n) -> [32]byte: explicit conversion for the
    length sibling in list proofs. Inputs exceeding 2^64 fail with
    ErrValueTooLarge."  Its caller uses the result as a plain value, so the
    failure is a panic carrying that error. *)
Definition BigToLittleEndian {S} (input : Z) : Go S Bytes32 :=
  if (2 ^ 64 <? input)%Z
  then go_panic (PanicError ErrValueTooLarge)
  else mret (le_bytes 32 (Z.to_N input)).

(** Modelled from the spec: the constant
    [beacon.ValidatorListMerkleSubtreeNumLayers] is not among the sources.
    "ValidatorList: SSZ list with capacity 2^40 validators ... an
    authentication path into a validator leaf has depth 40 inside the list". *)
Definition ValidatorListMerkleSubtreeNumLayers : Z := 40.

(* ================================================================== *)
(** ** The prover *)

(** The functions of the repository that the prover calls and that are not
    among the sources: the methods of the receiver run on its state
    [EPP], the functions of the packages [beacon] and [common] are pure. *)
Class ProverDeps (EPP : Type) := {
  ComputeBeaconStateTopLevelRoots :
    VersionedBeaconState -> Go EPP (BeaconStateTopLevelRoots * error);
  ComputeValidatorTree : Z -> list Validator -> Go EPP (Tree * error);
  ProveStateRootAgainstBlockHeader : BeaconBlockHeader -> Proof * error;
  ProveBeaconTopLevelRootAgainstBeaconState :
    BeaconStateTopLevelRoots -> Z -> Proof * error;
  ValidatorListIndex : Z;
  ComputeMerkleProofFromTree : Tree -> Z -> Z -> Proof * error;
  GetSlotTimestamp : VersionedBeaconState -> BeaconBlockHeader -> Z;
  ConvertValidatorToValidatorFields : Validator -> list Bytes32
}.

Section Prover.
Context {EPP : Type} `{!ProverDeps EPP}.

Definition ProveValidatorAgainstValidatorList
    (slot : Z) (validators : list Validator) (validatorIndex : Z)
    : Go EPP (Proof * error) :=
  '(validatorTree, err) ← ComputeValidatorTree slot validators;
  if nonnil err then mret ([], err) else
  let '(proof, err) :=
    ComputeMerkleProofFromTree validatorTree validatorIndex
      ValidatorListMerkleSubtreeNumLayers in
  if nonnil err then mret ([], err) else
  (* append the length of the validator array to the proof *)
  validatorListLenLE ← BigToLittleEndian (int64 (len validators));
  let proof := proof ++ [validatorListLenLE] in
  mret (proof, None).

Definition ProveValidatorAgainstBeaconState
    (oracleBeaconStateSlot : Z) (oracleBeaconStateValidators : list Validator)
    (beaconStateTopLevelRoots : BeaconStateTopLevelRoots) (validatorIndex : Z)
    : Go EPP (Proof * error) :=
  (* prove the validator list against the beacon state *)
  let '(validatorListProof, err) :=
    ProveBeaconTopLevelRootAgainstBeaconState beaconStateTopLevelRoots
      ValidatorListIndex in
  if nonnil err then mret ([], err) else
  (* prove the validator root against the validator list root *)
  '(validatorProof, err) ←
    ProveValidatorAgainstValidatorList oracleBeaconStateSlot
      oracleBeaconStateValidators validatorIndex;
  if nonnil err then mret ([], err) else
  let proof := validatorProof ++ validatorListProof in
  mret (proof, None).

(** The local variables of [ProveValidatorFields] once
    [stateRootProof.BeaconStateRoot] has been assigned. *)
Record fields_locals := {
  fl_slot : Z;
  fl_validators : list Validator;
  fl_stateRootProof : StateRootProof;
  fl_topLevelRoots : BeaconStateTopLevelRoots;
  fl_err : error
}.

Definition nil3 (err : error) : option StateRootProof * Proof * error :=
  (None, [], err).

(** [ProveValidatorFields] up to and including the assignment
    [stateRootProof.BeaconStateRoot = oracleBlockHeader.StateRoot]: either an
    early return, or the local variables at that point. *)
Definition ProveValidatorFields_head
    (oracleBlockHeader : BeaconBlockHeader) (oracleBeaconState : VersionedBeaconState)
    : Go EPP ((option StateRootProof * Proof * error) + fields_locals) :=
  let '(oracleBeaconStateSlot, err) := VersionedBeaconState_Slot oracleBeaconState in
  if nonnil err then mret (inl (nil3 err)) else
  let '(oracleBeaconStateValidators, err) :=
    VersionedBeaconState_Validators oracleBeaconState in
  if nonnil err then mret (inl (nil3 err)) else
  let stateRootProof := {| BeaconStateRoot := []; StateRootProof_Proof := [] |} in
  (* Get beacon state top level roots *)
  '(beaconStateTopLevelRoots, err) ← ComputeBeaconStateTopLevelRoots oracleBeaconState;
  if nonnil err then mret (inl (nil3 err)) else
  (* Get beacon state root. *)
  let stateRootProof :=
    {| BeaconStateRoot := StateRoot oracleBlockHeader;
       StateRootProof_Proof := StateRootProof_Proof stateRootProof |} in
  mret (inr {| fl_slot := oracleBeaconStateSlot;
               fl_validators := oracleBeaconStateValidators;
               fl_stateRootProof := stateRootProof;
               fl_topLevelRoots := beaconStateTopLevelRoots;
               fl_err := err |}).

(** The rest of [ProveValidatorFields], from the [if err != nil] that follows
    the assignment. *)
Definition ProveValidatorFields_tail
    (oracleBlockHeader : BeaconBlockHeader) (validatorIndex : Z) (l : fields_locals)
    : Go EPP (option StateRootProof * Proof * error) :=
  let err := fl_err l in
  if nonnil err then mret (nil3 err) else
  let '(p, err) := ProveStateRootAgainstBlockHeader oracleBlockHeader in
  let stateRootProof :=
    {| BeaconStateRoot := BeaconStateRoot (fl_stateRootProof l);
       StateRootProof_Proof := p |} in
  if nonnil err then mret (nil3 err) else
  '(validatorFieldsProof, err) ←
    ProveValidatorAgainstBeaconState (fl_slot l) (fl_validators l)
      (fl_topLevelRoots l) validatorIndex;
  if nonnil err then mret (nil3 err) else
  mret (Some stateRootProof, validatorFieldsProof, None).

Definition ProveValidatorFields
    (oracleBlockHeader : BeaconBlockHeader) (oracleBeaconState : VersionedBeaconState)
    (validatorIndex : Z) : Go EPP (option StateRootProof * Proof * error) :=
  r ← ProveValidatorFields_head oracleBlockHeader oracleBeaconState;
  match r with
  | inl early => mret early
  | inr l => ProveValidatorFields_tail oracleBlockHeader validatorIndex l
  end.

(** The local variables of [ProveValidatorContainers] once
    [StateRootProof.BeaconStateRoot] has been assigned. *)
Record containers_locals := {
  cl_slot : Z;
  cl_validators : list Validator;
  cl_params : VerifyValidatorFieldsCallParams;
  cl_topLevelRoots : BeaconStateTopLevelRoots;
  cl_err : error
}.

Definition with_StateRootProof (sp : StateRootProof)
    (P : VerifyValidatorFieldsCallParams) : VerifyValidatorFieldsCallParams :=
  {| OracleTimestamp := OracleTimestamp P;
     StateRootProof_ := Some sp;
     ValidatorIndices := ValidatorIndices P;
     ValidatorFieldsProofs := ValidatorFieldsProofs P;
     ValidatorFields := ValidatorFields P |}.

Definition with_index (i : nat) (validatorIndex : Z)
    (P : VerifyValidatorFieldsCallParams) : VerifyValidatorFieldsCallParams :=
  {| OracleTimestamp := OracleTimestamp P;
     StateRootProof_ := StateRootProof_ P;
     ValidatorIndices := <[i := validatorIndex]> (ValidatorIndices P);
     ValidatorFieldsProofs := ValidatorFieldsProofs P;
     ValidatorFields := ValidatorFields P |}.

Definition with_proof (i : nat) (proof : Proof)
    (P : VerifyValidatorFieldsCallParams) : VerifyValidatorFieldsCallParams :=
  {| OracleTimestamp := OracleTimestamp P;
     StateRootProof_ := StateRootProof_ P;
     ValidatorIndices := ValidatorIndices P;
     ValidatorFieldsProofs := <[i := proof]> (ValidatorFieldsProofs P);
     ValidatorFields := ValidatorFields P |}.

Definition with_fields (i : nat) (fields : list Bytes32)
    (P : VerifyValidatorFieldsCallParams) : VerifyValidatorFieldsCallParams :=
  {| OracleTimestamp := OracleTimestamp P;
     StateRootProof_ := StateRootProof_ P;
     ValidatorIndices := ValidatorIndices P;
     ValidatorFieldsProofs := ValidatorFieldsProofs P;
     ValidatorFields := <[i := fields]> (ValidatorFields P) |}.

(** [ProveValidatorContainers] up to and including the assignment of
    [StateRootProof.BeaconStateRoot]. *)
Definition ProveValidatorContainers_head
    (oracleBlockHeader : BeaconBlockHeader) (oracleBeaconState : VersionedBeaconState)
    : Go EPP ((option VerifyValidatorFieldsCallParams * error) + containers_locals) :=
  let '(oracleBeaconStateSlot, err) := VersionedBeaconState_Slot oracleBeaconState in
  if nonnil err then mret (inl (None, err)) else
  let '(oracleBeaconStateValidators, err) :=
    VersionedBeaconState_Validators oracleBeaconState in
  if nonnil err then mret (inl (None, err)) else
  let params :=
    {| OracleTimestamp := 0;
       StateRootProof_ := Some {| BeaconStateRoot := []; StateRootProof_Proof := [] |};
       ValidatorIndices := [];
       ValidatorFieldsProofs := [];
       ValidatorFields := [] |} in
  (* Get beacon state top level roots *)
  '(beaconStateTopLevelRoots, err) ← ComputeBeaconStateTopLevelRoots oracleBeaconState;
  if nonnil err then mret (inl (None, err)) else
  (* Get beacon state root. *)
  let params :=
    with_StateRootProof
      {| BeaconStateRoot := StateRoot oracleBlockHeader; StateRootProof_Proof := [] |}
      params in
  mret (inr {| cl_slot := oracleBeaconStateSlot;
               cl_validators := oracleBeaconStateValidators;
               cl_params := params;
               cl_topLevelRoots := beaconStateTopLevelRoots;
               cl_err := err |}).

(** The body of the [for i, validatorIndex := range validatorIndices] loop,
    from iteration [i] on. *)
Fixpoint ProveValidatorContainers_loop
    (oracleBeaconStateSlot : Z) (oracleBeaconStateValidators : list Validator)
    (beaconStateTopLevelRoots : BeaconStateTopLevelRoots)
    (i : nat) (rest : list Z) (params : VerifyValidatorFieldsCallParams)
    : Go EPP (option VerifyValidatorFieldsCallParams * error) :=
  match rest with
  | [] => mret (Some params, None)
  | validatorIndex :: rest' =>
      let params := with_index i validatorIndex params in
      (* prove the validator fields against the beacon state *)
      '(proof, err) ←
        ProveValidatorAgainstBeaconState oracleBeaconStateSlot
          oracleBeaconStateValidators beaconStateTopLevelRoots validatorIndex;
      let params := with_proof i proof params in
      if nonnil err then mret (None, err) else
      validator ← slice_index oracleBeaconStateValidators validatorIndex;
      let params := with_fields i (ConvertValidatorToValidatorFields validator) params in
      ProveValidatorContainers_loop oracleBeaconStateSlot oracleBeaconStateValidators
        beaconStateTopLevelRoots (S i) rest' params
  end.

(** The rest of [ProveValidatorContainers], from the [if err != nil] that
    follows the assignment. *)
Definition ProveValidatorContainers_tail
    (oracleBlockHeader : BeaconBlockHeader) (oracleBeaconState : VersionedBeaconState)
    (validatorIndices : list Z) (l : containers_locals)
    : Go EPP (option VerifyValidatorFieldsCallParams * error) :=
  let err := cl_err l in
  if nonnil err then mret (None, err) else
  let '(p, err) := ProveStateRootAgainstBlockHeader oracleBlockHeader in
  stateRootProof ← deref (StateRootProof_ (cl_params l));
  let params :=
    with_StateRootProof
      {| BeaconStateRoot := BeaconStateRoot stateRootProof; StateRootProof_Proof := p |}
      (cl_params l) in
  if nonnil err then mret (None, err) else
  let params :=
    {| OracleTimestamp := GetSlotTimestamp oracleBeaconState oracleBlockHeader;
       StateRootProof_ := StateRootProof_ params;
       ValidatorIndices := make 0%Z (len validatorIndices);
       ValidatorFieldsProofs := make [] (len validatorIndices);
       ValidatorFields := make [] (len validatorIndices) |} in
  ProveValidatorContainers_loop (cl_slot l) (cl_validators l) (cl_topLevelRoots l)
    0 validatorIndices params.

Definition ProveValidatorContainers
    (oracleBlockHeader : BeaconBlockHeader) (oracleBeaconState : VersionedBeaconState)
    (validatorIndices : list Z)
    : Go EPP (option VerifyValidatorFieldsCallParams * error) :=
  r ← ProveValidatorContainers_head oracleBlockHeader oracleBeaconState;
  match r with
  | inl early => mret early
  | inr l =>
      ProveValidatorContainers_tail oracleBlockHeader oracleBeaconState
        validatorIndices l
  end.

End Prover.

(* ================================================================== *)
(** ** SSZ Merkleization *)

(** Modelled from the spec: the packages [beacon] and [common] are not among
    the sources.  This section follows the spec's sections "SSZ primitives",
    "Merkle tree builder" and "Beacon container Merkleizers". *)
Module SSZ.

(** Modelled from the spec: "the fixed zero-leaf sentinel (32 zero bytes)". *)
Definition zero_chunk : Bytes32 := zero_bytes 32.

(** Modelled from the spec: "pack_u64_le(x): little-endian 8 bytes,
    zero-padded right to 32". *)
Definition pack_u64_le (x : Z) : Bytes32 := le_bytes 8 (Z.to_N x) ++ zero_bytes 24.

(** Modelled from the spec: "pack_bool(b): first byte 0 or 1, remainder
    zero". *)
Definition pack_bool (b : bool) : Bytes32 :=
  (if b then Byte.x01 else Byte.x00) :: zero_bytes 31.

(** Modelled from the spec: "hash_pair(l, r): SHA-256 over the 64-byte
    concatenation". *)
Definition hash_pair (l r : Root) : Root := SHA256.Sum256 (l ++ r).

(** Modelled from the spec: "mix_in_length(root, n):
    hash_pair(root, pack_u64_le(n))". *)
Definition mix_in_length (root : Root) (n : Z) : Root := hash_pair root (pack_u64_le n).

(** Modelled from the spec: "layer[k+1][i] = hash_pair(layer[k][2i],
    layer[k][2i+1])", on the stored prefix of a layer; [z] is the root of the
    all-zero subtree of that level, which stands for the padding. *)
Fixpoint next_layer (z : Root) (layer : list Root) : list Root :=
  match layer with
  | [] => []
  | [a] => [hash_pair a z]
  | a :: b :: rest => hash_pair a b :: next_layer z rest
  end.

(** Modelled from the spec: "Build layers bottom-up": the [d + 1] layers over
    the leaves. *)
Fixpoint build_layers (d : nat) (z : Root) (layer : list Root) : Tree :=
  match d with
  | O => [layer]
  | S d' => layer :: build_layers d' (hash_pair z z) (next_layer z layer)
  end.

(** Modelled from the spec: "Input: leaf sequence L, target depth d", padded
    "with the fixed zero-leaf sentinel". *)
Definition build_tree (d : nat) (leaves : list Root) : Tree :=
  build_layers d zero_chunk leaves.

(** Modelled from the spec: "zero_hash[k] = root of an all-zero subtree at
    depth k". *)
Fixpoint zero_hash (k : nat) : Root :=
  match k with
  | O => zero_chunk
  | S k' => let z := zero_hash k' in hash_pair z z
  end.

(** Modelled from the spec: "root() returns layer[d][0]". *)
Definition tree_root (d : nat) (t : Tree) : Root :=
  default (zero_hash d) (t !! d ≫= (.!! 0%nat)).

(** Modelled from the spec: "at each level k from 0 to d-1, emit the sibling
    of the ancestor of leaf i, i.e. layer[k][(i>>k) XOR 1]". *)
Fixpoint proof_path (d : nat) (z : Root) (t : Tree) (i : N) : Proof :=
  match d with
  | O => []
  | S d' =>
      let layer := default [] (head t) in
      default z (layer !! N.to_nat (N.lxor i 1))
        :: proof_path d' (hash_pair z z) (tail t) (N.shiftr i 1)
  end.

(** Modelled from the spec: [common.ComputeMerkleProofFromTree] is not among the
    sources.  "proof(i) -> [Root; d] ... Edge cases: i >= 2^d fails with
    ErrIndexOutOfRange. d = 0 returns an empty proof." *)
Definition ComputeMerkleProofFromTree (tree : Tree) (index numLayers : Z)
    : Proof * error :=
  if (2 ^ numLayers <=? index)%Z then ([], Some ErrIndexOutOfRange)
  else (proof_path (Z.to_nat numLayers) zero_chunk tree (Z.to_N index), None).

(** Modelled from the spec: "Eight 32-byte leaves in the fixed field order
    ... pubkey leaf is sha256(pubkey_48 ‖ zero_16)"; [ConvertValidatorToValidatorFields]
    is not among the sources: "the 8 raw 32-byte field chunks of each proven
    validator, in the same field order used for hashing". *)
Definition ConvertValidatorToValidatorFields (v : Validator) : list Bytes32 :=
  [ SHA256.Sum256 (PublicKey v ++ zero_bytes 16);
    WithdrawalCredentials v;
    pack_u64_le (EffectiveBalance v);
    pack_bool (Slashed v);
    pack_u64_le (ActivationEligibilityEpoch v);
    pack_u64_le (ActivationEpoch v);
    pack_u64_le (ExitEpoch v);
    pack_u64_le (WithdrawableEpoch v) ].

(** Modelled from the spec: "Its hash-tree-root is the depth-3 Merkle root
    over these 8 leaves". *)
Definition validator_root (v : Validator) : Root :=
  tree_root 3 (build_tree 3 (ConvertValidatorToValidatorFields v)).

(** Modelled from the spec: "Build a Merkle tree of depth 40 (list capacity
    2^40) over validator_root[...], zero-padded". *)
Definition validator_tree (validators : list Validator) : Tree :=
  build_tree 40 (validator_root <$> validators).

(** Modelled from the spec: "List field root = mix_in_length(R, count)". *)
Definition validator_list_root (validators : list Validator) : Root :=
  mix_in_length (tree_root 40 (validator_tree validators)) (len validators).

(** Modelled from the spec: "pack_u64_list(xs): concatenate little-endian
    8-byte encodings, group into 32-byte chunks, zero-pad last chunk". *)
Fixpoint pack_u64_list (xs : list Z) : list Bytes32 :=
  match xs with
  | [] => []
  | a :: b :: c :: d :: rest =>
      (le_bytes 8 (Z.to_N a) ++ le_bytes 8 (Z.to_N b)
         ++ le_bytes 8 (Z.to_N c) ++ le_bytes 8 (Z.to_N d)) :: pack_u64_list rest
  | last =>
      let bs := flat_map (fun x => le_bytes 8 (Z.to_N x)) last in
      [bs ++ zero_bytes (32 - length bs)]
  end.

(** Modelled from the spec: "Build a Merkle tree of depth 38 over the chunks
    ... length sibling (validator count ...)". *)
Definition balance_list_root (balances : list Z) : Root :=
  mix_in_length (tree_root 38 (build_tree 38 (pack_u64_list balances))) (len balances).

(** Modelled from the spec: "BeaconBlockHeader: slot, proposer_index,
    parent_root, state_root, body_root — five fields, depth-3 Merkle root". *)
Definition header_leaves (h : BeaconBlockHeader) : list Root :=
  [ pack_u64_le (hdr_Slot h); pack_u64_le (ProposerIndex h);
    ParentRoot h; StateRoot h; BodyRoot h ].

(** Modelled from the spec: [beacon.ProveStateRootAgainstBlockHeader] is not
    among the sources.  "the three siblings along the path from leaf index 3
    (state_root) to the header root". *)
Definition ProveStateRootAgainstBlockHeader (h : BeaconBlockHeader) : Proof * error :=
  (proof_path 3 zero_chunk (build_tree 3 (header_leaves h)) 3, None).

(** Modelled from the spec: the fork registry, "the ordered field list of
    BeaconState" of each fork, by its length. *)
Definition num_fields (v : DataVersion) : nat :=
  match v with
  | DataVersionUnknown => 0
  | DataVersionPhase0 => 21
  | DataVersionAltair => 24
  | DataVersionBellatrix => 25
  | DataVersionCapella => 28
  | DataVersionDeneb => 28
  end.

(** Modelled from the spec: the fork registry, "the generalized index of
    each top-level field", by the position of the field in the container;
    these four are the same in every fork. *)
Definition GenesisTimeIndex : nat := 0.
Definition SlotIndex : nat := 2.
Definition ValidatorListIndex : nat := 11.
Definition BalanceListIndex : nat := 12.

(** Modelled from the spec: "For each immediate field of the state
    container, compute that field's hash-tree-root ... The ordered vector of
    these per-field roots is the TopLevelRoots." *)
Definition top_level_roots (v : DataVersion) (bs : BeaconState) : BeaconStateTopLevelRoots :=
  <[BalanceListIndex := balance_list_root (Balances bs)]>
    (<[ValidatorListIndex := validator_list_root (Validators bs)]>
       (<[SlotIndex := pack_u64_le (Slot bs)]>
          (<[GenesisTimeIndex := pack_u64_le (GenesisTime bs)]>
             (take (num_fields v) (FieldRoots bs ++ replicate (num_fields v) zero_chunk))))).

(** Modelled from the spec: "The state tree depth is ceil(log2(num_fields))". *)
Definition state_tree_depth (roots : BeaconStateTopLevelRoots) : Z :=
  Z.log2_up (len roots).

(** Modelled from the spec: [beacon.ProveBeaconTopLevelRootAgainstBeaconState]
    is not among the sources.  "The top-level proof for field position p is
    the authentication path of leaf p in that padded tree." *)
Definition ProveBeaconTopLevelRootAgainstBeaconState
    (roots : BeaconStateTopLevelRoots) (index : Z) : Proof * error :=
  let d := state_tree_depth roots in
  ComputeMerkleProofFromTree (build_tree (Z.to_nat d) roots) index d.

(** Modelled from the spec: [GetSlotTimestamp] is not among the sources.
    "the genesis timestamp of the network plus slot × 12 seconds", in
    [uint64] arithmetic. *)
Definition GetSlotTimestamp (st : VersionedBeaconState) (h : BeaconBlockHeader) : Z :=
  let genesis := default 0%Z (GenesisTime <$> State st) in
  ((genesis + hdr_Slot h * 12) mod 2 ^ 64)%Z.

End SSZ.

(* ================================================================== *)
(** ** The receiver and its cache *)

Definition DataVersion_to_nat (v : DataVersion) : nat :=
  match v with
  | DataVersionUnknown => 0
  | DataVersionPhase0 => 1
  | DataVersionAltair => 2
  | DataVersionBellatrix => 3
  | DataVersionCapella => 4
  | DataVersionDeneb => 5
  end.

Definition DataVersion_of_nat (n : nat) : DataVersion :=
  match n with
  | 1 => DataVersionPhase0
  | 2 => DataVersionAltair
  | 3 => DataVersionBellatrix
  | 4 => DataVersionCapella
  | 5 => DataVersionDeneb
  | _ => DataVersionUnknown
  end.

#[global] Instance DataVersion_countable : Countable DataVersion.
Proof.
  apply (inj_countable' DataVersion_to_nat DataVersion_of_nat).
  by intros [].
Defined.

(** Modelled from the spec: "ProofCacheEntry: (slot, fork) ->
    { validator_tree_root_layers, balance_tree_root_layers, created_at }" and
    "Value: {top_level_roots, validator_layers, balance_layers}"; the parts
    of an entry are built lazily, each on its first use. *)
Record ProofCacheEntry := {
  entry_top_level_roots : option BeaconStateTopLevelRoots;
  entry_validator_layers : option Tree;
  entry_balance_layers : option Tree;
  created_at : Z
}.

(** Modelled from the spec: the receiver [EigenPodProofs] is not among the
    sources.  It holds the configuration ("chain_id", which "selects the
    network fork schedule", and "oracle_state_cache_expiry_seconds"), the
    cache keyed by "(slot, fork_identity)", and reads a clock. *)
Record EigenPodProofs := {
  chain_id : Z;
  fork_schedule : Z -> DataVersion;
  oracle_state_cache_expiry_seconds : Z;
  now : Z;
  cache : gmap (Z * DataVersion) ProofCacheEntry
}.

Definition with_cache (epp : EigenPodProofs)
    (c : gmap (Z * DataVersion) ProofCacheEntry) : EigenPodProofs :=
  {| chain_id := chain_id epp;
     fork_schedule := fork_schedule epp;
     oracle_state_cache_expiry_seconds := oracle_state_cache_expiry_seconds epp;
     now := now epp;
     cache := c |}.

Module Cache.

(** Modelled from the spec: "lookup is exact-match" and "on lookup, discard
    ... if now − created_at > ttl". *)
Definition lookup (epp : EigenPodProofs) (key : Z * DataVersion) : option ProofCacheEntry :=
  match cache epp !! key with
  | Some e =>
      if (oracle_state_cache_expiry_seconds epp <? now epp - created_at e)%Z
      then None else Some e
  | None => None
  end.

(** Modelled from the spec: an entry is made on the "first use" of its key,
    with nothing built yet. *)
Definition fresh_entry (epp : EigenPodProofs) : ProofCacheEntry :=
  {| entry_top_level_roots := None;
     entry_validator_layers := None;
     entry_balance_layers := None;
     created_at := now epp |}.

(** Modelled from the spec: "discard and rebuild": the entry to extend on a
    miss is the live entry of the key, or a new one in place of an absent or
    expired entry. *)
Definition live_entry (epp : EigenPodProofs) (key : Z * DataVersion) : ProofCacheEntry :=
  default (fresh_entry epp) (lookup epp key).

Definition set_validator_layers (t : Tree) (e : ProofCacheEntry) : ProofCacheEntry :=
  {| entry_top_level_roots := entry_top_level_roots e;
     entry_validator_layers := Some t;
     entry_balance_layers := entry_balance_layers e;
     created_at := created_at e |}.

Definition set_top_level_roots (r : BeaconStateTopLevelRoots) (e : ProofCacheEntry)
    : ProofCacheEntry :=
  {| entry_top_level_roots := Some r;
     entry_validator_layers := entry_validator_layers e;
     entry_balance_layers := entry_balance_layers e;
     created_at := created_at e |}.

End Cache.

(** Modelled from the spec: [ComputeValidatorTree] is not among the sources.
    "trees are constructed lazily on first use of a (slot, fork) key, held by
    the cache until TTL expiry, and reconstructed on miss"; more leaves than
    the capacity [2^40] violate the tree builder's invariant. *)
Definition ComputeValidatorTree_model (slot : Z) (validators : list Validator)
    : Go EigenPodProofs (Tree * error) :=
  fun epp =>
    let key := (slot, fork_schedule epp slot) in
    match Cache.lookup epp key ≫= entry_validator_layers with
    | Some t => Returns (t, None) epp
    | None =>
        if (2 ^ 40 <? len validators)%Z then Returns ([], Some ErrInternalTree) epp
        else
          let t := SSZ.validator_tree validators in
          let e := Cache.set_validator_layers t (Cache.live_entry epp key) in
          Returns (t, None) (with_cache epp (<[key := e]> (cache epp)))
    end.

(** Modelled from the spec: the top-level roots of a state are "held by the
    cache" under the key "(slot, fork_identity)" and built "lazily on first
    use". *)
Definition load_or_compute_top_level_roots (v : DataVersion) (bs : BeaconState)
    : Go EigenPodProofs (BeaconStateTopLevelRoots * error) :=
  fun epp =>
    let key := (Slot bs, v) in
    match Cache.lookup epp key ≫= entry_top_level_roots with
    | Some r => Returns (r, None) epp
    | None =>
        let r := SSZ.top_level_roots v bs in
        let e := Cache.set_top_level_roots r (Cache.live_entry epp key) in
        Returns (r, None) (with_cache epp (<[key := e]> (cache epp)))
    end.

(** Modelled from the spec: [ComputeBeaconStateTopLevelRoots] is not among
    the sources.  The state's fork must be in the registry
    ("ErrUnknownFork") and the accessor must yield the state
    ("ErrStateAccess"). *)
Definition ComputeBeaconStateTopLevelRoots_model (st : VersionedBeaconState)
    : Go EigenPodProofs (BeaconStateTopLevelRoots * error) :=
  match Version st, State st with
  | DataVersionUnknown, _ => mret ([], Some ErrUnknownFork)
  | _, None => mret ([], Some ErrStateAccess)
  | v, Some bs => load_or_compute_top_level_roots v bs
  end.

(** The prover over the modelled receiver. *)
#[global] Instance model_deps : ProverDeps EigenPodProofs := {
  ComputeBeaconStateTopLevelRoots := ComputeBeaconStateTopLevelRoots_model;
  ComputeValidatorTree := ComputeValidatorTree_model;
  ProveStateRootAgainstBlockHeader := SSZ.ProveStateRootAgainstBlockHeader;
  ProveBeaconTopLevelRootAgainstBeaconState := SSZ.ProveBeaconTopLevelRootAgainstBeaconState;
  ValidatorListIndex := Z.of_nat SSZ.ValidatorListIndex;
  ComputeMerkleProofFromTree := SSZ.ComputeMerkleProofFromTree;
  GetSlotTimestamp := SSZ.GetSlotTimestamp;
  ConvertValidatorToValidatorFields := SSZ.ConvertValidatorToValidatorFields
}.

(* ================================================================== *)
(** ** cli/core/utils.go *)

Module CLI.

Definition ValidatorStatusInactive : Z := 0.
Definition ValidatorStatusActive : Z := 1.
Definition ValidatorStatusWithdrawn : Z := 2.

(** [math.MaxUint64]. *)
Definition FAR_FUTURE_EPOCH : Z := 2 ^ 64 - 1.

(** [ValidatorWithIndex]; [Validator] is a pointer, [None] when [nil]. *)
Record ValidatorWithIndex := {
  Validator_ : option Validator;
  Index_ : Z
}.

(** [onchain.IEigenPodValidatorInfo], by the fields the sources read. *)
Record IEigenPodValidatorInfo := {
  LastCheckpointedAt : Z;
  info_Status : Z
}.

(** [IsAwaitingWithdrawalCredentialProof].  [validator] is a pointer; [&&]
    reads [validator.ExitEpoch] only when the status is inactive. *)
Definition IsAwaitingWithdrawalCredentialProof {S}
    (validatorInfo : IEigenPodValidatorInfo) (validator : option Validator)
    : Go S bool :=
  if (info_Status validatorInfo =? ValidatorStatusInactive)%Z then
    v ← deref validator;
    mret ((ExitEpoch v =? FAR_FUTURE_EPOCH)%Z
          && negb (ActivationEpoch v =? FAR_FUTURE_EPOCH)%Z)
  else mret false.

(** The condition of the [if] in the loop of
    [SelectAwaitingCredentialValidators].  [&&] evaluates its right operand,
    and with it [validator.Validator.ExitEpoch], only when the left one
    holds. *)
Definition awaiting_credential_condition {S}
    (validatorInfo : IEigenPodValidatorInfo) (validator : ValidatorWithIndex)
    : Go S bool :=
  if (info_Status validatorInfo =? ValidatorStatusInactive)%Z then
    v ← deref (Validator_ validator);
    mret ((ExitEpoch v =? FAR_FUTURE_EPOCH)%Z
          && negb (ActivationEpoch v =? FAR_FUTURE_EPOCH)%Z)
  else mret false.

(** The sixteen zero bytes [zeroes] of [GetOnchainValidatorInfo]. *)
Definition zeroes : list byte :=
  [ Byte.x00; Byte.x00; Byte.x00; Byte.x00; Byte.x00; Byte.x00; Byte.x00; Byte.x00;
    Byte.x00; Byte.x00; Byte.x00; Byte.x00; Byte.x00; Byte.x00; Byte.x00; Byte.x00 ].

Section Onchain.

(** The EigenPod contract behind the client: whether a binding to the
    address can be made, and the view [validatorPubkeyHashToInfo]. *)
Variable NewEigenPod : string -> error.
Variable validatorPubkeyHashToInfo : string -> Bytes32 -> IEigenPodValidatorInfo * error.

(** The remote calls of a run are logged, in order, by their key. *)
Definition ValidatorPubkeyHashToInfo (eigenpodAddress : string) (pubKeyHash : Bytes32)
    : Go (list Bytes32) (IEigenPodValidatorInfo * error) :=
  fun log => Returns (validatorPubkeyHashToInfo eigenpodAddress pubKeyHash) (log ++ [pubKeyHash]).

(** The loop [for i := 0; i < len(allValidators); i++] of
    [GetOnchainValidatorInfo], on the validators from index [i] on. *)
Fixpoint GetOnchainValidatorInfo_loop (eigenpodAddress : string)
    (rest : list ValidatorWithIndex) (validatorInfo : list IEigenPodValidatorInfo)
    : Go (list Bytes32) (list IEigenPodValidatorInfo * error) :=
  match rest with
  | [] => mret (validatorInfo, None)
  | v :: rest' =>
      (* ssz requires values to be 32-byte aligned, which requires 16 bytes
         of 0's to be added prior to hashing. *)
      validator ← deref (Validator_ v);
      let pubKeyHash := SHA256.Sum256 (PublicKey validator ++ zeroes) in
      '(info, err) ← ValidatorPubkeyHashToInfo eigenpodAddress pubKeyHash;
      match err with
      | Some e => mret ([], Some (Errorf "failed to fetch validator eigeninfo" e))
      | None =>
          GetOnchainValidatorInfo_loop eigenpodAddress rest' (validatorInfo ++ [info])
      end
  end.

Definition GetOnchainValidatorInfo (eigenpodAddress : string)
    (allValidators : list ValidatorWithIndex)
    : Go (list Bytes32) (list IEigenPodValidatorInfo * error) :=
  match NewEigenPod eigenpodAddress with
  | Some e =>
      mret ([], Some (Errorf "failed to locate Eigenpod. Is your address correct?" e))
  | None => GetOnchainValidatorInfo_loop eigenpodAddress allValidators []
  end.

(** The loop [for i := 0; i < len(validators); i++] of
    [SelectAwaitingCredentialValidators], from index [i] on. *)
Fixpoint SelectAwaitingCredentialValidators_loop
    (validatorInfos : list IEigenPodValidatorInfo)
    (i : Z) (rest : list ValidatorWithIndex)
    (awaitingCredentialValidators : list ValidatorWithIndex)
    : Go (list Bytes32) (list ValidatorWithIndex * error) :=
  match rest with
  | [] => mret (awaitingCredentialValidators, None)
  | validator :: rest' =>
      validatorInfo ← slice_index validatorInfos i;
      awaiting ← awaiting_credential_condition validatorInfo validator;
      let awaitingCredentialValidators :=
        if (awaiting : bool)
        then awaitingCredentialValidators ++ [validator]
        else awaitingCredentialValidators in
      SelectAwaitingCredentialValidators_loop validatorInfos (i + 1) rest'
        awaitingCredentialValidators
  end.

Definition SelectAwaitingCredentialValidators (eigenpodAddress : string)
    (validators : list ValidatorWithIndex)
    : Go (list Bytes32) (list ValidatorWithIndex * error) :=
  '(validatorInfos, err) ← GetOnchainValidatorInfo eigenpodAddress validators;
  if nonnil err then mret ([], err) else
  SelectAwaitingCredentialValidators_loop validatorInfos 0 validators [].

End Onchain.

(** The CLI's [Validator], by the fields [SortByStatus] reads; the public key
    is the key of the map. *)
Record Validator := {
  Index : Z;
  Status : Z;
  IsAwaitingActivationQueue : bool
}.

Section Sorting.

(** The order in which [range] visits a map is not specified: any
    enumeration of its entries. *)
Variable range_order : gmap string Validator -> list (string * Validator).
Hypothesis range_order_perm : forall m, range_order m ≡ₚ map_to_list m.

(** [sort.Slice] reorders the slice so that no element is less than one
    before it; it is not stable.  The sources call it with a comparison of
    an integer key. *)
Variable sort_Slice : (Validator -> Validator -> bool) -> list Validator -> list Validator.
Hypothesis sort_Slice_perm : forall less l, sort_Slice less l ≡ₚ l.
Hypothesis sort_Slice_sorted : forall (key : Validator -> Z) l,
  StronglySorted (fun a b => (key a <= key b)%Z)
    (sort_Slice (fun a b => (key a <? key b)%Z) l).

Record by_status := {
  awaitingActivationQueueValidators : list Validator;
  inactiveValidators : list Validator;
  activeValidators : list Validator;
  withdrawnValidators : list Validator
}.

(** One iteration of the loop: the [switch validator.Status]. *)
Definition SortByStatus_step (acc : by_status) (entry : string * Validator) : by_status :=
  let validator := entry.2 in
  if (Status validator =? ValidatorStatusInactive)%Z then
    if IsAwaitingActivationQueue validator then
      {| awaitingActivationQueueValidators :=
           awaitingActivationQueueValidators acc ++ [validator];
         inactiveValidators := inactiveValidators acc;
         activeValidators := activeValidators acc;
         withdrawnValidators := withdrawnValidators acc |}
    else
      {| awaitingActivationQueueValidators := awaitingActivationQueueValidators acc;
         inactiveValidators := inactiveValidators acc ++ [validator];
         activeValidators := activeValidators acc;
         withdrawnValidators := withdrawnValidators acc |}
  else if (Status validator =? ValidatorStatusActive)%Z then
    {| awaitingActivationQueueValidators := awaitingActivationQueueValidators acc;
       inactiveValidators := inactiveValidators acc;
       activeValidators := activeValidators acc ++ [validator];
       withdrawnValidators := withdrawnValidators acc |}
  else if (Status validator =? ValidatorStatusWithdrawn)%Z then
    {| awaitingActivationQueueValidators := awaitingActivationQueueValidators acc;
       inactiveValidators := inactiveValidators acc;
       activeValidators := activeValidators acc;
       withdrawnValidators := withdrawnValidators acc ++ [validator] |}
  else acc.

Definition by_Index (a b : Validator) : bool := (Index a <? Index b)%Z.

Definition SortByStatus (validators : gmap string Validator) : by_status :=
  let acc :=
    fold_left SortByStatus_step (range_order validators)
      {| awaitingActivationQueueValidators := [];
         inactiveValidators := [];
         activeValidators := [];
         withdrawnValidators := [] |} in
  (* Sort each of these mappings in order of ascending Validator.Index *)
  {| awaitingActivationQueueValidators := awaitingActivationQueueValidators acc;
     inactiveValidators := sort_Slice by_Index (inactiveValidators acc);
     activeValidators := sort_Slice by_Index (activeValidators acc);
     withdrawnValidators := sort_Slice by_Index (withdrawnValidators acc) |}.

End Sorting.

(** An insertion sort, one of the behaviours [sort.Slice] may have. *)
Fixpoint insert_sorted (less : Validator -> Validator -> bool) (x : Validator)
    (l : list Validator) : list Validator :=
  match l with
  | [] => [x]
  | y :: l' => if less y x then y :: insert_sorted less x l' else x :: l
  end.

Definition insertion_sort (less : Validator -> Validator -> bool) (l : list Validator)
    : list Validator :=
  foldr (insert_sorted less) [] l.

End CLI.

(** The state a call leaves behind. *)
Definition state_after {S A} (o : outcome S A) : S :=
  match o with
  | Returns _ s => s
  | Panics _ s => s
  end.

(* ================================================================== *)
(** ** A small beacon state, for running the prover *)

Module Fixture.

Definition v0 : Validator :=
  {| PublicKey := replicate 48 Byte.x01;
     WithdrawalCredentials := zero_bytes 32;
     EffectiveBalance := 32000000000;
     Slashed := false;
     ActivationEligibilityEpoch := 0;
     ActivationEpoch := 0;
     ExitEpoch := 2 ^ 64 - 1;
     WithdrawableEpoch := 2 ^ 64 - 1 |}.

Definition v1 : Validator :=
  {| PublicKey := replicate 48 Byte.x02;
     WithdrawalCredentials := zero_bytes 32;
     EffectiveBalance := 31000000000;
     Slashed := true;
     ActivationEligibilityEpoch := 0;
     ActivationEpoch := 0;
     ExitEpoch := 2 ^ 64 - 1;
     WithdrawableEpoch := 2 ^ 64 - 1 |}.

(** [v1] with another effective balance. *)
Definition v1' : Validator :=
  {| PublicKey := replicate 48 Byte.x02;
     WithdrawalCredentials := zero_bytes 32;
     EffectiveBalance := 30000000000;
     Slashed := true;
     ActivationEligibilityEpoch := 0;
     ActivationEpoch := 0;
     ExitEpoch := 2 ^ 64 - 1;
     WithdrawableEpoch := 2 ^ 64 - 1 |}.

Definition state_of (validators : list Validator) : VersionedBeaconState :=
  {| Version := DataVersionDeneb;
     State := Some {| GenesisTime := 1606824023;
                      Slot := 100;
                      Validators := validators;
                      Balances := EffectiveBalance <$> validators;
                      FieldRoots := [] |} |}.

(** Two states of the same slot and fork that differ in one validator. *)
Definition st : VersionedBeaconState := state_of [v0; v1].
Definition st' : VersionedBeaconState := state_of [v0; v1'].

Definition state_root (s : VersionedBeaconState) : Root :=
  match State s with
  | Some bs => SSZ.tree_root 5 (SSZ.build_tree 5 (SSZ.top_level_roots (Version s) bs))
  | None => SSZ.zero_chunk
  end.

Definition header_of (s : VersionedBeaconState) : BeaconBlockHeader :=
  {| hdr_Slot := 100;
     ProposerIndex := 1;
     ParentRoot := zero_bytes 32;
     StateRoot := state_root s;
     BodyRoot := zero_bytes 32 |}.

Definition hdr : BeaconBlockHeader := header_of st.
Definition hdr' : BeaconBlockHeader := header_of st'.

(** A receiver with an empty cache. *)
Definition epp : EigenPodProofs :=
  {| chain_id := 1;
     fork_schedule := fun _ => DataVersionDeneb;
     oracle_state_cache_expiry_seconds := 300;
     now := 1000;
     cache := ∅ |}.

(** The receiver after a call for [st]. *)
Definition epp_warm : EigenPodProofs :=
  state_after (ProveValidatorContainers hdr st [0%Z] epp).

(** Two validators of a pod; the contract knows the first as inactive and
    the second as active. *)
Definition pod_validators : list CLI.ValidatorWithIndex :=
  [ {| CLI.Validator_ := Some v0; CLI.Index_ := 0 |};
    {| CLI.Validator_ := Some v1; CLI.Index_ := 1 |} ].

Definition pod_binding : string -> error := fun _ => None.

Definition pod_view : string -> Bytes32 -> CLI.IEigenPodValidatorInfo * error :=
  fun _ key =>
    ({| CLI.LastCheckpointedAt := 0;
        CLI.info_Status :=
          if bool_decide (key = SHA256.Sum256 (PublicKey v0 ++ zero_bytes 16))
          then CLI.ValidatorStatusInactive else CLI.ValidatorStatusActive |},
     None).

(** Validators of every status, and one of a status that is none of the
    three. *)
Definition status_map : gmap string CLI.Validator :=
  list_to_map
    [ ("a"%string, {| CLI.Index := 7; CLI.Status := 1; CLI.IsAwaitingActivationQueue := false |});
      ("b"%string, {| CLI.Index := 3; CLI.Status := 1; CLI.IsAwaitingActivationQueue := false |});
      ("c"%string, {| CLI.Index := 5; CLI.Status := 0; CLI.IsAwaitingActivationQueue := true |});
      ("d"%string, {| CLI.Index := 4; CLI.Status := 0; CLI.IsAwaitingActivationQueue := false |});
      ("e"%string, {| CLI.Index := 2; CLI.Status := 2; CLI.IsAwaitingActivationQueue := false |});
      ("f"%string, {| CLI.Index := 1; CLI.Status := 9; CLI.IsAwaitingActivationQueue := false |}) ].

End Fixture.

(** What a call yields to its caller, the receiver left aside. *)
Definition yields {S A} (o : outcome S A) : A + panic :=
  match o with
  | Returns a _ => inl a
  | Panics p _ => inr p
  end.

(* ================================================================== *)
(** ** More of the CLI's [core] package *)

Module Core.

(** How a helper that does not touch the receiver ends when it does not
    return: a [panic] with a string, one of the two run-time panics of an
    index or slice expression, or the loop still running when the fuel of
    the model is used up. *)
Inductive fault :=
| PanicString (msg : string)
| IndexFault (index length : Z)
| SliceBoundsFault (low high length : Z)
| Unfinished.

(** Arithmetic on [uint64] wraps around. *)
Definition uint64 (x : Z) : Z := x mod 2 ^ 64.

(** The index expression [s[i]]. *)
Definition index_expr {A} (s : list A) (i : Z) : fault + A :=
  if (0 <=? i)%Z && (i <? len s)%Z then
    match s !! Z.to_nat i with
    | Some x => inr x
    | None => inl (IndexFault i (len s))
    end
  else inl (IndexFault i (len s)).

(** The slice expression [s[low:high]].  The bounds are checked against the
    length; Go checks [high] against the capacity, which is at least the
    length, so a range that passes here passes there and denotes the same
    elements. *)
Definition slice_expr {A} (s : list A) (low high : Z) : fault + list A :=
  if (0 <=? low)%Z && (low <=? high)%Z && (high <=? len s)%Z then
    inr (take (Z.to_nat (high - low)) (drop (Z.to_nat low) s))
  else inl (SliceBoundsFault low high (len s)).

(** The loop [for i := uint64(0); i < arrLen; i += chunkSize] of [chunk],
    from the value [i] of the counter on. *)
Fixpoint chunk_loop {A} (fuel : nat) (arr : list A) (chunkSize arrLen i : Z)
    (chunks : list (list A)) : fault + list (list A) :=
  match fuel with
  | O => inl Unfinished
  | S fuel' =>
      if (i <? arrLen)%Z then
        let end_ := uint64 (i + chunkSize) in
        let end_ := if (arrLen <? end_)%Z then arrLen else end_ in
        match slice_expr arr i end_ with
        | inl f => inl f
        | inr c =>
            chunk_loop fuel' arr chunkSize arrLen (uint64 (i + chunkSize)) (chunks ++ [c])
        end
      else inr chunks
  end.

Definition chunk {A} (fuel : nat) (arr : list A) (chunkSize : Z) : fault + list (list A) :=
  (* Validate the chunkSize to ensure it's positive *)
  if (chunkSize <=? 0)%Z then inl (PanicString "chunkSize must be greater than 0") else
  let arrLen := uint64 (len arr) in
  chunk_loop fuel arr chunkSize arrLen 0 [].

Fixpoint AllZero (s : list byte) : bool :=
  match s with
  | [] => true
  | v :: s' => if negb (Byte.eqb v Byte.x00) then false else AllZero s'
  end.

(** [bytes.Equal]. *)
Definition bytes_Equal (a b : list byte) : bool := bool_decide (a = b).

Section Beacon.

(** The accessor [beaconState.Validators()] of the client library; the slice
    it returns holds pointers, which may be [nil]. *)
Variable Validators : VersionedBeaconState -> list (option Validator) * error.

(** [common.FromHex] of go-ethereum. *)
Variable FromHex : string -> list byte.

(** The loop [for i = 0; i < maxValidators; i++] of
    [FindAllValidatorsForEigenpod], on the validators from index [i] on. *)
Fixpoint FindAllValidatorsForEigenpod_loop (eigenpodAddressBytes : list byte)
    (i : Z) (rest : list (option Validator))
    (outputValidators : list CLI.ValidatorWithIndex)
    : fault + list CLI.ValidatorWithIndex :=
  match rest with
  | [] => inr outputValidators
  | validator :: rest' =>
      let continue_ outputValidators :=
        FindAllValidatorsForEigenpod_loop eigenpodAddressBytes (uint64 (i + 1)) rest'
          outputValidators in
      match validator with
      | None => continue_ outputValidators
      | Some v =>
          match index_expr (WithdrawalCredentials v) 0 with
          | inl f => inl f
          | inr first =>
              (* withdrawalCredentials _need_ their first byte set to 1 to
                 withdraw to execution layer. *)
              if negb (Byte.eqb first Byte.x01) then continue_ outputValidators else
              (* we check that the last 20 bytes of expectedCredentials
                 matches validatorCredentials. *)
              match slice_expr (WithdrawalCredentials v) 12
                      (len (WithdrawalCredentials v)) with
              | inl f => inl f
              | inr credentials =>
                  if bytes_Equal eigenpodAddressBytes credentials then
                    continue_
                      (outputValidators
                       ++ [ {| CLI.Validator_ := Some v; CLI.Index_ := i |} ])
                  else continue_ outputValidators
              end
          end
      end
  end.

Definition FindAllValidatorsForEigenpod (eigenpodAddress : string)
    (beaconState : VersionedBeaconState)
    : fault + (list CLI.ValidatorWithIndex * error) :=
  let '(allValidators, err) := Validators beaconState in
  match err with
  | Some e => inr ([], Some (Errorf "failed to fetch beacon state" e))
  | None =>
      let eigenpodAddressBytes := FromHex eigenpodAddress in
      match FindAllValidatorsForEigenpod_loop eigenpodAddressBytes 0 allValidators [] with
      | inl f => inl f
      | inr outputValidators => inr (outputValidators, None)
      end
  end.

End Beacon.

Section Selection.

Variable NewEigenPod : string -> error.
Variable validatorPubkeyHashToInfo :
  string -> Bytes32 -> CLI.IEigenPodValidatorInfo * error.

Let GetOnchainValidatorInfo :=
  CLI.GetOnchainValidatorInfo NewEigenPod validatorPubkeyHashToInfo.

(** The condition of the [if] in the loop of
    [SelectCheckpointableValidators]. *)
Definition checkpointable_condition (lastCheckpoint : Z)
    (validatorInfo : CLI.IEigenPodValidatorInfo) : bool :=
  let notCheckpointed :=
    negb (CLI.LastCheckpointedAt validatorInfo =? lastCheckpoint)%Z
    || (CLI.LastCheckpointedAt validatorInfo =? 0)%Z in
  let isActive := (CLI.info_Status validatorInfo =? CLI.ValidatorStatusActive)%Z in
  notCheckpointed && isActive.

Fixpoint SelectCheckpointableValidators_loop (lastCheckpoint : Z)
    (validatorInfos : list CLI.IEigenPodValidatorInfo)
    (i : Z) (rest : list CLI.ValidatorWithIndex)
    (checkpointValidators : list CLI.ValidatorWithIndex)
    : Go (list Bytes32) (list CLI.ValidatorWithIndex * error) :=
  match rest with
  | [] => mret (checkpointValidators, None)
  | validator :: rest' =>
      validatorInfo ← slice_index validatorInfos i;
      let checkpointValidators :=
        if checkpointable_condition lastCheckpoint validatorInfo
        then checkpointValidators ++ [validator]
        else checkpointValidators in
      SelectCheckpointableValidators_loop lastCheckpoint validatorInfos (i + 1) rest'
        checkpointValidators
  end.

Definition SelectCheckpointableValidators (eigenpodAddress : string)
    (validators : list CLI.ValidatorWithIndex) (lastCheckpoint : Z)
    : Go (list Bytes32) (list CLI.ValidatorWithIndex * error) :=
  '(validatorInfos, err) ← GetOnchainValidatorInfo eigenpodAddress validators;
  if nonnil err then mret ([], err) else
  SelectCheckpointableValidators_loop lastCheckpoint validatorInfos 0 validators [].

(** The loop of [SelectAwaitingActivationValidators]; it reads neither the
    client nor the address. *)
Fixpoint SelectAwaitingActivationValidators_loop (rest : list CLI.ValidatorWithIndex)
    (awaitingActivationValidators : list CLI.ValidatorWithIndex)
    : Go (list Bytes32) (list CLI.ValidatorWithIndex * error) :=
  match rest with
  | [] => mret (awaitingActivationValidators, None)
  | validator :: rest' =>
      v ← deref (CLI.Validator_ validator);
      SelectAwaitingActivationValidators_loop rest'
        (if (ActivationEpoch v =? CLI.FAR_FUTURE_EPOCH)%Z
         then awaitingActivationValidators ++ [validator]
         else awaitingActivationValidators)
  end.

Definition SelectAwaitingActivationValidators (eigenpodAddress : string)
    (validators : list CLI.ValidatorWithIndex)
    : Go (list Bytes32) (list CLI.ValidatorWithIndex * error) :=
  SelectAwaitingActivationValidators_loop validators [].

Fixpoint SelectActiveValidators_loop
    (validatorInfos : list CLI.IEigenPodValidatorInfo)
    (i : Z) (rest : list CLI.ValidatorWithIndex)
    (activeValidators : list CLI.ValidatorWithIndex)
    : Go (list Bytes32) (list CLI.ValidatorWithIndex * error) :=
  match rest with
  | [] => mret (activeValidators, None)
  | validator :: rest' =>
      validatorInfo ← slice_index validatorInfos i;
      let activeValidators :=
        if (CLI.info_Status validatorInfo =? CLI.ValidatorStatusActive)%Z
        then activeValidators ++ [validator]
        else activeValidators in
      SelectActiveValidators_loop validatorInfos (i + 1) rest' activeValidators
  end.

Definition SelectActiveValidators (eigenpodAddress : string)
    (validators : list CLI.ValidatorWithIndex)
    : Go (list Bytes32) (list CLI.ValidatorWithIndex * error) :=
  '(validatorInfos, err) ← GetOnchainValidatorInfo eigenpodAddress validators;
  if nonnil err then mret ([], err) else
  SelectActiveValidators_loop validatorInfos 0 validators [].

End Selection.

(** [hex.EncodeToString]. *)
Definition hex_digit (n : N) : ascii :=
  nth (N.to_nat n) (list_ascii_of_string "0123456789abcdef") "0"%char.

Fixpoint hex_EncodeToString (src : list byte) : string :=
  match src with
  | [] => EmptyString
  | b :: src' =>
      String (hex_digit (Byte.to_N b / 16))
        (String (hex_digit (Byte.to_N b mod 16)) (hex_EncodeToString src'))
  end.

(** [strconv.FormatUint(x, 10)]. *)
Definition strconv_FormatUint (x : Z) : string :=
  NilZero.string_of_uint (N.to_uint (Z.to_N x)).

(** What a run does that its caller can see from outside: the sections it
    opens and closes on the tracing callbacks of the context, and its calls
    of the pod contract and of the beacon node. *)
Inductive event :=
| OnStartSection (name : string)
| OnEndSection
| CallNewEigenPod (address : string)
| CallCurrentCheckpointTimestamp (address : string)
| CallCurrentCheckpoint (address : string)
| CallGetBeaconHeader (blockId : string)
| CallGetBeaconState (stateId : string).

(** The response to a header request, [*v1.BeaconBlockHeader], by the
    pointers the sources follow: [header.Header] is a
    [*phase0.SignedBeaconBlockHeader] and [header.Header.Message] a
    [*phase0.BeaconBlockHeader]. *)
Record SignedBeaconBlockHeader := {
  Message : option BeaconBlockHeader
}.

Record BeaconBlockHeaderResponse := {
  Header : option SignedBeaconBlockHeader
}.

Definition emit (e : event) : Go (list event) unit :=
  fun events => Returns tt (events ++ [e]).

Section Checkpoint.

(** The pod contract behind the execution client: whether a binding to the
    address can be made, and its views [currentCheckpointTimestamp] and
    [currentCheckpoint], the latter by the field the sources read. *)
Variable NewEigenPod : string -> error.
Variable currentCheckpointTimestamp : string -> Z * error.
Variable currentCheckpoint_BeaconBlockRoot : string -> Bytes32 * error.

(** The beacon node: the header response for a block id, and the state for a
    state id. *)
Variable getBeaconHeader : string -> option BeaconBlockHeaderResponse * error.
Variable getBeaconState : string -> option VersionedBeaconState * error.

Definition onchain_NewEigenPod (address : string) : Go (list event) error :=
  _ ← emit (CallNewEigenPod address); mret (NewEigenPod address).

Definition GetCurrentCheckpoint (eigenpodAddress : string)
    : Go (list event) (Z * error) :=
  err ← onchain_NewEigenPod eigenpodAddress;
  match err with
  | Some e =>
      mret (0%Z, Some (Errorf "failed to locate eigenpod. is your address correct?" e))
  | None =>
      _ ← emit (CallCurrentCheckpointTimestamp eigenpodAddress);
      let '(timestamp, err) := currentCheckpointTimestamp eigenpodAddress in
      match err with
      | Some e =>
          mret (0%Z, Some (Errorf "failed to locate eigenpod. Is your address correct?" e))
      | None => mret (timestamp, None)
      end
  end.

Definition GetCurrentCheckpointBlockRoot (eigenpodAddress : string)
    : Go (list event) (option Bytes32 * error) :=
  err ← onchain_NewEigenPod eigenpodAddress;
  match err with
  | Some e =>
      mret (None, Some (Errorf "failed to locate Eigenpod. Is your address correct?" e))
  | None =>
      _ ← emit (CallCurrentCheckpoint eigenpodAddress);
      let '(BeaconBlockRoot, err) := currentCheckpoint_BeaconBlockRoot eigenpodAddress in
      match err with
      | Some e => mret (None, Some (Errorf "failed to reach eigenpod" e))
      | None => mret (Some BeaconBlockRoot, None)
      end
  end.

(** The last step of [GetCheckpointTimestampAndBeaconState], shared by its
    two branches. *)
Definition GetCheckpointTimestampAndBeaconState_state (checkpointTimestamp : Z)
    (beaconStateId : string)
    : Go (list event) (Z * option VersionedBeaconState * error) :=
  _ ← emit (OnStartSection "GetBeaconState");
  _ ← emit (CallGetBeaconState beaconStateId);
  let '(beaconState, err) := getBeaconState beaconStateId in
  match err with
  | Some e => mret (0%Z, None, Some (Errorf "failed to fetch beacon state" e))
  | None =>
      _ ← emit OnEndSection;
      mret (checkpointTimestamp, beaconState, None)
  end.

Definition GetCheckpointTimestampAndBeaconState (eigenpodAddress : string)
    : Go (list event) (Z * option VersionedBeaconState * error) :=
  _ ← emit (OnStartSection "GetCurrentCheckpoint");
  '(checkpointTimestamp, err) ← GetCurrentCheckpoint eigenpodAddress;
  match err with
  | Some e => mret (0%Z, None, Some (Errorf "failed to fetch current checkpoint" e))
  | None =>
  _ ← emit OnEndSection;
  (* If we have a checkpoint, get the state id for the checkpoint's block root *)
  if negb (checkpointTimestamp =? 0)%Z then
    (* Fetch the checkpoint's block root *)
    _ ← emit (OnStartSection "GetCurrentCheckpointBlockRoot");
    '(blockRoot, err) ← GetCurrentCheckpointBlockRoot eigenpodAddress;
    match err with
    | Some e => mret (0%Z, None, Some (Errorf "failed to fetch last checkpoint" e))
    | None =>
    match blockRoot with
    | None =>
        mret (0%Z, None, Some (ErrExternal "failed to fetch last checkpoint - nil blockRoot"))
    | Some rootBytes =>
    (* Block root should be nonzero because we have an active checkpoint *)
    if AllZero rootBytes then
      mret (0%Z, None, Some (ErrExternal "failed to fetch last checkpoint - empty blockRoot"))
    else
    _ ← emit OnEndSection;
    let headerBlock := ("0x" ++ hex_EncodeToString rootBytes)%string in
    _ ← emit (OnStartSection "GetBeaconHeader");
    _ ← emit (CallGetBeaconHeader headerBlock);
    let '(header, err) := getBeaconHeader headerBlock in
    match err with
    | Some e =>
        mret (0%Z, None,
              Some (Errorf ("failed to fetch beacon header (" ++ headerBlock ++ ")") e))
    | None =>
        _ ← emit OnEndSection;
        (* header.Header.Message.Slot *)
        response ← deref header;
        signed ← deref (Header response);
        message ← deref (Message signed);
        GetCheckpointTimestampAndBeaconState_state checkpointTimestamp
          (strconv_FormatUint (hdr_Slot message))
    end
    end
    end
  else
    GetCheckpointTimestampAndBeaconState_state checkpointTimestamp "head"
  end.

End Checkpoint.

End Core.

(** A pod, a validator that withdraws to it, and a state's list of validator
    pointers with a [nil] among them. *)
Module PodFixture.

Definition pod_address : list byte := replicate 20 Byte.xab.

Definition w : Validator :=
  {| PublicKey := replicate 48 Byte.x03;
     WithdrawalCredentials := Byte.x01 :: replicate 11 Byte.x00 ++ pod_address;
     EffectiveBalance := 32000000000;
     Slashed := false;
     ActivationEligibilityEpoch := 0;
     ActivationEpoch := 2 ^ 64 - 1;
     ExitEpoch := 2 ^ 64 - 1;
     WithdrawableEpoch := 2 ^ 64 - 1 |}.

Definition pointers : list (option Validator) := [Some Fixture.v0; None; Some w].

(** A contract whose lookups fail for every validator but [Fixture.v0]. *)
Definition failing_view : string -> Bytes32 -> CLI.IEigenPodValidatorInfo * error :=
  fun _ key =>
    ({| CLI.LastCheckpointedAt := 0; CLI.info_Status := CLI.ValidatorStatusInactive |},
     if bool_decide (key = SHA256.Sum256 (PublicKey Fixture.v0 ++ CLI.zeroes))
     then None else Some (ErrExternal "execution reverted")).

(** A header response with all its pointers set, for the header of the
    fixture state. *)
Definition header_response : option Core.BeaconBlockHeaderResponse :=
  Some {| Core.Header := Some {| Core.Message := Some Fixture.hdr |} |}.

(** An entry whose validator pointer is [nil]. *)
Definition nil_entry : CLI.ValidatorWithIndex :=
  {| CLI.Validator_ := None; CLI.Index_ := 2 |}.

End PodFixture.

(* ================================================================== *)
(** * Properties *)

(** ** The Go monad *)

Lemma go_bind_unfold {S A B} (m : Go S A) (k : A -> Go S B) (s : S) :
  (m ≫= k) s = match m s with
               | Returns a s' => k a s'
               | Panics p s' => Panics p s'
               end.
Proof. reflexivity. Qed.

Lemma go_ret_unfold {S A} (a : A) (s : S) : (mret a : Go S A) s = Returns a s.
Proof. reflexivity. Qed.

Lemma go_bind_returns {S A B} (m : Go S A) (k : A -> Go S B) s b s2 :
  (m ≫= k) s = Returns b s2 <->
  exists a s1, m s = Returns a s1 /\ k a s1 = Returns b s2.
Proof.
  rewrite go_bind_unfold. split.
  - destruct (m s) as [a s1|p s1]; [eauto|discriminate].
  - intros (a & s1 & -> & Hk). exact Hk.
Qed.

Lemma nonnil_true (err : error) : nonnil err = true <-> err <> None.
Proof. destruct err; simpl; split; congruence. Qed.

Lemma nonnil_false (err : error) : nonnil err = false <-> err = None.
Proof. destruct err; simpl; split; congruence. Qed.

Lemma BigToLittleEndian_returns {S} (n : Z) (s : S) chunk s' :
  BigToLittleEndian n s = Returns chunk s' <->
  (n <= 2 ^ 64)%Z /\ chunk = le_bytes 32 (Z.to_N n) /\ s' = s.
Proof.
  unfold BigToLittleEndian. destruct (Z.ltb_spec (2 ^ 64) n).
  - split; [discriminate | lia].
  - rewrite go_ret_unfold. split.
    + intros [= <- <-]. auto.
    + intros (_ & -> & ->). reflexivity.
Qed.

(* ================================================================== *)
(** ** The validator proof: shape and order *)

Section ProverFacts.
Context {EPP : Type} `{!ProverDeps EPP}.

(** A successful run of [ProveValidatorAgainstValidatorList] is the
    authentication path of the leaf followed by the length chunk. *)
Lemma ProveValidatorAgainstValidatorList_returns slot vals idx (s : EPP) proof s' :
  ProveValidatorAgainstValidatorList slot vals idx s = Returns (proof, None) s' <->
  exists tree leaf_proof length_sibling,
    ComputeValidatorTree slot vals s = Returns (tree, None) s' /\
    ComputeMerkleProofFromTree tree idx ValidatorListMerkleSubtreeNumLayers
      = (leaf_proof, None) /\
    BigToLittleEndian (int64 (len vals)) s' = Returns length_sibling s' /\
    proof = leaf_proof ++ [length_sibling].
Proof.
  unfold ProveValidatorAgainstValidatorList. rewrite go_bind_unfold.
  destruct (ComputeValidatorTree slot vals s) as [[tree [e|]] s1|p s1]; simpl.
  - rewrite go_ret_unfold.
    split; [discriminate | intros (?&?&?&[=]&_)].
  - destruct (ComputeMerkleProofFromTree tree idx ValidatorListMerkleSubtreeNumLayers)
      as [leaf [e|]] eqn:Hleaf; simpl.
    + rewrite go_ret_unfold. split; [discriminate|].
      intros (t & l & c & [= <- <-] & Hl & _). rewrite Hleaf in Hl. discriminate.
    + rewrite go_bind_unfold.
      destruct (BigToLittleEndian (int64 (len vals)) s1) as [c s2|p s2] eqn:Hc.
      * apply BigToLittleEndian_returns in Hc as Hc'. destruct Hc' as (Hle & -> & ->).
        rewrite go_ret_unfold. split.
        -- intros [= <- <-]. eauto 10.
        -- intros (t & l & c & [= <- <-] & Hl & Hc2 & ->).
           rewrite Hleaf in Hl. rewrite Hc in Hc2.
           injection Hl as <-. injection Hc2 as <-. reflexivity.
      * split; [discriminate|].
        intros (t & l & c & [= <- <-] & _ & Hc2 & _). rewrite Hc in Hc2. discriminate.
  - split; [discriminate | intros (?&?&?&[=]&_)].
Qed.

(** C1.  A successful [ProveValidatorAgainstBeaconState] returns exactly the
    leaf authentication path, then the length sibling (together the result
    of [ProveValidatorAgainstValidatorList]), then the top-level path of the
    validators field; and it succeeds whenever these three parts are
    produced. *)
Theorem ProveValidatorAgainstBeaconState_leaf_first
    slot vals roots idx (s : EPP) proof s' :
  ProveValidatorAgainstBeaconState slot vals roots idx s = Returns (proof, None) s' <->
  exists leaf_proof length_sibling top_level_proof,
    (exists tree,
        ComputeValidatorTree slot vals s = Returns (tree, None) s' /\
        ComputeMerkleProofFromTree tree idx ValidatorListMerkleSubtreeNumLayers
          = (leaf_proof, None)) /\
    BigToLittleEndian (int64 (len vals)) s' = Returns length_sibling s' /\
    ProveValidatorAgainstValidatorList slot vals idx s
      = Returns (leaf_proof ++ [length_sibling], None) s' /\
    ProveBeaconTopLevelRootAgainstBeaconState roots ValidatorListIndex
      = (top_level_proof, None) /\
    proof = leaf_proof ++ [length_sibling] ++ top_level_proof.
Proof.
  unfold ProveValidatorAgainstBeaconState.
  destruct (ProveBeaconTopLevelRootAgainstBeaconState roots ValidatorListIndex)
    as [top [e|]] eqn:Htop; simpl.
  - rewrite go_ret_unfold. split; [discriminate|].
    intros (?&?&?&_&_&_&[=]&_).
  - rewrite go_bind_unfold.
    destruct (ProveValidatorAgainstValidatorList slot vals idx s)
      as [[vp [e|]] s1|p s1] eqn:Hvp; simpl.
    + rewrite go_ret_unfold. split; [discriminate|].
      intros (?&?&?&_&_&[=]&_).
    + rewrite go_ret_unfold.
      apply ProveValidatorAgainstValidatorList_returns in Hvp as Hparts.
      destruct Hparts as (tree & leaf & c & Htree & Hleaf & Hc & ->).
      split.
      * intros [= <- <-]. exists leaf, c, top.
        split_and!; eauto. symmetry. exact (assoc_L (++) leaf [c] top).
      * intros (l & c' & t & _ & _ & [= Hl <-] & [= <-] & ->).
        rewrite Hl. f_equal. f_equal. symmetry. exact (assoc_L (++) l [c'] top).
    + split; [discriminate|]. intros (?&?&?&_&_&[=]&_).
Qed.

End ProverFacts.

(** The proof of validator 1 in the two-validator state: 40 siblings of the
    leaf, the chunk of the count 2, and the top-level path. *)
Lemma ProveValidatorAgainstBeaconState_leaf_first_witness :
  exists proof s' leaf_proof length_sibling top_level_proof,
    ProveValidatorAgainstBeaconState 100 [Fixture.v0; Fixture.v1]
      (SSZ.top_level_roots DataVersionDeneb
         {| GenesisTime := 0; Slot := 100; Validators := [Fixture.v0; Fixture.v1];
            Balances := []; FieldRoots := [] |})
      1 Fixture.epp = Returns (proof, None) s' /\
    proof = leaf_proof ++ [length_sibling] ++ top_level_proof.
Proof.
  match goal with
  | |- exists proof s' _ _ _, ?run = _ /\ _ =>
      assert (exists proof s', run = Returns (proof, None) s') as (proof & s' & E)
        by (vm_compute; eexists _, _; reflexivity)
  end.
  exists proof, s'.
  destruct (proj1 (ProveValidatorAgainstBeaconState_leaf_first _ _ _ _ _ _ _) E)
    as (leaf & c & top & _ & _ & _ & _ & Hproof).
  exists leaf, c, top. split; [exact E | exact Hproof].
Defined.

(* ================================================================== *)
(** ** Little-endian chunks *)

Lemma byte_to_N_of_N (n : N) : Byte.to_N (byte_of_N n) = (n mod 256)%N.
Proof.
  unfold byte_of_N. destruct (Byte.of_N (n mod 256)) as [b|] eqn:E.
  - apply Byte.to_of_N in E. exact E.
  - apply Byte.of_N_None_iff in E.
    pose proof (N.mod_upper_bound n 256). lia.
Qed.

Lemma length_le_bytes (k : nat) (n : N) : length (le_bytes k n) = k.
Proof. revert n. induction k as [|k IH]; intros n; simpl; [|rewrite IH]; reflexivity. Qed.

Lemma le_decode_le_bytes (k : nat) (n : N) :
  le_decode (le_bytes k n) = (n mod 256 ^ N.of_nat k)%N.
Proof.
  revert n. induction k as [|k IH]; intros n.
  - simpl. rewrite N.mod_1_r. reflexivity.
  - cbn [le_bytes le_decode]. rewrite byte_to_N_of_N, IH.
    rewrite Nat2N.inj_succ, N.pow_succ_r'.
    rewrite N.Div0.mod_mul_r. reflexivity.
Qed.

Lemma le_bytes_zero (j : nat) : le_bytes j 0 = zero_bytes j.
Proof.
  induction j as [|j IH]; [reflexivity|].
  cbn [le_bytes]. change (0 / 256)%N with 0%N. rewrite IH. reflexivity.
Qed.

Lemma le_bytes_small (k j : nat) (n : N) :
  (n < 256 ^ N.of_nat k)%N -> le_bytes (k + j) n = le_bytes k n ++ zero_bytes j.
Proof.
  revert n. induction k as [|k IH]; intros n Hn.
  - simpl in Hn. assert (n = 0%N) as -> by lia. apply le_bytes_zero.
  - cbn [Nat.add le_bytes app]. f_equal. apply IH.
    rewrite Nat2N.inj_succ, N.pow_succ_r' in Hn.
    apply N.Div0.div_lt_upper_bound. exact Hn.
Qed.

Lemma take_le_bytes (k j : nat) (n : N) : take k (le_bytes (k + j) n) = le_bytes k n.
Proof.
  revert n. induction k as [|k IH]; intros n; [reflexivity|].
  cbn [Nat.add le_bytes take]. rewrite IH. reflexivity.
Qed.

Lemma int64_small (x : Z) : (- 2 ^ 63 <= x < 2 ^ 63)%Z -> int64 x = x.
Proof. intros Hx. unfold int64. rewrite Z.mod_small; lia. Qed.

(** The chunk [BigToLittleEndian] makes of a [uint64] is [pack_u64_le] of it
    and spells it in little-endian order. *)
Lemma length_chunk_of_u64 (n : Z) :
  (0 <= n < 2 ^ 64)%Z ->
  le_bytes 32 (Z.to_N n) = SSZ.pack_u64_le n /\
  length (le_bytes 32 (Z.to_N n)) = 32%nat /\
  Z.of_N (le_decode (le_bytes 32 (Z.to_N n))) = n /\
  decode_u64_le (le_bytes 32 (Z.to_N n)) = n.
Proof.
  intros Hn.
  assert (Z.to_N n < 256 ^ N.of_nat 8)%N as H8.
  { change (256 ^ N.of_nat 8)%N with (Z.to_N (2 ^ 64)). lia. }
  split_and!.
  - unfold SSZ.pack_u64_le. exact (le_bytes_small 8 24 _ H8).
  - apply length_le_bytes.
  - rewrite le_decode_le_bytes, N.mod_small; [lia|].
    eapply N.lt_trans; [exact H8|]. reflexivity.
  - unfold decode_u64_le. rewrite (take_le_bytes 8 24).
    rewrite le_decode_le_bytes, N.mod_small; [lia | exact H8].
Qed.

Section LengthSibling.
Context {EPP : Type} `{!ProverDeps EPP}.

(** C2.  The chunk that [ProveValidatorAgainstValidatorList] appends after
    the leaf authentication path is 32 bytes long and spells, in
    little-endian order, the number of elements of the validator list. *)
Theorem ProveValidatorAgainstValidatorList_length_chunk
    slot vals idx (s : EPP) proof s' :
  (len vals < 2 ^ 63)%Z ->
  ProveValidatorAgainstValidatorList slot vals idx s = Returns (proof, None) s' ->
  exists tree leaf_proof chunk,
    ComputeValidatorTree slot vals s = Returns (tree, None) s' /\
    ComputeMerkleProofFromTree tree idx ValidatorListMerkleSubtreeNumLayers
      = (leaf_proof, None) /\
    proof = leaf_proof ++ [chunk] /\
    last proof = Some chunk /\
    length chunk = 32%nat /\
    Z.of_N (le_decode chunk) = len vals /\
    chunk = SSZ.pack_u64_le (len vals).
Proof.
  intros Hlen Hrun.
  apply ProveValidatorAgainstValidatorList_returns in Hrun
    as (tree & leaf & chunk & Htree & Hleaf & Hchunk & ->).
  apply BigToLittleEndian_returns in Hchunk as (_ & -> & _).
  assert (0 <= len vals)%Z as Hpos by (unfold len; lia).
  rewrite int64_small by lia.
  destruct (length_chunk_of_u64 (len vals)) as (Hpack & Hl & Hdec & _); [lia|].
  exists tree, leaf, (le_bytes 32 (Z.to_N (len vals))).
  split_and!; auto. apply last_snoc.
Qed.

End LengthSibling.

Lemma ProveValidatorAgainstValidatorList_length_chunk_witness :
  exists proof s' leaf_proof,
    ProveValidatorAgainstValidatorList 100 [Fixture.v0; Fixture.v1] 1 Fixture.epp
      = Returns (proof, None) s' /\
    proof = leaf_proof ++ [SSZ.pack_u64_le 2].
Proof.
  match goal with
  | |- exists proof s' _, ?run = _ /\ _ =>
      assert (exists proof s', run = Returns (proof, None) s') as (proof & s' & E)
        by (vm_compute; eexists _, _; reflexivity)
  end.
  exists proof, s'.
  destruct (ProveValidatorAgainstValidatorList_length_chunk
              100 [Fixture.v0; Fixture.v1] 1 Fixture.epp proof s')
    as (tree & leaf & chunk & _ & _ & Hproof & _ & _ & _ & Hchunk).
  - reflexivity.
  - exact E.
  - exists leaf. split; [exact E|]. rewrite Hproof, Hchunk. reflexivity.
Defined.

(* ================================================================== *)
(** ** The public-key hash of the on-chain lookup *)

(** The key under which the contract is asked for a validator. *)
Definition pubkey_hash_of (v : Validator) : Bytes32 :=
  SHA256.Sum256 (PublicKey v ++ zero_bytes 16).

(** The keys of the entries of a list that point to a validator. *)
Definition keys_of (ws : list CLI.ValidatorWithIndex) : list Bytes32 :=
  omap (fun w => pubkey_hash_of <$> CLI.Validator_ w) ws.

(** What the contract [view] answers for the validator an entry points to. *)
Definition lookup_of (view : string -> Bytes32 -> CLI.IEigenPodValidatorInfo * error)
    (address : string) (w : CLI.ValidatorWithIndex)
    : option (CLI.IEigenPodValidatorInfo * error) :=
  view address <$> (pubkey_hash_of <$> CLI.Validator_ w).

(** The entry points to a validator, and the contract answers for it without
    error. *)
Definition lookup_ok (view : string -> Bytes32 -> CLI.IEigenPodValidatorInfo * error)
    (address : string) (w : CLI.ValidatorWithIndex) : Prop :=
  match lookup_of view address w with
  | Some (_, None) => True
  | _ => False
  end.

Definition info_of (view : string -> Bytes32 -> CLI.IEigenPodValidatorInfo * error)
    (address : string) (w : CLI.ValidatorWithIndex)
    : option CLI.IEigenPodValidatorInfo :=
  fst <$> lookup_of view address w.

#[global] Instance lookup_ok_dec view address w : Decision (lookup_ok view address w).
Proof.
  unfold lookup_ok. destruct (lookup_of view address w) as [[info [e|]]|]; apply _.
Defined.

Lemma lookup_ok_inv view address w :
  lookup_ok view address w ->
  exists v info,
    CLI.Validator_ w = Some v /\ view address (pubkey_hash_of v) = (info, None) /\
    info_of view address w = Some info.
Proof.
  unfold lookup_ok, info_of, lookup_of.
  destruct (CLI.Validator_ w) as [v|]; cbn; [|tauto].
  destruct (view address (pubkey_hash_of v)) as [info [e|]] eqn:Hq; [tauto|].
  intros _. exists v, info. rewrite Hq. auto.
Qed.

Lemma Forall_first_failure {A} (P : A -> Prop) `{!forall x, Decision (P x)} (l : list A) :
  ~ Forall P l ->
  exists pre x post, l = pre ++ x :: post /\ Forall P pre /\ ~ P x.
Proof.
  induction l as [|x l IH]; intros Hnot; [destruct Hnot; constructor|].
  destruct (decide (P x)) as [Hx|Hx].
  - destruct IH as (pre & y & post & -> & Hpre & Hy).
    { intros Hl. apply Hnot. constructor; assumption. }
    exists (x :: pre), y, post. split_and!; [reflexivity | constructor; assumption | exact Hy].
  - exists [], x, l. split_and!; [reflexivity | constructor | exact Hx].
Qed.

Lemma keys_of_app ws1 ws2 : keys_of (ws1 ++ ws2) = keys_of ws1 ++ keys_of ws2.
Proof. apply omap_app. Qed.

Lemma lookups_ok_total view address ws :
  Forall (lookup_ok view address) ws ->
  length (keys_of ws) = length ws /\
  info_of view address <$> ws = Some <$> omap (info_of view address) ws /\
  Forall (fun w => CLI.Validator_ w <> None) ws.
Proof.
  induction 1 as [|w ws Hw _ (IHk & IHi & IHn)]; [split_and!; [reflexivity..|constructor]|].
  apply lookup_ok_inv in Hw as (v & info & Hv & _ & Hinfo).
  unfold keys_of in *. cbn [omap list_omap fmap list_fmap]. rewrite Hv, Hinfo. cbn.
  rewrite IHk. split_and!; [reflexivity | f_equal; exact IHi |].
  constructor; [rewrite Hv; discriminate | exact IHn].
Qed.

Section OnchainFacts.
Variable NewEigenPod : string -> error.
Variable validatorPubkeyHashToInfo :
  string -> Bytes32 -> CLI.IEigenPodValidatorInfo * error.

Lemma GetOnchainValidatorInfo_loop_ok address rest :
  forall acc log,
    Forall (lookup_ok validatorPubkeyHashToInfo address) rest ->
    CLI.GetOnchainValidatorInfo_loop validatorPubkeyHashToInfo address rest acc log
    = Returns (acc ++ omap (info_of validatorPubkeyHashToInfo address) rest, None)
        (log ++ keys_of rest).
Proof.
  induction rest as [|w rest IH]; intros acc log Hok.
  - cbn. rewrite !app_nil_r. reflexivity.
  - apply Forall_cons in Hok as [Hw Hok].
    apply lookup_ok_inv in Hw as (v & info & Hv & Hq & Hinfo).
    cbn [CLI.GetOnchainValidatorInfo_loop]. rewrite Hv. cbn [deref].
    rewrite go_bind_unfold. unfold go_ret at 1. rewrite go_bind_unfold.
    unfold CLI.ValidatorPubkeyHashToInfo at 1.
    change (SHA256.Sum256 (PublicKey v ++ CLI.zeroes)) with (pubkey_hash_of v).
    rewrite Hq, IH by exact Hok.
    unfold keys_of. cbn [omap list_omap]. rewrite Hv, Hinfo. cbn [fmap option_fmap option_map].
    rewrite <- !(assoc_L (++)). reflexivity.
Qed.

Lemma GetOnchainValidatorInfo_loop_failure address pre w post info e acc log :
  Forall (lookup_ok validatorPubkeyHashToInfo address) pre ->
  lookup_of validatorPubkeyHashToInfo address w = Some (info, Some e) ->
  CLI.GetOnchainValidatorInfo_loop validatorPubkeyHashToInfo address
    (pre ++ w :: post) acc log
  = Returns ([], Some (Errorf "failed to fetch validator eigeninfo" e))
      (log ++ keys_of (pre ++ [w])).
Proof.
  revert acc log. induction pre as [|x pre IH]; intros acc log Hok Hw.
  - unfold lookup_of in Hw.
    destruct (CLI.Validator_ w) as [v|] eqn:Hv; [|discriminate]. cbn in Hw.
    injection Hw as Hw.
    cbn [app CLI.GetOnchainValidatorInfo_loop]. rewrite Hv. cbn [deref].
    rewrite go_bind_unfold. unfold go_ret at 1. rewrite go_bind_unfold.
    unfold CLI.ValidatorPubkeyHashToInfo at 1.
    change (SHA256.Sum256 (PublicKey v ++ CLI.zeroes)) with (pubkey_hash_of v).
    rewrite Hw. unfold keys_of. cbn [omap list_omap]. rewrite Hv. reflexivity.
  - apply Forall_cons in Hok as [Hx Hok].
    apply lookup_ok_inv in Hx as (v & info' & Hv & Hq & Hinfo).
    cbn [app CLI.GetOnchainValidatorInfo_loop]. rewrite Hv. cbn [deref].
    rewrite go_bind_unfold. unfold go_ret at 1. rewrite go_bind_unfold.
    unfold CLI.ValidatorPubkeyHashToInfo at 1.
    change (SHA256.Sum256 (PublicKey v ++ CLI.zeroes)) with (pubkey_hash_of v).
    rewrite Hq, IH by assumption.
    unfold keys_of. cbn [omap list_omap app]. rewrite Hv. cbn [fmap option_fmap option_map].
    rewrite <- !(assoc_L (++)). reflexivity.
Qed.

Lemma GetOnchainValidatorInfo_loop_nil address pre w post acc log :
  Forall (lookup_ok validatorPubkeyHashToInfo address) pre ->
  CLI.Validator_ w = None ->
  CLI.GetOnchainValidatorInfo_loop validatorPubkeyHashToInfo address
    (pre ++ w :: post) acc log
  = Panics NilDereference (log ++ keys_of pre).
Proof.
  revert acc log. induction pre as [|x pre IH]; intros acc log Hok Hw.
  - cbn [app CLI.GetOnchainValidatorInfo_loop]. rewrite Hw. cbn. rewrite app_nil_r.
    reflexivity.
  - apply Forall_cons in Hok as [Hx Hok].
    apply lookup_ok_inv in Hx as (v & info' & Hv & Hq & Hinfo).
    cbn [app CLI.GetOnchainValidatorInfo_loop]. rewrite Hv. cbn [deref].
    rewrite go_bind_unfold. unfold go_ret at 1. rewrite go_bind_unfold.
    unfold CLI.ValidatorPubkeyHashToInfo at 1.
    change (SHA256.Sum256 (PublicKey v ++ CLI.zeroes)) with (pubkey_hash_of v).
    rewrite Hq, IH by assumption.
    unfold keys_of. cbn [omap list_omap app]. rewrite Hv. cbn [fmap option_fmap option_map].
    rewrite <- !(assoc_L (++)). reflexivity.
Qed.

(** An entry whose lookup does not succeed is a [nil] pointer or one for
    which the contract answers with an error. *)
Lemma lookup_not_ok address w :
  ~ lookup_ok validatorPubkeyHashToInfo address w ->
  CLI.Validator_ w = None \/
  exists info e, lookup_of validatorPubkeyHashToInfo address w = Some (info, Some e).
Proof.
  unfold lookup_ok, lookup_of. destruct (CLI.Validator_ w) as [v|]; [|auto].
  cbn. destruct (validatorPubkeyHashToInfo address (pubkey_hash_of v)) as [info [e|]];
    [eauto | tauto].
Qed.

Lemma GetOnchainValidatorInfo_ok address allValidators log :
  NewEigenPod address = None ->
  Forall (lookup_ok validatorPubkeyHashToInfo address) allValidators ->
  CLI.GetOnchainValidatorInfo NewEigenPod validatorPubkeyHashToInfo
    address allValidators log
  = Returns (omap (info_of validatorPubkeyHashToInfo address) allValidators, None)
      (log ++ keys_of allValidators).
Proof.
  intros Hbind Hok. unfold CLI.GetOnchainValidatorInfo. rewrite Hbind.
  rewrite GetOnchainValidatorInfo_loop_ok by exact Hok. reflexivity.
Qed.

Lemma GetOnchainValidatorInfo_returns address allValidators log validatorInfo log' :
  CLI.GetOnchainValidatorInfo NewEigenPod validatorPubkeyHashToInfo
    address allValidators log = Returns (validatorInfo, None) log' ->
  NewEigenPod address = None /\
  Forall (lookup_ok validatorPubkeyHashToInfo address) allValidators /\
  validatorInfo = omap (info_of validatorPubkeyHashToInfo address) allValidators /\
  log' = log ++ keys_of allValidators.
Proof.
  unfold CLI.GetOnchainValidatorInfo.
  destruct (NewEigenPod address) as [e|]; [rewrite go_ret_unfold; discriminate|].
  destruct (decide (Forall (lookup_ok validatorPubkeyHashToInfo address) allValidators))
    as [Hok|Hnot].
  - rewrite GetOnchainValidatorInfo_loop_ok by exact Hok. cbn [app].
    intros [= <- <-]. auto.
  - destruct (Forall_first_failure (lookup_ok validatorPubkeyHashToInfo address)
                allValidators Hnot) as (pre & w & post & -> & Hpre & Hw).
    apply lookup_not_ok in Hw as [Hnil|(info & e & Hw)].
    + rewrite (GetOnchainValidatorInfo_loop_nil address pre w post) by assumption.
      discriminate.
    + rewrite (GetOnchainValidatorInfo_loop_failure address pre w post info e)
        by assumption.
      discriminate.
Qed.

(** C3.  The key under which [GetOnchainValidatorInfo] looks a validator up
    on chain is the SHA-256 of its 48-byte public key followed by the 16
    zero bytes of [zeroes], a 64-byte preimage, which is the hash of the pair
    of chunks of the SSZ [Vector[byte, 48]].  Once the binding to the pod is
    made, these keys are looked up one by one in the order of the
    validators: all of them when every lookup is answered, and else up to
    the first that the contract answers with an error, or up to the first
    [nil] validator, at which the call panics.  Without a binding nothing is
    looked up. *)
Theorem GetOnchainValidatorInfo_pubkey_hash addr vals log :
  Forall (fun w => forall v, CLI.Validator_ w = Some v -> length (PublicKey v) = 48%nat)
    vals ->
  (CLI.zeroes = zero_bytes 16 /\
   Forall (fun w => forall v, CLI.Validator_ w = Some v ->
             let pk := PublicKey v in
             pubkey_hash_of v = SHA256.Sum256 (pk ++ CLI.zeroes) /\
             length (pk ++ CLI.zeroes) = 64%nat /\
             length (take 32 pk) = 32%nat /\
             length (drop 32 pk ++ CLI.zeroes) = 32%nat /\
             SHA256.Sum256 (pk ++ CLI.zeroes)
               = SSZ.hash_pair (take 32 pk) (drop 32 pk ++ CLI.zeroes)) vals) /\
  (NewEigenPod addr = None ->
   Forall (lookup_ok validatorPubkeyHashToInfo addr) vals ->
   CLI.GetOnchainValidatorInfo NewEigenPod validatorPubkeyHashToInfo addr vals log
     = Returns (omap (info_of validatorPubkeyHashToInfo addr) vals, None)
         (log ++ keys_of vals) /\
   Some <$> keys_of vals = (fun w => pubkey_hash_of <$> CLI.Validator_ w) <$> vals) /\
  (forall pre w post info e,
      NewEigenPod addr = None ->
      vals = pre ++ w :: post ->
      Forall (lookup_ok validatorPubkeyHashToInfo addr) pre ->
      lookup_of validatorPubkeyHashToInfo addr w = Some (info, Some e) ->
      CLI.GetOnchainValidatorInfo NewEigenPod validatorPubkeyHashToInfo addr vals log
      = Returns ([], Some (Errorf "failed to fetch validator eigeninfo" e))
          (log ++ keys_of (pre ++ [w]))) /\
  (forall pre w post,
      NewEigenPod addr = None ->
      vals = pre ++ w :: post ->
      Forall (lookup_ok validatorPubkeyHashToInfo addr) pre ->
      CLI.Validator_ w = None ->
      CLI.GetOnchainValidatorInfo NewEigenPod validatorPubkeyHashToInfo addr vals log
      = Panics NilDereference (log ++ keys_of pre)) /\
  (forall e,
      NewEigenPod addr = Some e ->
      CLI.GetOnchainValidatorInfo NewEigenPod validatorPubkeyHashToInfo addr vals log
      = Returns ([], Some (Errorf "failed to locate Eigenpod. Is your address correct?" e))
          log).
Proof.
  intros Hkeys. split_and!.
  - reflexivity.
  - eapply Forall_impl; [exact Hkeys|]. intros w Hw v Hv. cbn zeta.
    specialize (Hw v Hv).
    change CLI.zeroes with (zero_bytes 16).
    unfold zero_bytes, SSZ.hash_pair.
    rewrite !length_app, length_take, length_drop, length_replicate, Hw.
    split_and!; [reflexivity..|].
    rewrite (assoc_L (++)), take_drop. reflexivity.
  - intros Hbind Hok. split; [apply GetOnchainValidatorInfo_ok; assumption|].
    clear Hkeys. induction Hok as [|w ws Hw _ IH]; [reflexivity|].
    apply lookup_ok_inv in Hw as (v & _ & Hv & _).
    unfold keys_of in *. cbn [omap list_omap fmap list_fmap]. rewrite Hv. cbn.
    f_equal. exact IH.
  - intros pre w post info e Hbind -> Hpre Hw.
    unfold CLI.GetOnchainValidatorInfo. rewrite Hbind.
    apply (GetOnchainValidatorInfo_loop_failure addr pre w post info e); assumption.
  - intros pre w post Hbind -> Hpre Hw.
    unfold CLI.GetOnchainValidatorInfo. rewrite Hbind.
    apply GetOnchainValidatorInfo_loop_nil; assumption.
  - intros e Hbind. unfold CLI.GetOnchainValidatorInfo. rewrite Hbind. reflexivity.
Qed.

End OnchainFacts.

Lemma GetOnchainValidatorInfo_pubkey_hash_witness :
  CLI.GetOnchainValidatorInfo Fixture.pod_binding Fixture.pod_view "0xpod"
    Fixture.pod_validators []
  = Returns (omap (info_of Fixture.pod_view "0xpod") Fixture.pod_validators, None)
      [ SHA256.Sum256 (PublicKey Fixture.v0 ++ zero_bytes 16);
        SHA256.Sum256 (PublicKey Fixture.v1 ++ zero_bytes 16) ].
Proof.
  assert (Forall (fun w => forall v, CLI.Validator_ w = Some v ->
                                     length (PublicKey v) = 48%nat)
            Fixture.pod_validators) as Hkeys
    by (repeat constructor; intros v [= <-]; reflexivity).
  destruct (GetOnchainValidatorInfo_pubkey_hash Fixture.pod_binding Fixture.pod_view
              "0xpod" Fixture.pod_validators [] Hkeys) as (_ & Hall & _).
  apply Hall; [reflexivity|]. repeat constructor.
Defined.

(* ================================================================== *)
(** ** Selecting the validators that await a credential proof *)

(** What [IsAwaitingWithdrawalCredentialProof] returns for an info and the
    validator an entry points to; no [nil] entry awaits a proof. *)
Definition awaits_credential_proof
    (info : CLI.IEigenPodValidatorInfo) (w : CLI.ValidatorWithIndex) : bool :=
  match CLI.Validator_ w with
  | Some v =>
      (CLI.info_Status info =? CLI.ValidatorStatusInactive)%Z
      && (ExitEpoch v =? CLI.FAR_FUTURE_EPOCH)%Z
      && negb (ActivationEpoch v =? CLI.FAR_FUTURE_EPOCH)%Z
  | None => false
  end.

(** The validators of [vals] whose on-chain info, at the same position of
    [infos], satisfies [IsAwaitingWithdrawalCredentialProof], in the order
    of [vals]. *)
Definition awaiting_credential_proof
    (vals : list CLI.ValidatorWithIndex) (infos : list CLI.IEigenPodValidatorInfo)
    : list CLI.ValidatorWithIndex :=
  (List.filter (fun p => awaits_credential_proof p.2 p.1) (zip vals infos)).*1.

Lemma awaiting_credential_condition_spec {S} info w v (s : S) :
  CLI.Validator_ w = Some v ->
  CLI.awaiting_credential_condition info w s
  = Returns (awaits_credential_proof info w) s.
Proof.
  intros Hv. unfold CLI.awaiting_credential_condition, awaits_credential_proof.
  rewrite Hv. destruct (CLI.info_Status info =? CLI.ValidatorStatusInactive)%Z;
    reflexivity.
Qed.

Lemma slice_index_app {St A} (pre : list A) (x : A) (post : list A) (s : St) :
  slice_index (pre ++ x :: post) (len pre) s = Returns x s.
Proof.
  unfold slice_index, len.
  rewrite length_app. cbn [length].
  destruct (Z.leb_spec 0 (Z.of_nat (length pre))); [|lia].
  destruct (Z.ltb_spec (Z.of_nat (length pre))
              (Z.of_nat (length pre + S (length post)))); [|lia].
  cbn [andb]. rewrite Nat2Z.id.
  rewrite lookup_app_r by lia. rewrite Nat.sub_diag. reflexivity.
Qed.

Lemma SelectAwaitingCredentialValidators_loop_spec
    (pre infos_rest : list CLI.IEigenPodValidatorInfo) rest acc (log : list Bytes32) :
  length infos_rest = length rest ->
  Forall (fun w => CLI.Validator_ w <> None) rest ->
  CLI.SelectAwaitingCredentialValidators_loop (pre ++ infos_rest) (len pre) rest acc log
  = Returns (acc ++ awaiting_credential_proof rest infos_rest, None) log.
Proof.
  revert pre infos_rest acc.
  induction rest as [|w rest IH]; intros pre infos_rest acc Hlen Hnn.
  - simpl. unfold awaiting_credential_proof.
    destruct infos_rest; [|discriminate]. simpl. rewrite app_nil_r. reflexivity.
  - destruct infos_rest as [|info infos_rest]; [discriminate|].
    injection Hlen as Hlen. apply Forall_cons in Hnn as [Hw Hnn].
    destruct (CLI.Validator_ w) as [v|] eqn:Hv; [|done].
    cbn [CLI.SelectAwaitingCredentialValidators_loop].
    rewrite go_bind_unfold, slice_index_app, go_bind_unfold.
    rewrite (awaiting_credential_condition_spec info w v) by exact Hv.
    replace (len pre + 1)%Z with (len (pre ++ [info]))
      by (unfold len; rewrite length_app; simpl; lia).
    replace (pre ++ info :: infos_rest) with ((pre ++ [info]) ++ infos_rest)
      by (rewrite <- (assoc_L (++)); reflexivity).
    rewrite IH by assumption.
    unfold awaiting_credential_proof. cbn [zip zip_with List.filter fst snd].
    destruct (awaits_credential_proof info w).
    + cbn [fmap list_fmap fst]. rewrite <- (assoc_L (++)). reflexivity.
    + reflexivity.
Qed.

Section SelectFacts.
Variable NewEigenPod : string -> error.
Variable validatorPubkeyHashToInfo :
  string -> Bytes32 -> CLI.IEigenPodValidatorInfo * error.

(** C9.  Once the on-chain infos of the validators have been fetched,
    [SelectAwaitingCredentialValidators] returns exactly the validators whose
    pair with their info satisfies [IsAwaitingWithdrawalCredentialProof], in
    input order; the condition of its loop and that predicate are the same
    function of the info and the pointer, which returns, for a pointer that
    is not [nil], whether the status is inactive, the exit epoch is
    [FAR_FUTURE_EPOCH] and the activation epoch is not. *)
Theorem SelectAwaitingCredentialValidators_filter addr vals log infos log' :
  CLI.GetOnchainValidatorInfo NewEigenPod validatorPubkeyHashToInfo addr vals log
    = Returns (infos, None) log' ->
  length infos = length vals /\
  CLI.SelectAwaitingCredentialValidators NewEigenPod validatorPubkeyHashToInfo
    addr vals log
    = Returns (awaiting_credential_proof vals infos, None) log' /\
  (forall v, v ∈ awaiting_credential_proof vals infos -> v ∈ vals) /\
  (forall info w (s : list Bytes32),
      CLI.awaiting_credential_condition info w s
      = CLI.IsAwaitingWithdrawalCredentialProof info (CLI.Validator_ w) s) /\
  (forall info w v (s : list Bytes32),
      CLI.Validator_ w = Some v ->
      CLI.IsAwaitingWithdrawalCredentialProof info (CLI.Validator_ w) s
      = Returns (awaits_credential_proof info w) s /\
      (awaits_credential_proof info w = true <->
       CLI.info_Status info = CLI.ValidatorStatusInactive /\
       ExitEpoch v = CLI.FAR_FUTURE_EPOCH /\
       ActivationEpoch v <> CLI.FAR_FUTURE_EPOCH)).
Proof.
  intros Hinfos.
  pose proof (GetOnchainValidatorInfo_returns _ _ _ _ _ _ _ Hinfos)
    as (_ & Hok & Hi & _).
  apply lookups_ok_total in Hok as (_ & Htotal & Hnn).
  assert (length infos = length vals) as Hlen.
  { apply (f_equal length) in Htotal. rewrite !length_fmap in Htotal.
    rewrite Hi. symmetry. exact Htotal. }
  split_and!.
  - exact Hlen.
  - unfold CLI.SelectAwaitingCredentialValidators.
    rewrite go_bind_unfold, Hinfos. cbn [nonnil].
    exact (SelectAwaitingCredentialValidators_loop_spec [] infos vals [] log' Hlen Hnn).
  - intros v Hv. unfold awaiting_credential_proof in Hv.
    apply list_elem_of_fmap in Hv as ([v' info] & -> & Hin).
    apply list_elem_of_In, filter_In in Hin as [Hin _].
    apply list_elem_of_In in Hin. apply elem_of_zip_l in Hin. exact Hin.
  - intros info w s. reflexivity.
  - intros info w v s Hv. split.
    + exact (awaiting_credential_condition_spec info w v s Hv).
    + unfold awaits_credential_proof. rewrite Hv.
      rewrite !andb_true_iff, negb_true_iff, !Z.eqb_eq, Z.eqb_neq. tauto.
Qed.

End SelectFacts.

Lemma SelectAwaitingCredentialValidators_filter_witness :
  exists infos log',
    CLI.GetOnchainValidatorInfo Fixture.pod_binding Fixture.pod_view "0xpod"
      Fixture.pod_validators [] = Returns (infos, None) log' /\
    CLI.SelectAwaitingCredentialValidators Fixture.pod_binding Fixture.pod_view "0xpod"
      Fixture.pod_validators []
      = Returns (awaiting_credential_proof Fixture.pod_validators infos, None) log'.
Proof.
  match goal with
  | |- exists infos log', ?run = _ /\ _ =>
      assert (exists infos log', run = Returns (infos, None) log') as (infos & log' & E)
        by (vm_compute; eexists _, _; reflexivity)
  end.
  exists infos, log'. split; [exact E|].
  exact (proj1 (proj2 (SelectAwaitingCredentialValidators_filter _ _ _ _ _ _ _ E))).
Defined.

(* ================================================================== *)
(** ** Sorting the validators by status *)

Definition awaiting_queue (v : CLI.Validator) : Prop :=
  CLI.Status v = CLI.ValidatorStatusInactive /\ CLI.IsAwaitingActivationQueue v = true.
Definition plain_inactive (v : CLI.Validator) : Prop :=
  CLI.Status v = CLI.ValidatorStatusInactive /\ CLI.IsAwaitingActivationQueue v = false.
Definition is_active (v : CLI.Validator) : Prop :=
  CLI.Status v = CLI.ValidatorStatusActive.
Definition is_withdrawn (v : CLI.Validator) : Prop :=
  CLI.Status v = CLI.ValidatorStatusWithdrawn.
Definition known_status (v : CLI.Validator) : Prop :=
  CLI.Status v = CLI.ValidatorStatusInactive
  \/ CLI.Status v = CLI.ValidatorStatusActive
  \/ CLI.Status v = CLI.ValidatorStatusWithdrawn.

#[global] Instance awaiting_queue_dec v : Decision (awaiting_queue v).
Proof. unfold awaiting_queue. apply _. Defined.
#[global] Instance plain_inactive_dec v : Decision (plain_inactive v).
Proof. unfold plain_inactive. apply _. Defined.
#[global] Instance is_active_dec v : Decision (is_active v).
Proof. unfold is_active. apply _. Defined.
#[global] Instance is_withdrawn_dec v : Decision (is_withdrawn v).
Proof. unfold is_withdrawn. apply _. Defined.
#[global] Instance known_status_dec v : Decision (known_status v).
Proof. unfold known_status. apply _. Defined.

Definition ascending_Index : list CLI.Validator -> Prop :=
  StronglySorted (fun a b => (CLI.Index a <= CLI.Index b)%Z).

Ltac status_cases v :=
  repeat case_decide;
  unfold awaiting_queue, plain_inactive, is_active, is_withdrawn, known_status,
    CLI.ValidatorStatusInactive, CLI.ValidatorStatusActive,
    CLI.ValidatorStatusWithdrawn in *;
  repeat match goal with
         | |- context [Z.eqb ?a ?b] => destruct (Z.eqb_spec a b)
         end;
  destruct (CLI.IsAwaitingActivationQueue v) eqn:?;
  try solve [ exfalso; intuition (congruence || lia) ].

Lemma SortByStatus_step_spec acc (e : string * CLI.Validator) :
  let v := e.2 in
  CLI.SortByStatus_step acc e =
  {| CLI.awaitingActivationQueueValidators :=
       CLI.awaitingActivationQueueValidators acc ++ filter awaiting_queue [v];
     CLI.inactiveValidators := CLI.inactiveValidators acc ++ filter plain_inactive [v];
     CLI.activeValidators := CLI.activeValidators acc ++ filter is_active [v];
     CLI.withdrawnValidators := CLI.withdrawnValidators acc ++ filter is_withdrawn [v] |}.
Proof.
  destruct e as [k v]. destruct acc as [a i c w]. cbn [snd].
  unfold CLI.SortByStatus_step. cbn [snd CLI.awaitingActivationQueueValidators
    CLI.inactiveValidators CLI.activeValidators CLI.withdrawnValidators].
  rewrite !filter_cons, !filter_nil.
  status_cases v; rewrite ?app_nil_r; reflexivity.
Qed.

Lemma SortByStatus_fold_spec (l : list (string * CLI.Validator)) acc :
  fold_left CLI.SortByStatus_step l acc =
  {| CLI.awaitingActivationQueueValidators :=
       CLI.awaitingActivationQueueValidators acc ++ filter awaiting_queue l.*2;
     CLI.inactiveValidators := CLI.inactiveValidators acc ++ filter plain_inactive l.*2;
     CLI.activeValidators := CLI.activeValidators acc ++ filter is_active l.*2;
     CLI.withdrawnValidators := CLI.withdrawnValidators acc ++ filter is_withdrawn l.*2 |}.
Proof.
  revert acc. induction l as [|e l IH]; intros acc.
  - destruct acc. simpl. rewrite !app_nil_r. reflexivity.
  - cbn [fold_left]. rewrite IH, SortByStatus_step_spec. cbn zeta.
    cbn [CLI.awaitingActivationQueueValidators CLI.inactiveValidators
           CLI.activeValidators CLI.withdrawnValidators fmap list_fmap].
    rewrite <- !(assoc_L (++)), <- !filter_app. reflexivity.
Qed.

Lemma filter_by_status (l : list CLI.Validator) :
  filter awaiting_queue l ++ filter plain_inactive l
    ++ filter is_active l ++ filter is_withdrawn l
  ≡ₚ filter known_status l.
Proof.
  induction l as [|v l IH]; [reflexivity|].
  rewrite !filter_cons.
  status_cases v; cbn [app]; repeat rewrite <- Permutation_middle;
    first [ exact IH | apply perm_skip; exact IH ].
Qed.

Section SortingFacts.
Variable range_order : gmap string CLI.Validator -> list (string * CLI.Validator).
Hypothesis range_order_perm : forall m, range_order m ≡ₚ map_to_list m.
Variable sort_Slice :
  (CLI.Validator -> CLI.Validator -> bool) -> list CLI.Validator -> list CLI.Validator.
Hypothesis sort_Slice_perm : forall less l, sort_Slice less l ≡ₚ l.
Hypothesis sort_Slice_sorted : forall (key : CLI.Validator -> Z) l,
  StronglySorted (fun a b => (key a <= key b)%Z)
    (sort_Slice (fun a b => (key a <? key b)%Z) l).

(** C10.  [SortByStatus] partitions the validators of the map whose status
    is inactive, active or withdrawn over its four results, drops the
    others, sorts three of the results by ascending index and leaves the
    awaiting-activation-queue result in the order the map was visited. *)
Theorem SortByStatus_partition (validators : gmap string CLI.Validator) :
  let r := CLI.SortByStatus range_order sort_Slice validators in
  let all := (map_to_list validators).*2 in
  CLI.awaitingActivationQueueValidators r
    = filter awaiting_queue (range_order validators).*2 /\
  CLI.awaitingActivationQueueValidators r ≡ₚ filter awaiting_queue all /\
  CLI.inactiveValidators r ≡ₚ filter plain_inactive all /\
  CLI.activeValidators r ≡ₚ filter is_active all /\
  CLI.withdrawnValidators r ≡ₚ filter is_withdrawn all /\
  CLI.awaitingActivationQueueValidators r ++ CLI.inactiveValidators r
    ++ CLI.activeValidators r ++ CLI.withdrawnValidators r
    ≡ₚ filter known_status all /\
  ascending_Index (CLI.inactiveValidators r) /\
  ascending_Index (CLI.activeValidators r) /\
  ascending_Index (CLI.withdrawnValidators r) /\
  (forall v,
      (awaiting_queue v -> ~ plain_inactive v /\ ~ is_active v /\ ~ is_withdrawn v) /\
      (plain_inactive v -> ~ is_active v /\ ~ is_withdrawn v) /\
      (is_active v -> ~ is_withdrawn v)).
Proof.
  intros r all.
  assert ((range_order validators).*2 ≡ₚ all) as Hall
    by (unfold all; rewrite range_order_perm; reflexivity).
  unfold r, CLI.SortByStatus. rewrite SortByStatus_fold_spec.
  cbn [CLI.awaitingActivationQueueValidators CLI.inactiveValidators
         CLI.activeValidators CLI.withdrawnValidators app].
  split_and!.
  - reflexivity.
  - rewrite Hall. reflexivity.
  - rewrite sort_Slice_perm, Hall. reflexivity.
  - rewrite sort_Slice_perm, Hall. reflexivity.
  - rewrite sort_Slice_perm, Hall. reflexivity.
  - rewrite !sort_Slice_perm, Hall. apply filter_by_status.
  - exact (sort_Slice_sorted CLI.Index _).
  - exact (sort_Slice_sorted CLI.Index _).
  - exact (sort_Slice_sorted CLI.Index _).
  - intros v.
    unfold awaiting_queue, plain_inactive, is_active, is_withdrawn,
      CLI.ValidatorStatusInactive, CLI.ValidatorStatusActive,
      CLI.ValidatorStatusWithdrawn.
    intuition congruence.
Qed.

End SortingFacts.

(** An insertion sort is one behaviour of [sort.Slice]. *)
Lemma insert_sorted_perm less x l : CLI.insert_sorted less x l ≡ₚ x :: l.
Proof.
  induction l as [|y l IH]; [reflexivity|].
  cbn [CLI.insert_sorted]. destruct (less y x); [|reflexivity].
  rewrite IH. apply perm_swap.
Qed.

Lemma insertion_sort_perm less l : CLI.insertion_sort less l ≡ₚ l.
Proof.
  induction l as [|x l IH]; [reflexivity|].
  unfold CLI.insertion_sort in *. cbn [foldr].
  rewrite insert_sorted_perm, IH. reflexivity.
Qed.

Lemma insert_sorted_sorted (key : CLI.Validator -> Z) x l :
  StronglySorted (fun a b => (key a <= key b)%Z) l ->
  StronglySorted (fun a b => (key a <= key b)%Z)
    (CLI.insert_sorted (fun a b => (key a <? key b)%Z) x l).
Proof.
  induction 1 as [|y l Hl IH Hy]; cbn [CLI.insert_sorted].
  - repeat constructor.
  - destruct (Z.ltb_spec (key y) (key x)) as [Hlt|Hge].
    + constructor; [exact IH|].
      rewrite insert_sorted_perm. constructor; [lia | exact Hy].
    + constructor; [constructor; assumption|].
      constructor; [exact Hge|].
      eapply Forall_impl; [exact Hy|]. intros z Hz. cbn beta in Hz. lia.
Qed.

Lemma insertion_sort_sorted (key : CLI.Validator -> Z) l :
  StronglySorted (fun a b => (key a <= key b)%Z)
    (CLI.insertion_sort (fun a b => (key a <? key b)%Z) l).
Proof.
  induction l as [|x l IH]; [constructor|].
  unfold CLI.insertion_sort in *. cbn [foldr].
  apply insert_sorted_sorted. exact IH.
Qed.

Lemma SortByStatus_partition_witness :
  let r := CLI.SortByStatus map_to_list CLI.insertion_sort Fixture.status_map in
  CLI.awaitingActivationQueueValidators r ++ CLI.inactiveValidators r
    ++ CLI.activeValidators r ++ CLI.withdrawnValidators r
    ≡ₚ filter known_status (map_to_list Fixture.status_map).*2 /\
  ascending_Index (CLI.activeValidators r).
Proof.
  intros r.
  destruct (SortByStatus_partition map_to_list (fun m => reflexivity (map_to_list m))
              CLI.insertion_sort insertion_sort_perm insertion_sort_sorted
              Fixture.status_map)
    as (_ & _ & _ & _ & _ & Hall & _ & Hact & _).
  split; [exact Hall | exact Hact].
Defined.

(* ================================================================== *)
(** ** The error check after the assignment of the state root *)

Section SuccessPath.
Context {EPP : Type} `{!ProverDeps EPP}.

(** [ProveValidatorFields_tail] without the [if err != nil] that follows the
    assignment of [BeaconStateRoot]: the success path only, as the spec
    words the intended behaviour. *)
Definition ProveValidatorFields_tail_success_path
    (oracleBlockHeader : BeaconBlockHeader) (validatorIndex : Z) (l : fields_locals)
    : Go EPP (option StateRootProof * Proof * error) :=
  let '(p, err) := ProveStateRootAgainstBlockHeader oracleBlockHeader in
  let stateRootProof :=
    {| BeaconStateRoot := BeaconStateRoot (fl_stateRootProof l);
       StateRootProof_Proof := p |} in
  if nonnil err then mret (nil3 err) else
  '(validatorFieldsProof, err) ←
    ProveValidatorAgainstBeaconState (fl_slot l) (fl_validators l)
      (fl_topLevelRoots l) validatorIndex;
  if nonnil err then mret (nil3 err) else
  mret (Some stateRootProof, validatorFieldsProof, None).

Definition ProveValidatorFields_success_path
    (oracleBlockHeader : BeaconBlockHeader) (oracleBeaconState : VersionedBeaconState)
    (validatorIndex : Z) : Go EPP (option StateRootProof * Proof * error) :=
  r ← ProveValidatorFields_head oracleBlockHeader oracleBeaconState;
  match r with
  | inl early => mret early
  | inr l => ProveValidatorFields_tail_success_path oracleBlockHeader validatorIndex l
  end.

(** [ProveValidatorContainers_tail] without the same check. *)
Definition ProveValidatorContainers_tail_success_path
    (oracleBlockHeader : BeaconBlockHeader) (oracleBeaconState : VersionedBeaconState)
    (validatorIndices : list Z) (l : containers_locals)
    : Go EPP (option VerifyValidatorFieldsCallParams * error) :=
  let '(p, err) := ProveStateRootAgainstBlockHeader oracleBlockHeader in
  stateRootProof ← deref (StateRootProof_ (cl_params l));
  let params :=
    with_StateRootProof
      {| BeaconStateRoot := BeaconStateRoot stateRootProof; StateRootProof_Proof := p |}
      (cl_params l) in
  if nonnil err then mret (None, err) else
  let params :=
    {| OracleTimestamp := GetSlotTimestamp oracleBeaconState oracleBlockHeader;
       StateRootProof_ := StateRootProof_ params;
       ValidatorIndices := make 0%Z (len validatorIndices);
       ValidatorFieldsProofs := make [] (len validatorIndices);
       ValidatorFields := make [] (len validatorIndices) |} in
  ProveValidatorContainers_loop (cl_slot l) (cl_validators l) (cl_topLevelRoots l)
    0 validatorIndices params.

Definition ProveValidatorContainers_success_path
    (oracleBlockHeader : BeaconBlockHeader) (oracleBeaconState : VersionedBeaconState)
    (validatorIndices : list Z)
    : Go EPP (option VerifyValidatorFieldsCallParams * error) :=
  r ← ProveValidatorContainers_head oracleBlockHeader oracleBeaconState;
  match r with
  | inl early => mret early
  | inr l =>
      ProveValidatorContainers_tail_success_path oracleBlockHeader oracleBeaconState
        validatorIndices l
  end.

Lemma ProveValidatorFields_head_err hdr st (s : EPP) l s' :
  ProveValidatorFields_head hdr st s = Returns (inr l) s' -> fl_err l = None.
Proof.
  unfold ProveValidatorFields_head.
  destruct (VersionedBeaconState_Slot st) as [slot [e|]]; [discriminate|].
  destruct (VersionedBeaconState_Validators st) as [vals [e|]]; [discriminate|].
  cbn [nonnil]. rewrite go_bind_unfold.
  destruct (ComputeBeaconStateTopLevelRoots st s) as [[roots [e|]] s1|p s1];
    [discriminate| |discriminate].
  cbn [nonnil]. rewrite go_ret_unfold. intros [= <- _]. reflexivity.
Qed.

Lemma ProveValidatorContainers_head_err hdr st (s : EPP) l s' :
  ProveValidatorContainers_head hdr st s = Returns (inr l) s' -> cl_err l = None.
Proof.
  unfold ProveValidatorContainers_head.
  destruct (VersionedBeaconState_Slot st) as [slot [e|]]; [discriminate|].
  destruct (VersionedBeaconState_Validators st) as [vals [e|]]; [discriminate|].
  cbn [nonnil]. rewrite go_bind_unfold.
  destruct (ComputeBeaconStateTopLevelRoots st s) as [[roots [e|]] s1|p s1];
    [discriminate| |discriminate].
  cbn [nonnil]. rewrite go_ret_unfold. intros [= <- _]. reflexivity.
Qed.

(** C8.  Whenever [ProveValidatorFields] or [ProveValidatorContainers]
    reaches the [if err != nil] that follows the assignment of
    [BeaconStateRoot], [err] is [nil]; the functions behave as if the check
    were not there. *)
Theorem err_check_after_state_root_is_dead :
  (forall hdr st (s : EPP) l s',
      ProveValidatorFields_head hdr st s = Returns (inr l) s' -> fl_err l = None) /\
  (forall hdr st idx (s : EPP),
      ProveValidatorFields hdr st idx s = ProveValidatorFields_success_path hdr st idx s) /\
  (forall hdr st (s : EPP) l s',
      ProveValidatorContainers_head hdr st s = Returns (inr l) s' -> cl_err l = None) /\
  (forall hdr st indices (s : EPP),
      ProveValidatorContainers hdr st indices s
      = ProveValidatorContainers_success_path hdr st indices s).
Proof.
  split_and!.
  - exact ProveValidatorFields_head_err.
  - intros hdr st idx s.
    unfold ProveValidatorFields, ProveValidatorFields_success_path.
    rewrite !go_bind_unfold.
    destruct (ProveValidatorFields_head hdr st s) as [[early|l] s1|p s1] eqn:Hhead;
      try reflexivity.
    apply ProveValidatorFields_head_err in Hhead.
    unfold ProveValidatorFields_tail, ProveValidatorFields_tail_success_path.
    rewrite Hhead. reflexivity.
  - exact ProveValidatorContainers_head_err.
  - intros hdr st indices s.
    unfold ProveValidatorContainers, ProveValidatorContainers_success_path.
    rewrite !go_bind_unfold.
    destruct (ProveValidatorContainers_head hdr st s) as [[early|l] s1|p s1] eqn:Hhead;
      try reflexivity.
    apply ProveValidatorContainers_head_err in Hhead.
    unfold ProveValidatorContainers_tail, ProveValidatorContainers_tail_success_path.
    rewrite Hhead. reflexivity.
Qed.

End SuccessPath.

(** The check is reached in a run on the two-validator state. *)
Lemma err_check_after_state_root_is_dead_witness :
  exists l s',
    ProveValidatorFields_head Fixture.hdr Fixture.st Fixture.epp = Returns (inr l) s' /\
    fl_err l = None.
Proof.
  match goal with
  | |- exists l s', ?run = _ /\ _ =>
      assert (exists l s', run = Returns (inr l) s') as (l & s' & E)
        by (vm_compute; eexists _, _; reflexivity)
  end.
  exists l, s'. split; [exact E|].
  exact (proj1 err_check_after_state_root_is_dead _ _ _ _ _ E).
Defined.

(* ================================================================== *)
(** ** Indices beyond the validator list *)

(** The number of validators of the supplied state ([0] when the accessor
    fails). *)
Definition validator_count (st : VersionedBeaconState) : Z :=
  len (VersionedBeaconState_Validators st).1.


Lemma slice_index_out_of_range {St A} (l : list A) (i : Z) (s : St) :
  (len l <= i)%Z -> slice_index l i s = Panics (IndexOutOfRange i (len l)) s.
Proof.
  intros Hi. unfold slice_index.
  destruct (Z.ltb_spec i (len l)); [lia|].
  rewrite andb_false_r. reflexivity.
Qed.

Lemma slice_index_returns {St A} (l : list A) (i : Z) (s : St) x s' :
  slice_index l i s = Returns x s' ->
  (0 <= i < len l)%Z /\ l !! Z.to_nat i = Some x /\ s' = s.
Proof.
  unfold slice_index.
  destruct (Z.leb_spec 0 i); [|discriminate].
  destruct (Z.ltb_spec i (len l)); [|discriminate].
  cbn [andb]. destruct (l !! Z.to_nat i) as [y|]; [|discriminate].
  intros [= <- <-]. auto with lia.
Qed.

Section OutOfRange.
Context {EPP : Type} `{!ProverDeps EPP}.


Lemma ProveValidatorContainers_head_validators hdr st (s : EPP) l s' :
  ProveValidatorContainers_head hdr st s = Returns (inr l) s' ->
  cl_validators l = (VersionedBeaconState_Validators st).1 /\
  cl_slot l = (VersionedBeaconState_Slot st).1 /\
  (VersionedBeaconState_Validators st).2 = None /\
  (exists roots, ComputeBeaconStateTopLevelRoots st s = Returns (roots, None) s' /\
                 cl_topLevelRoots l = roots) /\
  cl_params l =
    {| OracleTimestamp := 0;
       StateRootProof_ :=
         Some {| BeaconStateRoot := StateRoot hdr; StateRootProof_Proof := [] |};
       ValidatorIndices := [];
       ValidatorFieldsProofs := [];
       ValidatorFields := [] |}.
Proof.
  unfold ProveValidatorContainers_head.
  destruct (VersionedBeaconState_Slot st) as [slot [e|]]; [discriminate|].
  destruct (VersionedBeaconState_Validators st) as [vals [e|]]; [discriminate|].
  cbn [nonnil]. rewrite go_bind_unfold.
  destruct (ComputeBeaconStateTopLevelRoots st s) as [[roots [e|]] s1|p s1];
    [discriminate| |discriminate].
  cbn [nonnil]. rewrite go_ret_unfold. intros [= <- <-]. cbn. eauto 10.
Qed.

Lemma ProveValidatorContainers_head_early hdr st (s : EPP) early s' :
  ProveValidatorContainers_head hdr st s = Returns (inl early) s' ->
  exists e, early = (None, Some e).
Proof.
  unfold ProveValidatorContainers_head.
  destruct (VersionedBeaconState_Slot st) as [slot [e|]];
    [intros [= <- _]; eauto|].
  destruct (VersionedBeaconState_Validators st) as [vals [e|]];
    [intros [= <- _]; eauto|].
  cbn [nonnil]. rewrite go_bind_unfold.
  destruct (ComputeBeaconStateTopLevelRoots st s) as [[roots [e|]] s1|p s1];
    [intros [= <- _]; eauto|discriminate|discriminate].
Qed.


End OutOfRange.



(* ================================================================== *)
(** ** The position of the length sibling *)

Lemma length_proof_path d z t i : length (SSZ.proof_path d z t i) = d.
Proof.
  revert z t i. induction d as [|d IH]; intros z t i; [reflexivity|].
  cbn [SSZ.proof_path length]. rewrite IH. reflexivity.
Qed.

Lemma ComputeMerkleProofFromTree_length tree index numLayers proof :
  SSZ.ComputeMerkleProofFromTree tree index numLayers = (proof, None) ->
  length proof = Z.to_nat numLayers.
Proof.
  unfold SSZ.ComputeMerkleProofFromTree.
  destruct (2 ^ numLayers <=? index)%Z; [discriminate|].
  intros [= <-]. apply length_proof_path.
Qed.

(** C6 (amended).  In the proof that [ProveValidatorAgainstBeaconState]
    returns, the sibling at position 40, the last one of the list proof of
    [ProveValidatorAgainstValidatorList] and the one before the top-level
    path, decodes as a little-endian [uint64] to the number of validators;
    the top-level path that follows has [ceil(log2(fields))] siblings. *)
Theorem length_sibling_position slot vals roots idx (s : EigenPodProofs) proof s' :
  (len vals < 2 ^ 63)%Z ->
  ProveValidatorAgainstBeaconState slot vals roots idx s = Returns (proof, None) s' ->
  exists list_proof chunk top_level_proof,
    ProveValidatorAgainstValidatorList slot vals idx s = Returns (list_proof, None) s' /\
    proof = list_proof ++ top_level_proof /\
    length list_proof = 41%nat /\
    last list_proof = Some chunk /\
    proof !! 40%nat = Some chunk /\
    decode_u64_le chunk = len vals /\
    length top_level_proof = Z.to_nat (SSZ.state_tree_depth roots) /\
    length proof = (41 + Z.to_nat (SSZ.state_tree_depth roots))%nat.
Proof.
  intros Hlen. unfold ProveValidatorAgainstBeaconState.
  destruct (ProveBeaconTopLevelRootAgainstBeaconState roots ValidatorListIndex)
    as [top [e|]] eqn:Htop; [discriminate|].
  cbn [nonnil]. rewrite go_bind_unfold.
  destruct (ProveValidatorAgainstValidatorList slot vals idx s)
    as [[vp [e|]] s1|p s1] eqn:Hvp; [discriminate| |discriminate].
  cbn [nonnil]. rewrite go_ret_unfold. intros [= <- <-].
  apply ProveValidatorAgainstValidatorList_returns in Hvp as Hparts.
  destruct Hparts as (tree & leaf & c & _ & Hleaf & Hc & ->).
  apply ComputeMerkleProofFromTree_length in Hleaf.
  change (Z.to_nat ValidatorListMerkleSubtreeNumLayers) with 40%nat in Hleaf.
  apply BigToLittleEndian_returns in Hc as (_ & -> & _).
  assert (0 <= len vals)%Z as Hpos by (unfold len; lia).
  rewrite int64_small by lia.
  destruct (length_chunk_of_u64 (len vals)) as (_ & _ & _ & Hdec); [lia|].
  apply ComputeMerkleProofFromTree_length in Htop.
  exists (leaf ++ [le_bytes 32 (Z.to_N (len vals))]),
    (le_bytes 32 (Z.to_N (len vals))), top.
  rewrite !length_app, Hleaf, Htop. cbn [length].
  split_and!;
    first [ reflexivity | exact Hvp | exact Hdec | apply last_snoc | idtac ].
  rewrite <- (assoc_L (++)), <- Hleaf. apply list_lookup_middle. reflexivity.
Qed.

Lemma length_sibling_position_witness :
  exists proof s' chunk,
    ProveValidatorAgainstBeaconState 100 [Fixture.v0; Fixture.v1]
      (SSZ.top_level_roots DataVersionDeneb
         {| GenesisTime := 0; Slot := 100; Validators := [Fixture.v0; Fixture.v1];
            Balances := []; FieldRoots := [] |})
      1 Fixture.epp = Returns (proof, None) s' /\
    proof !! 40%nat = Some chunk /\
    decode_u64_le chunk = 2%Z.
Proof.
  match goal with
  | |- exists proof s' _, ?run = _ /\ _ =>
      assert (exists proof s', run = Returns (proof, None) s') as (proof & s' & E)
        by (vm_compute; eexists _, _; reflexivity)
  end.
  destruct (length_sibling_position _ _ _ _ _ _ _ (eq_refl : (len [Fixture.v0; Fixture.v1] ?= 2 ^ 63)%Z = Lt) E)
    as (lp & chunk & top & _ & _ & _ & _ & Hat & Hdec & _).
  exists proof, s', chunk. split_and!; [exact E | exact Hat | exact Hdec].
Defined.

(** C6, as stated, fails: the proof of validator 1 of two has 46 siblings,
    and its penultimate sibling, a node of the top-level path, does not
    decode to the count 2; nor does the penultimate sibling of the list proof
    of 41 siblings, whose last sibling is the length chunk. *)
Lemma penultimate_sibling_is_not_the_length :
  exists proof s' chunk list_proof chunk',
    ProveValidatorAgainstBeaconState 100 [Fixture.v0; Fixture.v1]
      (SSZ.top_level_roots DataVersionDeneb
         {| GenesisTime := 0; Slot := 100; Validators := [Fixture.v0; Fixture.v1];
            Balances := []; FieldRoots := [] |})
      1 Fixture.epp = Returns (proof, None) s' /\
    length proof = 46%nat /\
    proof !! (length proof - 2)%nat = Some chunk /\
    decode_u64_le chunk <> len [Fixture.v0; Fixture.v1] /\
    ProveValidatorAgainstValidatorList 100 [Fixture.v0; Fixture.v1] 1 Fixture.epp
      = Returns (list_proof, None) s' /\
    length list_proof = 41%nat /\
    list_proof !! (length list_proof - 2)%nat = Some chunk' /\
    decode_u64_le chunk' <> len [Fixture.v0; Fixture.v1].
Proof.
  eexists _, _, _, _, _. split_and!.
  - vm_compute. reflexivity.
  - vm_compute. reflexivity.
  - vm_compute. reflexivity.
  - vm_compute. discriminate.
  - vm_compute. reflexivity.
  - vm_compute. reflexivity.
  - vm_compute. reflexivity.
  - vm_compute. discriminate.
Qed.

(* ================================================================== *)
(** ** Failed calls: nil results, and the receiver *)

Lemma take_S_insert {A} (l : list A) (i : nat) (x : A) :
  (i < length l)%nat -> take (S i) (<[i := x]> l) = take i l ++ [x].
Proof.
  intros Hi.
  rewrite (take_S_r _ _ x) by (apply list_lookup_insert_eq; exact Hi).
  rewrite take_insert_ge by lia. reflexivity.
Qed.

Section NoPartialResults.
Context {EPP : Type} `{!ProverDeps EPP}.

(** The steps before the proofs of the validators succeed: the two
    accessors, the top-level roots, after which the receiver is [s1], and
    the proof of the state root. *)
Definition prepared (hdr : BeaconBlockHeader) (st : VersionedBeaconState) (s : EPP)
    (slot : Z) (vals : list Validator) (roots : BeaconStateTopLevelRoots)
    (p : Proof) (s1 : EPP) : Prop :=
  VersionedBeaconState_Slot st = (slot, None) /\
  VersionedBeaconState_Validators st = (vals, None) /\
  ComputeBeaconStateTopLevelRoots st s = Returns (roots, None) s1 /\
  ProveStateRootAgainstBlockHeader hdr = (p, None).

(** One of those steps returns the error [e]; the receiver is then in the
    state of the second argument. *)
Inductive preparation_fails (hdr : BeaconBlockHeader) (st : VersionedBeaconState)
    (s : EPP) (e : go_error) : EPP -> Prop :=
  | fails_slot slot :
      VersionedBeaconState_Slot st = (slot, Some e) ->
      preparation_fails hdr st s e s
  | fails_validators slot vals :
      VersionedBeaconState_Slot st = (slot, None) ->
      VersionedBeaconState_Validators st = (vals, Some e) ->
      preparation_fails hdr st s e s
  | fails_roots slot vals roots s1 :
      VersionedBeaconState_Slot st = (slot, None) ->
      VersionedBeaconState_Validators st = (vals, None) ->
      ComputeBeaconStateTopLevelRoots st s = Returns (roots, Some e) s1 ->
      preparation_fails hdr st s e s1
  | fails_state_root slot vals roots s1 p :
      VersionedBeaconState_Slot st = (slot, None) ->
      VersionedBeaconState_Validators st = (vals, None) ->
      ComputeBeaconStateTopLevelRoots st s = Returns (roots, None) s1 ->
      ProveStateRootAgainstBlockHeader hdr = (p, Some e) ->
      preparation_fails hdr st s e s1.

(** The loop of [ProveValidatorContainers] goes through the indices without
    an error, in order: the proofs and the fields it stores, and the states
    of the receiver before and after. *)
Inductive proved_all (slot : Z) (vals : list Validator) (roots : BeaconStateTopLevelRoots)
    : list Z -> EPP -> list Proof -> list (list Bytes32) -> EPP -> Prop :=
  | proved_nil s : proved_all slot vals roots [] s [] [] s
  | proved_cons idx rest s proof s1 v proofs fields s2 :
      ProveValidatorAgainstBeaconState slot vals roots idx s = Returns (proof, None) s1 ->
      (0 <= idx)%Z ->
      vals !! Z.to_nat idx = Some v ->
      proved_all slot vals roots rest s1 proofs fields s2 ->
      proved_all slot vals roots (idx :: rest) s
        (proof :: proofs) (ConvertValidatorToValidatorFields v :: fields) s2.

(** A step of [ProveValidatorContainers] returns the error [e]: one of the
    steps before the loop, or the proof of the first index for which
    [ProveValidatorAgainstBeaconState] fails. *)
Definition fails_containers (hdr : BeaconBlockHeader) (st : VersionedBeaconState)
    (indices : list Z) (s : EPP) (e : go_error) (s' : EPP) : Prop :=
  preparation_fails hdr st s e s' \/
  exists slot vals roots p s1 pre idx post proofs fields s2 proof,
    prepared hdr st s slot vals roots p s1 /\
    indices = pre ++ idx :: post /\
    proved_all slot vals roots pre s1 proofs fields s2 /\
    ProveValidatorAgainstBeaconState slot vals roots idx s2 = Returns (proof, Some e) s'.

(** A step of [ProveValidatorFields] returns the error [e]. *)
Definition fails_fields (hdr : BeaconBlockHeader) (st : VersionedBeaconState)
    (idx : Z) (s : EPP) (e : go_error) (s' : EPP) : Prop :=
  preparation_fails hdr st s e s' \/
  exists slot vals roots p s1 proof,
    prepared hdr st s slot vals roots p s1 /\
    ProveValidatorAgainstBeaconState slot vals roots idx s1 = Returns (proof, Some e) s'.

(** The object that a successful [ProveValidatorContainers] returns: every
    part is filled, for all the requested indices, from the results of the
    steps. *)
Definition complete_params (hdr : BeaconBlockHeader) (st : VersionedBeaconState)
    (indices : list Z) (s : EPP) (P : VerifyValidatorFieldsCallParams) (s' : EPP)
    : Prop :=
  exists slot vals roots p s1 proofs fields,
    prepared hdr st s slot vals roots p s1 /\
    proved_all slot vals roots indices s1 proofs fields s' /\
    P = {| OracleTimestamp := GetSlotTimestamp st hdr;
           StateRootProof_ :=
             Some {| BeaconStateRoot := StateRoot hdr; StateRootProof_Proof := p |};
           ValidatorIndices := indices;
           ValidatorFieldsProofs := proofs;
           ValidatorFields := fields |}.

(** The pair that a successful [ProveValidatorFields] returns. *)
Definition complete_fields (hdr : BeaconBlockHeader) (st : VersionedBeaconState)
    (idx : Z) (s : EPP) (sp : StateRootProof) (proof : Proof) (s' : EPP) : Prop :=
  exists slot vals roots p s1,
    prepared hdr st s slot vals roots p s1 /\
    ProveValidatorAgainstBeaconState slot vals roots idx s1 = Returns (proof, None) s' /\
    sp = {| BeaconStateRoot := StateRoot hdr; StateRootProof_Proof := p |}.

(** The states the receiver goes through by the calls of its two methods
    that the prover makes. *)
Inductive helper_trace (st : VersionedBeaconState) : EPP -> EPP -> Prop :=
  | trace_done s : helper_trace st s s
  | trace_roots s s' :
      helper_trace st (state_after (ComputeBeaconStateTopLevelRoots st s)) s' ->
      helper_trace st s s'
  | trace_tree slot vals s s' :
      helper_trace st (state_after (ComputeValidatorTree slot vals s)) s' ->
      helper_trace st s s'.

Lemma helper_trace_trans st s1 s2 s3 :
  helper_trace st s1 s2 -> helper_trace st s2 s3 -> helper_trace st s1 s3.
Proof.
  induction 1; intros H23; [exact H23| |].
  - apply trace_roots. auto.
  - eapply trace_tree. auto.
Qed.

Lemma ProveValidatorAgainstValidatorList_state slot vals idx (s : EPP) :
  state_after (ProveValidatorAgainstValidatorList slot vals idx s)
  = state_after (ComputeValidatorTree slot vals s).
Proof.
  unfold ProveValidatorAgainstValidatorList. rewrite go_bind_unfold.
  destruct (ComputeValidatorTree slot vals s) as [[tree [e|]] s1|p s1];
    cbn [nonnil]; try reflexivity.
  destruct (ComputeMerkleProofFromTree tree idx ValidatorListMerkleSubtreeNumLayers)
    as [leaf [e|]]; cbn [nonnil]; try reflexivity.
  rewrite go_bind_unfold. unfold BigToLittleEndian.
  destruct (2 ^ 64 <? int64 (len vals))%Z; reflexivity.
Qed.

Lemma ProveValidatorAgainstBeaconState_state st slot vals roots idx (s : EPP) :
  helper_trace st s (state_after (ProveValidatorAgainstBeaconState slot vals roots idx s)).
Proof.
  unfold ProveValidatorAgainstBeaconState.
  destruct (ProveBeaconTopLevelRootAgainstBeaconState roots ValidatorListIndex)
    as [top [e|]]; cbn [nonnil]; [apply trace_done|].
  rewrite go_bind_unfold.
  pose proof (ProveValidatorAgainstValidatorList_state slot vals idx s) as Hs.
  destruct (ProveValidatorAgainstValidatorList slot vals idx s)
    as [[vp [e|]] s1|p s1]; cbn [nonnil state_after] in *;
    rewrite ?go_ret_unfold; cbn [state_after]; rewrite Hs;
    eapply trace_tree, trace_done.
Qed.

Lemma slice_index_state {A} (l : list A) (i : Z) (s : EPP) :
  state_after (slice_index l i s) = s.
Proof.
  unfold slice_index. destruct ((0 <=? i)%Z && (i <? len l)%Z); [|reflexivity].
  destruct (l !! Z.to_nat i); reflexivity.
Qed.

Lemma ProveValidatorContainers_loop_state st slot vals roots rest :
  forall i params (s : EPP),
    helper_trace st s
      (state_after (ProveValidatorContainers_loop slot vals roots i rest params s)).
Proof.
  induction rest as [|idx rest IH]; intros i params s; [apply trace_done|].
  cbn [ProveValidatorContainers_loop]. rewrite go_bind_unfold.
  pose proof (ProveValidatorAgainstBeaconState_state st slot vals roots idx s) as Hs.
  destruct (ProveValidatorAgainstBeaconState slot vals roots idx s)
    as [[proof [e|]] s1|p s1]; cbn [nonnil state_after] in *; [exact Hs| |exact Hs].
  rewrite go_bind_unfold.
  pose proof (slice_index_state vals idx s1) as Hv.
  destruct (slice_index vals idx s1) as [v s2|p s2]; cbn [state_after] in Hv; subst s2.
  - eapply helper_trace_trans; [exact Hs | apply IH].
  - exact Hs.
Qed.

(** What the loop returns: [nil] and an error, or the object with the
    entries of the remaining indices filled. *)
Lemma ProveValidatorContainers_loop_returns slot vals roots rest :
  forall i params (s : EPP) res err s',
    ProveValidatorContainers_loop slot vals roots i rest params s = Returns (res, err) s' ->
    length (ValidatorIndices params) = (i + length rest)%nat ->
    length (ValidatorFieldsProofs params) = (i + length rest)%nat ->
    length (ValidatorFields params) = (i + length rest)%nat ->
    (res = None /\ err <> None) \/
    (err = None /\
     exists P proofs fields,
       res = Some P /\
       OracleTimestamp P = OracleTimestamp params /\
       StateRootProof_ P = StateRootProof_ params /\
       ValidatorIndices P = take i (ValidatorIndices params) ++ rest /\
       ValidatorFieldsProofs P = take i (ValidatorFieldsProofs params) ++ proofs /\
       ValidatorFields P = take i (ValidatorFields params) ++ fields /\
       Forall2
         (fun idx proof =>
            exists s1 s2 : EPP,
              ProveValidatorAgainstBeaconState slot vals roots idx s1
              = Returns (proof, None) s2)
         rest proofs /\
       Forall2
         (fun idx fields =>
            exists v, vals !! Z.to_nat idx = Some v /\
                      fields = ConvertValidatorToValidatorFields v)
         rest fields).
Proof.
  induction rest as [|idx rest IH]; intros i params s res err s' Hrun Hi Hp Hf.
  - cbn in Hrun. injection Hrun as <- <- <-. right. split; [reflexivity|].
    exists params, [], []. rewrite !app_nil_r.
    cbn [length] in *. rewrite !take_ge by lia.
    split_and!; try reflexivity; constructor.
  - cbn [ProveValidatorContainers_loop] in Hrun. rewrite go_bind_unfold in Hrun.
    destruct (ProveValidatorAgainstBeaconState slot vals roots idx s)
      as [[proof [e|]] s1|p s1] eqn:Hproof; cbn [nonnil] in Hrun;
      [| |discriminate].
    { injection Hrun as <- <- <-. left. split; [reflexivity | discriminate]. }
    rewrite go_bind_unfold in Hrun.
    destruct (slice_index vals idx s1) as [v s2|p s2] eqn:Hv; [|discriminate].
    apply slice_index_returns in Hv as (_ & Hv & ->).
    cbn [length] in Hi, Hp, Hf.
    apply IH in Hrun;
      cbn [with_fields with_proof with_index ValidatorIndices ValidatorFieldsProofs
             ValidatorFields OracleTimestamp StateRootProof_] in *;
      rewrite ?length_insert; try lia.
    destruct Hrun as [Hfail|(-> & P & proofs & fields & -> & Ht & Hs & HI & HP & HF & Hps & Hfs)];
      [left; exact Hfail|].
    right. split; [reflexivity|].
    exists P, (proof :: proofs), (ConvertValidatorToValidatorFields v :: fields).
    rewrite take_S_insert in HI by lia.
    rewrite take_S_insert in HP by lia.
    rewrite take_S_insert in HF by lia.
    rewrite <- (assoc_L (++)) in HI.
    rewrite <- (assoc_L (++)) in HP.
    rewrite <- (assoc_L (++)) in HF.
    split_and!; try assumption; try reflexivity.
    + constructor; [|exact Hps]. eauto.
    + constructor; [|exact Hfs]. eauto.
Qed.

Lemma slice_index_lookup {A} (l : list A) (i : Z) (s : EPP) x :
  (0 <= i)%Z -> l !! Z.to_nat i = Some x -> slice_index l i s = Returns x s.
Proof.
  intros Hi Hx. unfold slice_index.
  apply lookup_lt_Some in Hx as Hlt.
  destruct (Z.leb_spec 0 i); [|lia].
  destruct (Z.ltb_spec i (len l)); [|unfold len in *; lia].
  cbn [andb]. rewrite Hx. reflexivity.
Qed.

(** The object after the loop: the entries from [i] on are those of the
    loop. *)
Definition filled (i : nat) (params : VerifyValidatorFieldsCallParams)
    (rest : list Z) (proofs : list Proof) (fields : list (list Bytes32))
    : VerifyValidatorFieldsCallParams :=
  {| OracleTimestamp := OracleTimestamp params;
     StateRootProof_ := StateRootProof_ params;
     ValidatorIndices := take i (ValidatorIndices params) ++ rest;
     ValidatorFieldsProofs := take i (ValidatorFieldsProofs params) ++ proofs;
     ValidatorFields := take i (ValidatorFields params) ++ fields |}.

Lemma filled_nil i params :
  length (ValidatorIndices params) = i ->
  length (ValidatorFieldsProofs params) = i ->
  length (ValidatorFields params) = i ->
  filled i params [] [] [] = params.
Proof.
  intros Hi Hp Hf. unfold filled. rewrite !app_nil_r, !take_ge by lia.
  destruct params; reflexivity.
Qed.

Lemma filled_step i idx proof fs params rest proofs fields :
  (i < length (ValidatorIndices params))%nat ->
  (i < length (ValidatorFieldsProofs params))%nat ->
  (i < length (ValidatorFields params))%nat ->
  filled (S i) (with_fields i fs (with_proof i proof (with_index i idx params)))
    rest proofs fields
  = filled i params (idx :: rest) (proof :: proofs) (fs :: fields).
Proof.
  intros Hi Hp Hf. unfold filled.
  cbn [with_fields with_proof with_index ValidatorIndices ValidatorFieldsProofs
         ValidatorFields OracleTimestamp StateRootProof_].
  rewrite !take_S_insert by assumption.
  rewrite <- !(assoc_L (++)). reflexivity.
Qed.

Lemma ProveValidatorContainers_loop_success slot vals roots rest (s : EPP)
    proofs fields s' :
  proved_all slot vals roots rest s proofs fields s' ->
  forall i params,
    length (ValidatorIndices params) = (i + length rest)%nat ->
    length (ValidatorFieldsProofs params) = (i + length rest)%nat ->
    length (ValidatorFields params) = (i + length rest)%nat ->
    ProveValidatorContainers_loop slot vals roots i rest params s
    = Returns (Some (filled i params rest proofs fields), None) s'.
Proof.
  induction 1 as [s|idx rest s proof s1 v proofs fields s2 Hproof Hidx Hv _ IH];
    intros i params Hi Hp Hf; cbn [length] in *.
  - cbn. rewrite filled_nil by lia. reflexivity.
  - cbn [ProveValidatorContainers_loop]. rewrite go_bind_unfold, Hproof. cbn [nonnil].
    rewrite go_bind_unfold, (slice_index_lookup vals idx s1 v Hidx Hv).
    rewrite IH;
      cbn [with_fields with_proof with_index ValidatorIndices ValidatorFieldsProofs
             ValidatorFields]; rewrite ?length_insert; try lia.
    rewrite filled_step by lia. reflexivity.
Qed.

Lemma ProveValidatorContainers_loop_failure slot vals roots pre (s : EPP)
    proofs fields s2 idx post proof e s3 :
  proved_all slot vals roots pre s proofs fields s2 ->
  ProveValidatorAgainstBeaconState slot vals roots idx s2 = Returns (proof, Some e) s3 ->
  forall i params,
    ProveValidatorContainers_loop slot vals roots i (pre ++ idx :: post) params s
    = Returns (None, Some e) s3.
Proof.
  induction 1 as [s|idx' rest s proof' s1 v proofs fields s2 Hproof Hidx Hv _ IH];
    intros Hfail i params.
  - cbn [app ProveValidatorContainers_loop]. rewrite go_bind_unfold, Hfail. reflexivity.
  - cbn [app ProveValidatorContainers_loop]. rewrite go_bind_unfold, Hproof. cbn [nonnil].
    rewrite go_bind_unfold, (slice_index_lookup vals idx' s1 v Hidx Hv).
    apply IH. exact Hfail.
Qed.

(** What the loop returns: [nil] and the error of the first proof that
    fails, or the object with the entries of the remaining indices filled. *)
Lemma ProveValidatorContainers_loop_proved slot vals roots rest :
  forall i params (s : EPP) res err s',
    ProveValidatorContainers_loop slot vals roots i rest params s = Returns (res, err) s' ->
    length (ValidatorIndices params) = (i + length rest)%nat ->
    length (ValidatorFieldsProofs params) = (i + length rest)%nat ->
    length (ValidatorFields params) = (i + length rest)%nat ->
    (exists e pre idx post proofs fields s2 proof,
        res = None /\ err = Some e /\ rest = pre ++ idx :: post /\
        proved_all slot vals roots pre s proofs fields s2 /\
        ProveValidatorAgainstBeaconState slot vals roots idx s2
        = Returns (proof, Some e) s') \/
    (exists proofs fields,
        err = None /\
        proved_all slot vals roots rest s proofs fields s' /\
        res = Some (filled i params rest proofs fields)).
Proof.
  induction rest as [|idx rest IH]; intros i params s res err s' Hrun Hi Hp Hf;
    cbn [length] in *.
  - cbn in Hrun. injection Hrun as <- <- <-. right. exists [], [].
    rewrite filled_nil by lia. split_and!; [reflexivity | constructor | reflexivity].
  - cbn [ProveValidatorContainers_loop] in Hrun. rewrite go_bind_unfold in Hrun.
    destruct (ProveValidatorAgainstBeaconState slot vals roots idx s)
      as [[proof [e|]] s1|p s1] eqn:Hproof; cbn [nonnil] in Hrun;
      [| |discriminate].
    { injection Hrun as <- <- <-. left.
      exists e, [], idx, rest, [], [], s, proof.
      split_and!; [reflexivity.. | constructor | exact Hproof]. }
    rewrite go_bind_unfold in Hrun.
    destruct (slice_index vals idx s1) as [v s2|p s2] eqn:Hv; [|discriminate].
    apply slice_index_returns in Hv as (Hidx & Hv & ->).
    apply IH in Hrun;
      cbn [with_fields with_proof with_index ValidatorIndices ValidatorFieldsProofs
             ValidatorFields]; rewrite ?length_insert; try lia.
    destruct Hrun as [(e & pre & idx' & post & proofs & fields & s3 & proof' &
                       -> & -> & -> & Hall & Hfail)
                     |(proofs & fields & -> & Hall & ->)].
    + left. exists e, (idx :: pre), idx', post, (proof :: proofs),
        (ConvertValidatorToValidatorFields v :: fields), s3, proof'.
      split_and!; [reflexivity.. | | exact Hfail].
      econstructor; [eassumption | lia | eassumption..].
    + right. exists (proof :: proofs), (ConvertValidatorToValidatorFields v :: fields).
      split_and!; [reflexivity | econstructor; [eassumption | lia | eassumption..] |].
      rewrite filled_step by lia. reflexivity.
Qed.

End NoPartialResults.

Section NoPartialResultsFacts.
Context {EPP : Type} `{!ProverDeps EPP}.

Lemma ProveValidatorFields_head_early hdr st (s : EPP) early s' :
  ProveValidatorFields_head hdr st s = Returns (inl early) s' ->
  exists e, early = (None, [], Some e).
Proof.
  unfold ProveValidatorFields_head, nil3.
  destruct (VersionedBeaconState_Slot st) as [slot [e|]];
    [intros [= <- _]; eauto|].
  destruct (VersionedBeaconState_Validators st) as [vals [e|]];
    [intros [= <- _]; eauto|].
  cbn [nonnil]. rewrite go_bind_unfold.
  destruct (ComputeBeaconStateTopLevelRoots st s) as [[roots [e|]] s1|p s1];
    [intros [= <- _]; eauto|discriminate|discriminate].
Qed.

Lemma ProveValidatorFields_head_locals hdr st (s : EPP) l s' :
  ProveValidatorFields_head hdr st s = Returns (inr l) s' ->
  fl_validators l = (VersionedBeaconState_Validators st).1 /\
  fl_slot l = (VersionedBeaconState_Slot st).1 /\
  BeaconStateRoot (fl_stateRootProof l) = StateRoot hdr.
Proof.
  unfold ProveValidatorFields_head.
  destruct (VersionedBeaconState_Slot st) as [slot [e|]]; [discriminate|].
  destruct (VersionedBeaconState_Validators st) as [vals [e|]]; [discriminate|].
  cbn [nonnil]. rewrite go_bind_unfold.
  destruct (ComputeBeaconStateTopLevelRoots st s) as [[roots [e|]] s1|p s1];
    [discriminate| |discriminate].
  cbn [nonnil]. rewrite go_ret_unfold. intros [= <- <-]. cbn. auto.
Qed.

Lemma ProveValidatorFields_head_state hdr st (s : EPP) :
  helper_trace st s (state_after (ProveValidatorFields_head hdr st s)).
Proof.
  unfold ProveValidatorFields_head.
  destruct (VersionedBeaconState_Slot st) as [slot [e|]]; [apply trace_done|].
  destruct (VersionedBeaconState_Validators st) as [vals [e|]]; [apply trace_done|].
  cbn [nonnil]. rewrite go_bind_unfold.
  apply trace_roots.
  destruct (ComputeBeaconStateTopLevelRoots st s) as [[roots [e|]] s1|p s1];
    cbn [nonnil state_after]; apply trace_done.
Qed.

Lemma ProveValidatorContainers_head_state hdr st (s : EPP) :
  helper_trace st s (state_after (ProveValidatorContainers_head hdr st s)).
Proof.
  unfold ProveValidatorContainers_head.
  destruct (VersionedBeaconState_Slot st) as [slot [e|]]; [apply trace_done|].
  destruct (VersionedBeaconState_Validators st) as [vals [e|]]; [apply trace_done|].
  cbn [nonnil]. rewrite go_bind_unfold.
  apply trace_roots.
  destruct (ComputeBeaconStateTopLevelRoots st s) as [[roots [e|]] s1|p s1];
    cbn [nonnil state_after]; apply trace_done.
Qed.


Lemma length_make {A} (z : A) (l : list Z) : length (make z (len l)) = (0 + length l)%nat.
Proof. unfold make, len. rewrite length_replicate, Nat2Z.id. reflexivity. Qed.

(** The steps before the proofs of the validators fail with an error,
    succeed, or the computation of the top-level roots panics. *)
Lemma preparation_cases hdr st (s : EPP) :
  (exists e s', preparation_fails hdr st s e s') \/
  (exists slot vals roots p s1, prepared hdr st s slot vals roots p s1) \/
  (exists q s1, (VersionedBeaconState_Slot st).2 = None /\
                (VersionedBeaconState_Validators st).2 = None /\
                ComputeBeaconStateTopLevelRoots st s = Panics q s1).
Proof.
  destruct (VersionedBeaconState_Slot st) as [slot [e|]] eqn:Hslot.
  { left. exists e, s. eapply fails_slot. exact Hslot. }
  destruct (VersionedBeaconState_Validators st) as [vals [e|]] eqn:Hvals.
  { left. exists e, s. eapply fails_validators; eassumption. }
  destruct (ComputeBeaconStateTopLevelRoots st s) as [[roots [e|]] s1|q s1] eqn:Hroots.
  - left. exists e, s1. eapply fails_roots; eassumption.
  - destruct (ProveStateRootAgainstBlockHeader hdr) as [p [e|]] eqn:Hp.
    + left. exists e, s1. eapply fails_state_root; eassumption.
    + right. left. exists slot, vals, roots, p, s1. repeat split; assumption.
  - right. right. exists q, s1. auto.
Qed.

Lemma preparation_fails_returns hdr st (s : EPP) e s' :
  preparation_fails hdr st s e s' ->
  (forall indices, ProveValidatorContainers hdr st indices s = Returns (None, Some e) s') /\
  (forall idx, ProveValidatorFields hdr st idx s = Returns (None, [], Some e) s').
Proof.
  intros Hfail. split; intros x;
    unfold ProveValidatorContainers, ProveValidatorFields, ProveValidatorContainers_head,
      ProveValidatorFields_head, ProveValidatorContainers_tail,
      ProveValidatorFields_tail, nil3;
    destruct Hfail as [slot Hslot|slot vals Hslot Hvals|slot vals roots s1 Hslot Hvals Hroots
                      |slot vals roots s1 p Hslot Hvals Hroots Hp];
    rewrite Hslot; cbn [nonnil]; rewrite ?Hvals; cbn [nonnil];
    rewrite ?go_bind_unfold, ?Hroots; cbn [nonnil];
    rewrite ?go_ret_unfold; cbn [cl_err fl_err nonnil]; rewrite ?Hp;
    reflexivity.
Qed.

Lemma ProveValidatorContainers_prepared hdr st (s : EPP) slot vals roots p s1 indices :
  prepared hdr st s slot vals roots p s1 ->
  ProveValidatorContainers hdr st indices s
  = ProveValidatorContainers_loop slot vals roots 0 indices
      {| OracleTimestamp := GetSlotTimestamp st hdr;
         StateRootProof_ :=
           Some {| BeaconStateRoot := StateRoot hdr; StateRootProof_Proof := p |};
         ValidatorIndices := make 0%Z (len indices);
         ValidatorFieldsProofs := make [] (len indices);
         ValidatorFields := make [] (len indices) |} s1.
Proof.
  intros (Hslot & Hvals & Hroots & Hp).
  unfold ProveValidatorContainers, ProveValidatorContainers_head,
    ProveValidatorContainers_tail.
  rewrite Hslot, Hvals. cbn [nonnil]. rewrite !go_bind_unfold, Hroots. cbn [nonnil].
  rewrite go_ret_unfold. cbn [cl_err nonnil]. rewrite Hp. reflexivity.
Qed.

Lemma ProveValidatorFields_prepared hdr st (s : EPP) slot vals roots p s1 idx :
  prepared hdr st s slot vals roots p s1 ->
  ProveValidatorFields hdr st idx s
  = match ProveValidatorAgainstBeaconState slot vals roots idx s1 with
    | Returns (proof, None) s2 =>
        Returns (Some {| BeaconStateRoot := StateRoot hdr; StateRootProof_Proof := p |},
                 proof, None) s2
    | Returns (_, Some e) s2 => Returns (None, [], Some e) s2
    | Panics q s2 => Panics q s2
    end.
Proof.
  intros (Hslot & Hvals & Hroots & Hp).
  unfold ProveValidatorFields, ProveValidatorFields_head, ProveValidatorFields_tail, nil3.
  rewrite Hslot, Hvals. cbn [nonnil]. rewrite !go_bind_unfold, Hroots. cbn [nonnil].
  rewrite go_ret_unfold. cbn [fl_err nonnil]. rewrite Hp. cbn [nonnil].
  rewrite go_bind_unfold.
  cbn [fl_slot fl_validators fl_topLevelRoots fl_stateRootProof BeaconStateRoot].
  destruct (ProveValidatorAgainstBeaconState slot vals roots idx s1)
    as [[proof [e|]] s2|q s2]; reflexivity.
Qed.

Lemma preparation_panics hdr st (s : EPP) q s1 :
  (VersionedBeaconState_Slot st).2 = None ->
  (VersionedBeaconState_Validators st).2 = None ->
  ComputeBeaconStateTopLevelRoots st s = Panics q s1 ->
  (forall indices, ProveValidatorContainers hdr st indices s = Panics q s1) /\
  (forall idx, ProveValidatorFields hdr st idx s = Panics q s1).
Proof.
  unfold ProveValidatorContainers, ProveValidatorFields, ProveValidatorContainers_head,
    ProveValidatorFields_head.
  destruct (VersionedBeaconState_Slot st) as [slot serr].
  destruct (VersionedBeaconState_Validators st) as [vals verr].
  cbn [snd]. intros -> -> Hroots. cbn [nonnil].
  split; intros x; rewrite !go_bind_unfold, Hroots; reflexivity.
Qed.

(** C5 (amended).  When a step of [ProveValidatorContainers] or
    [ProveValidatorFields] returns an error (an accessor of the state, the
    top-level roots, the proof of the state root, the proof of a validator),
    the call returns that error with [nil] results, and the steps of
    [ProveValidatorAgainstBeaconState] and
    [ProveValidatorAgainstValidatorList] do the same.  A call that returns
    does so in one of these ways or, without error, with the complete object
    built from the results of all the steps; there are no partial results.
    The receiver is not rolled back: after the call, failed or not, it is in
    the state in which the calls of [ComputeBeaconStateTopLevelRoots] and
    [ComputeValidatorTree] made so far have left it. *)
Theorem no_partial_results hdr st (s : EPP) :
  (forall indices e s',
      fails_containers hdr st indices s e s' ->
      ProveValidatorContainers hdr st indices s = Returns (None, Some e) s') /\
  (forall idx e s',
      fails_fields hdr st idx s e s' ->
      ProveValidatorFields hdr st idx s = Returns (None, [], Some e) s') /\
  (forall indices P s',
      complete_params hdr st indices s P s' ->
      ProveValidatorContainers hdr st indices s = Returns (Some P, None) s') /\
  (forall idx sp proof s',
      complete_fields hdr st idx s sp proof s' ->
      ProveValidatorFields hdr st idx s = Returns (Some sp, proof, None) s') /\
  (forall indices res err s',
      ProveValidatorContainers hdr st indices s = Returns (res, err) s' ->
      (exists e, res = None /\ err = Some e /\ fails_containers hdr st indices s e s') \/
      (err = None /\ exists P, res = Some P /\ complete_params hdr st indices s P s')) /\
  (forall idx srp proof err s',
      ProveValidatorFields hdr st idx s = Returns (srp, proof, err) s' ->
      (exists e, srp = None /\ proof = [] /\ err = Some e /\
                 fails_fields hdr st idx s e s') \/
      (err = None /\ exists sp, srp = Some sp /\ complete_fields hdr st idx s sp proof s')) /\
  (forall slot vals roots idx (s0 : EPP),
      (forall top e,
          ProveBeaconTopLevelRootAgainstBeaconState roots ValidatorListIndex
          = (top, Some e) ->
          ProveValidatorAgainstBeaconState slot vals roots idx s0
          = Returns ([], Some e) s0) /\
      (forall top vp e s1,
          ProveBeaconTopLevelRootAgainstBeaconState roots ValidatorListIndex
          = (top, None) ->
          ProveValidatorAgainstValidatorList slot vals idx s0 = Returns (vp, Some e) s1 ->
          ProveValidatorAgainstBeaconState slot vals roots idx s0
          = Returns ([], Some e) s1) /\
      (forall tree e s1,
          ComputeValidatorTree slot vals s0 = Returns (tree, Some e) s1 ->
          ProveValidatorAgainstValidatorList slot vals idx s0 = Returns ([], Some e) s1) /\
      (forall tree leaf e s1,
          ComputeValidatorTree slot vals s0 = Returns (tree, None) s1 ->
          ComputeMerkleProofFromTree tree idx ValidatorListMerkleSubtreeNumLayers
          = (leaf, Some e) ->
          ProveValidatorAgainstValidatorList slot vals idx s0 = Returns ([], Some e) s1)) /\
  (forall indices,
      helper_trace st s (state_after (ProveValidatorContainers hdr st indices s))) /\
  (forall idx,
      helper_trace st s (state_after (ProveValidatorFields hdr st idx s))).
Proof.
  split_and!.
  - intros indices e s' [Hprep|(slot & vals & roots & p & s1 & pre & idx & post & proofs
                               & fields & s2 & proof & Hprep & -> & Hall & Hfail)].
    + apply preparation_fails_returns. exact Hprep.
    + rewrite (ProveValidatorContainers_prepared _ _ _ _ _ _ _ _ _ Hprep).
      eapply ProveValidatorContainers_loop_failure; eassumption.
  - intros idx e s' [Hprep|(slot & vals & roots & p & s1 & proof & Hprep & Hfail)].
    + apply preparation_fails_returns. exact Hprep.
    + rewrite (ProveValidatorFields_prepared _ _ _ _ _ _ _ _ _ Hprep), Hfail.
      reflexivity.
  - intros indices P s' (slot & vals & roots & p & s1 & proofs & fields
                         & Hprep & Hall & ->).
    rewrite (ProveValidatorContainers_prepared _ _ _ _ _ _ _ _ _ Hprep).
    rewrite (ProveValidatorContainers_loop_success _ _ _ _ _ _ _ _ Hall)
      by apply length_make.
    reflexivity.
  - intros idx sp proof s' (slot & vals & roots & p & s1 & Hprep & Hproof & ->).
    rewrite (ProveValidatorFields_prepared _ _ _ _ _ _ _ _ _ Hprep), Hproof.
    reflexivity.
  - intros indices res err s' Hrun.
    destruct (preparation_cases hdr st s)
      as [(e & s0 & Hfail)|[(slot & vals & roots & p & s1 & Hprep)
                           |(q & s1 & Hslot & Hvals & Hpanic)]].
    + rewrite (proj1 (preparation_fails_returns _ _ _ _ _ Hfail)) in Hrun.
      injection Hrun as <- <- <-. left. exists e. split_and!; [reflexivity..|].
      left. exact Hfail.
    + rewrite (ProveValidatorContainers_prepared _ _ _ _ _ _ _ _ _ Hprep) in Hrun.
      apply ProveValidatorContainers_loop_proved in Hrun; try apply length_make.
      destruct Hrun as [(e & pre & idx & post & proofs & fields & s2 & proof &
                         -> & -> & -> & Hall & Hfail)
                       |(proofs & fields & -> & Hall & ->)].
      * left. exists e. split_and!; [reflexivity..|].
        right. exists slot, vals, roots, p, s1, pre, idx, post, proofs, fields, s2, proof.
        auto.
      * right. split; [reflexivity|]. eexists. split; [reflexivity|].
        exists slot, vals, roots, p, s1, proofs, fields.
        split_and!; [exact Hprep | exact Hall | reflexivity].
    + rewrite (proj1 (preparation_panics hdr _ _ _ _ Hslot Hvals Hpanic)) in Hrun.
      discriminate.
  - intros idx srp proof err s' Hrun.
    destruct (preparation_cases hdr st s)
      as [(e & s0 & Hfail)|[(slot & vals & roots & p & s1 & Hprep)
                           |(q & s1 & Hslot & Hvals & Hpanic)]].
    + rewrite (proj2 (preparation_fails_returns _ _ _ _ _ Hfail)) in Hrun.
      injection Hrun as <- <- <- <-. left. exists e. split_and!; [reflexivity..|].
      left. exact Hfail.
    + rewrite (ProveValidatorFields_prepared _ _ _ _ _ _ _ _ _ Hprep) in Hrun.
      destruct (ProveValidatorAgainstBeaconState slot vals roots idx s1)
        as [[vp [e|]] s2|q s2] eqn:Hvp; [| |discriminate].
      * injection Hrun as <- <- <- <-. left. exists e. split_and!; [reflexivity..|].
        right. exists slot, vals, roots, p, s1, vp. auto.
      * injection Hrun as <- <- <- <-. right. split; [reflexivity|].
        eexists. split; [reflexivity|].
        exists slot, vals, roots, p, s1. auto.
    + rewrite (proj2 (preparation_panics hdr _ _ _ _ Hslot Hvals Hpanic)) in Hrun.
      discriminate.
  - intros slot vals roots idx s0. split_and!.
    + intros top e Htop. unfold ProveValidatorAgainstBeaconState. rewrite Htop.
      reflexivity.
    + intros top vp e s1 Htop Hvp. unfold ProveValidatorAgainstBeaconState.
      rewrite Htop. cbn [nonnil]. rewrite go_bind_unfold, Hvp. reflexivity.
    + intros tree e s1 Htree. unfold ProveValidatorAgainstValidatorList.
      rewrite go_bind_unfold, Htree. reflexivity.
    + intros tree leaf e s1 Htree Hleaf. unfold ProveValidatorAgainstValidatorList.
      rewrite go_bind_unfold, Htree. cbn [nonnil]. rewrite Hleaf. reflexivity.
  - intros indices. unfold ProveValidatorContainers. rewrite go_bind_unfold.
    pose proof (ProveValidatorContainers_head_state hdr st s) as Hs.
    destruct (ProveValidatorContainers_head hdr st s) as [[early|l] s1|p s1];
      cbn [state_after] in Hs; [exact Hs| |exact Hs].
    eapply helper_trace_trans; [exact Hs|].
    unfold ProveValidatorContainers_tail.
    destruct (nonnil (cl_err l)); [apply trace_done|].
    destruct (ProveStateRootAgainstBlockHeader hdr) as [p perr].
    rewrite go_bind_unfold.
    destruct (StateRootProof_ (cl_params l)) as [sp|]; cbn [deref];
      unfold go_ret, go_panic; [|apply trace_done].
    destruct (nonnil perr); [apply trace_done|].
    apply ProveValidatorContainers_loop_state.
  - intros idx. unfold ProveValidatorFields. rewrite go_bind_unfold.
    pose proof (ProveValidatorFields_head_state hdr st s) as Hs.
    destruct (ProveValidatorFields_head hdr st s) as [[early|l] s1|p s1];
      cbn [state_after] in Hs; [exact Hs| |exact Hs].
    eapply helper_trace_trans; [exact Hs|].
    unfold ProveValidatorFields_tail.
    destruct (nonnil (fl_err l)); [apply trace_done|].
    destruct (ProveStateRootAgainstBlockHeader hdr) as [p perr].
    destruct (nonnil perr); [apply trace_done|].
    rewrite go_bind_unfold.
    pose proof (ProveValidatorAgainstBeaconState_state st (fl_slot l) (fl_validators l)
                  (fl_topLevelRoots l) idx s1) as Hv.
    destruct (ProveValidatorAgainstBeaconState (fl_slot l) (fl_validators l)
                (fl_topLevelRoots l) idx s1) as [[vp [e|]] s2|q s2];
      cbn [nonnil state_after] in *; exact Hv.
Qed.

End NoPartialResultsFacts.

Lemma no_partial_results_witness :
  exists s',
    fails_containers Fixture.hdr Fixture.st [0; 2 ^ 40]%Z Fixture.epp
      ErrIndexOutOfRange s' /\
    ProveValidatorContainers Fixture.hdr Fixture.st [0; 2 ^ 40]%Z Fixture.epp
      = Returns (None, Some ErrIndexOutOfRange) s'.
Proof.
  assert (exists s',
             fails_containers Fixture.hdr Fixture.st [0; 2 ^ 40]%Z Fixture.epp
               ErrIndexOutOfRange s') as [s' Hfail].
  { eexists. right. eexists _, _, _, _, _, [0%Z], (2 ^ 40)%Z, [], _, _, _, _.
    split_and!.
    - split_and!; vm_compute; reflexivity.
    - reflexivity.
    - econstructor; [vm_compute; reflexivity | lia | vm_compute; reflexivity | constructor].
    - vm_compute. reflexivity. }
  exists s'. split; [exact Hfail|].
  apply (proj1 (no_partial_results Fixture.hdr Fixture.st Fixture.epp)). exact Hfail.
Defined.

(** C5, as stated, fails in its last part: a call of [ProveValidatorFields]
    for the index [2^40] on a receiver with an empty cache fails with
    [ErrIndexOutOfRange] and returns [nil] results, after the top-level roots
    and the validator tree of the slot have been stored in the cache. *)
Lemma failed_call_leaves_cache_entries :
  exists s' entry,
    ProveValidatorFields Fixture.hdr Fixture.st (2 ^ 40) Fixture.epp
      = Returns (None, [], Some ErrIndexOutOfRange) s' /\
    cache Fixture.epp = ∅ /\
    cache s' !! (100%Z, DataVersionDeneb) = Some entry /\
    cache s' <> cache Fixture.epp.
Proof.
  eexists _, _. split_and!.
  - vm_compute. reflexivity.
  - reflexivity.
  - vm_compute. reflexivity.
  - intros Heq. apply (f_equal (fun m => m !! (100%Z, DataVersionDeneb))) in Heq.
    vm_compute in Heq. discriminate.
Qed.

(* ================================================================== *)
(** ** Determinism and the cache *)

(** The live entries of the cache under the keys of the state's slot were
    built from this state. *)
Definition built_from (st : VersionedBeaconState) (epp : EigenPodProofs) : Prop :=
  forall bs, State st = Some bs ->
    (forall e r,
        Cache.lookup epp (Slot bs, Version st) = Some e ->
        entry_top_level_roots e = Some r ->
        r = SSZ.top_level_roots (Version st) bs) /\
    (forall e t,
        Cache.lookup epp (Slot bs, fork_schedule epp (Slot bs)) = Some e ->
        entry_validator_layers e = Some t ->
        t = SSZ.validator_tree (Validators bs) /\ (len (Validators bs) <= 2 ^ 40)%Z).

(** A computation that yields the same to its caller from every receiver
    whose entries were built from the state, and keeps the receiver so. *)
Definition stable {A} (st : VersionedBeaconState) (m : Go EigenPodProofs A) : Prop :=
  forall s1 s2, built_from st s1 -> built_from st s2 ->
    yields (m s1) = yields (m s2) /\ built_from st (state_after (m s1)).

Lemma stable_ret {A} st (a : A) : stable st (mret a).
Proof. intros s1 s2 H1 H2. split; [reflexivity | exact H1]. Qed.

Lemma stable_panic {A} st p : stable st (go_panic p : Go EigenPodProofs A).
Proof. intros s1 s2 H1 H2. split; [reflexivity | exact H1]. Qed.

Lemma stable_bind {A B} st (m : Go EigenPodProofs A) (k : A -> Go EigenPodProofs B) :
  stable st m -> (forall a, stable st (k a)) -> stable st (m ≫= k).
Proof.
  intros Hm Hk s1 s2 H1 H2. rewrite !go_bind_unfold.
  destruct (Hm s1 s2 H1 H2) as [Hy Hs1].
  destruct (Hm s2 s1 H2 H1) as [_ Hs2].
  destruct (m s1) as [a s1'|p s1'], (m s2) as [a' s2'|p' s2'];
    cbn [yields state_after] in *; try discriminate.
  - injection Hy as <-. apply Hk; assumption.
  - injection Hy as <-. split; [reflexivity | exact Hs1].
Qed.

Lemma stable_slice_index {A} st (l : list A) i :
  stable st (slice_index l i : Go EigenPodProofs A).
Proof.
  unfold slice_index.
  destruct ((0 <=? i)%Z && (i <? len l)%Z); [|apply stable_panic].
  destruct (l !! Z.to_nat i); [apply stable_ret | apply stable_panic].
Qed.

Lemma stable_deref {A} st (p : option A) : stable st (deref p : Go EigenPodProofs A).
Proof. destruct p; [apply stable_ret | apply stable_panic]. Qed.

Lemma stable_BigToLittleEndian st n :
  stable st (BigToLittleEndian n : Go EigenPodProofs Bytes32).
Proof.
  unfold BigToLittleEndian. destruct (2 ^ 64 <? n)%Z; [apply stable_panic | apply stable_ret].
Qed.

(** A lookup after an entry has been stored. *)
Lemma lookup_with_cache epp k e k' :
  Cache.lookup (with_cache epp (<[k := e]> (cache epp))) k'
  = if decide (k = k')
    then if (oracle_state_cache_expiry_seconds epp <? now epp - created_at e)%Z
         then None else Some e
    else Cache.lookup epp k'.
Proof.
  unfold Cache.lookup, with_cache. cbn [cache oracle_state_cache_expiry_seconds now].
  destruct (decide (k = k')) as [<-|Hne].
  - rewrite lookup_insert_eq. reflexivity.
  - rewrite lookup_insert_ne by exact Hne. reflexivity.
Qed.

Lemma live_entry_top_level_roots epp k r :
  entry_top_level_roots (Cache.live_entry epp k) = Some r ->
  exists e, Cache.lookup epp k = Some e /\ entry_top_level_roots e = Some r.
Proof.
  unfold Cache.live_entry. destruct (Cache.lookup epp k) as [e|]; cbn; [eauto|discriminate].
Qed.

Lemma live_entry_validator_layers epp k t :
  entry_validator_layers (Cache.live_entry epp k) = Some t ->
  exists e, Cache.lookup epp k = Some e /\ entry_validator_layers e = Some t.
Proof.
  unfold Cache.live_entry. destruct (Cache.lookup epp k) as [e|]; cbn; [eauto|discriminate].
Qed.

(** What [ComputeValidatorTree] yields for the validators of the state. *)
Definition tree_of (vals : list Validator) : Tree * error :=
  if (2 ^ 40 <? len vals)%Z then ([], Some ErrInternalTree)
  else (SSZ.validator_tree vals, None).

Lemma ComputeValidatorTree_built_from st bs s :
  State st = Some bs -> built_from st s ->
  yields (ComputeValidatorTree_model (Slot bs) (Validators bs) s)
    = inl (tree_of (Validators bs)) /\
  built_from st (state_after (ComputeValidatorTree_model (Slot bs) (Validators bs) s)).
Proof.
  intros Hst Hs. unfold ComputeValidatorTree_model, tree_of.
  destruct (Hs bs Hst) as [Hroots Htree].
  destruct (Cache.lookup s (Slot bs, fork_schedule s (Slot bs))) as [e|] eqn:Hlook;
    cbn [mbind option_bind].
  - destruct (entry_validator_layers e) as [t|] eqn:Ht.
    + destruct (Htree e t eq_refl Ht) as [-> Hcap].
      destruct (Z.ltb_spec (2 ^ 40) (len (Validators bs))); [lia|].
      split; [reflexivity | exact Hs].
    + destruct (2 ^ 40 <? len (Validators bs))%Z eqn:Hcap;
        [split; [reflexivity | exact Hs]|].
      split; [reflexivity|]. cbn [state_after].
      intros bs' Hst'. rewrite Hst in Hst'. injection Hst' as <-.
      cbn [fork_schedule with_cache].
      split.
      * intros e' r. rewrite lookup_with_cache.
        destruct (decide _) as [Hk|Hk]; [|apply Hroots].
        destruct (oracle_state_cache_expiry_seconds s <? _)%Z; [discriminate|]. intros [= <-].
        cbn [Cache.set_validator_layers entry_top_level_roots].
        intros Hr. apply live_entry_top_level_roots in Hr as (e0 & He0 & Hr).
        rewrite <- Hk in Hroots. exact (Hroots e0 r He0 Hr).
      * intros e' t. rewrite lookup_with_cache.
        destruct (decide _) as [_|Hk]; [|contradiction].
        destruct (oracle_state_cache_expiry_seconds s <? _)%Z; [discriminate|]. intros [= <-].
        cbn [Cache.set_validator_layers entry_validator_layers]. intros [= <-].
        split; [reflexivity|]. apply Z.ltb_ge in Hcap. exact Hcap.
  - destruct (2 ^ 40 <? len (Validators bs))%Z eqn:Hcap;
      [split; [reflexivity | exact Hs]|].
    split; [reflexivity|]. cbn [state_after].
    intros bs' Hst'. rewrite Hst in Hst'. injection Hst' as <-.
    cbn [fork_schedule with_cache].
    split.
    + intros e' r. rewrite lookup_with_cache.
      destruct (decide _) as [Hk|Hk]; [|apply Hroots].
      destruct (oracle_state_cache_expiry_seconds s <? _)%Z; [discriminate|]. intros [= <-].
      cbn [Cache.set_validator_layers entry_top_level_roots].
      intros Hr. apply live_entry_top_level_roots in Hr as (e0 & He0 & Hr).
      rewrite Hlook in He0. discriminate.
    + intros e' t. rewrite lookup_with_cache.
      destruct (decide _) as [_|Hk]; [|contradiction].
      destruct (oracle_state_cache_expiry_seconds s <? _)%Z; [discriminate|]. intros [= <-].
      cbn [Cache.set_validator_layers entry_validator_layers]. intros [= <-].
      split; [reflexivity|]. apply Z.ltb_ge in Hcap. exact Hcap.
Qed.

(** What [ComputeBeaconStateTopLevelRoots] yields for the state. *)
Definition roots_of (st : VersionedBeaconState) : BeaconStateTopLevelRoots * error :=
  match Version st, State st with
  | DataVersionUnknown, _ => ([], Some ErrUnknownFork)
  | _, None => ([], Some ErrStateAccess)
  | v, Some bs => (SSZ.top_level_roots v bs, None)
  end.

Lemma load_or_compute_top_level_roots_built_from st bs s :
  State st = Some bs -> built_from st s ->
  yields (load_or_compute_top_level_roots (Version st) bs s)
    = inl (SSZ.top_level_roots (Version st) bs, None) /\
  built_from st (state_after (load_or_compute_top_level_roots (Version st) bs s)).
Proof.
  intros Hst Hs. unfold load_or_compute_top_level_roots.
  destruct (Hs bs Hst) as [Hroots Htree].
  destruct (Cache.lookup s (Slot bs, Version st)) as [e|] eqn:Hlook;
    cbn [mbind option_bind].
  - destruct (entry_top_level_roots e) as [r|] eqn:Hr.
    + rewrite (Hroots e r eq_refl Hr). split; [reflexivity | exact Hs].
    + split; [reflexivity|]. cbn [state_after].
      intros bs' Hst'. rewrite Hst in Hst'. injection Hst' as <-.
      cbn [fork_schedule with_cache]. split.
      * intros e' r. rewrite lookup_with_cache.
        destruct (decide _) as [_|Hk]; [|contradiction].
        destruct (oracle_state_cache_expiry_seconds s <? _)%Z; [discriminate|].
        intros [= <-].
        cbn [Cache.set_top_level_roots entry_top_level_roots]. intros [= <-].
        reflexivity.
      * intros e' t. rewrite lookup_with_cache.
        destruct (decide _) as [Hk|Hk]; [|apply Htree].
        destruct (oracle_state_cache_expiry_seconds s <? _)%Z; [discriminate|].
        intros [= <-].
        cbn [Cache.set_top_level_roots entry_validator_layers].
        intros Ht. apply live_entry_validator_layers in Ht as (e0 & He0 & Ht).
        rewrite Hk in He0. exact (Htree e0 t He0 Ht).
  - split; [reflexivity|]. cbn [state_after].
    intros bs' Hst'. rewrite Hst in Hst'. injection Hst' as <-.
    cbn [fork_schedule with_cache]. split.
    + intros e' r. rewrite lookup_with_cache.
      destruct (decide _) as [_|Hk]; [|contradiction].
      destruct (oracle_state_cache_expiry_seconds s <? _)%Z; [discriminate|].
      intros [= <-].
      cbn [Cache.set_top_level_roots entry_top_level_roots]. intros [= <-].
      reflexivity.
    + intros e' t. rewrite lookup_with_cache.
      destruct (decide _) as [Hk|Hk]; [|apply Htree].
      destruct (oracle_state_cache_expiry_seconds s <? _)%Z; [discriminate|].
      intros [= <-].
      cbn [Cache.set_top_level_roots entry_validator_layers].
      intros Ht. apply live_entry_validator_layers in Ht as (e0 & He0 & Ht).
      rewrite Hk in He0. exact (Htree e0 t He0 Ht).
Qed.

Lemma ComputeBeaconStateTopLevelRoots_built_from st s :
  built_from st s ->
  yields (ComputeBeaconStateTopLevelRoots_model st s) = inl (roots_of st) /\
  built_from st (state_after (ComputeBeaconStateTopLevelRoots_model st s)).
Proof.
  intros Hs. unfold ComputeBeaconStateTopLevelRoots_model, roots_of.
  destruct (State st) as [bs|] eqn:Hst;
    [|destruct (Version st); split; solve [reflexivity | exact Hs]].
  pose proof (load_or_compute_top_level_roots_built_from st bs s Hst Hs) as Hgen.
  destruct (Version st) eqn:Hv;
    [split; [reflexivity | exact Hs] | exact Hgen..].
Qed.

Lemma stable_bind_post {A B} st (Q : A -> Prop)
    (m : Go EigenPodProofs A) (k : A -> Go EigenPodProofs B) :
  stable st m ->
  (forall s a s', m s = Returns a s' -> Q a) ->
  (forall a, Q a -> stable st (k a)) ->
  stable st (m ≫= k).
Proof.
  intros Hm HQ Hk s1 s2 H1 H2. rewrite !go_bind_unfold.
  destruct (Hm s1 s2 H1 H2) as [Hy Hs1].
  destruct (Hm s2 s1 H2 H1) as [_ Hs2].
  pose proof (HQ s1) as HQ1.
  destruct (m s1) as [a s1'|p s1'], (m s2) as [a' s2'|p' s2'];
    cbn [yields state_after] in *; try discriminate.
  - injection Hy as <-. apply Hk; [eapply HQ1; reflexivity | assumption..].
  - injection Hy as <-. split; [reflexivity | exact Hs1].
Qed.

Lemma stable_ComputeValidatorTree st bs :
  State st = Some bs ->
  stable st (ComputeValidatorTree (Slot bs) (Validators bs)).
Proof.
  intros Hst s1 s2 H1 H2.
  destruct (ComputeValidatorTree_built_from st bs s1 Hst H1) as [Hy1 Hb1].
  destruct (ComputeValidatorTree_built_from st bs s2 Hst H2) as [Hy2 _].
  split; [|exact Hb1].
  change (ComputeValidatorTree (Slot bs) (Validators bs))
    with (ComputeValidatorTree_model (Slot bs) (Validators bs)).
  rewrite Hy1, Hy2. reflexivity.
Qed.

Lemma stable_ComputeBeaconStateTopLevelRoots st :
  stable st (ComputeBeaconStateTopLevelRoots st).
Proof.
  intros s1 s2 H1 H2.
  destruct (ComputeBeaconStateTopLevelRoots_built_from st s1 H1) as [Hy1 Hb1].
  destruct (ComputeBeaconStateTopLevelRoots_built_from st s2 H2) as [Hy2 _].
  split; [|exact Hb1].
  change (ComputeBeaconStateTopLevelRoots st)
    with (ComputeBeaconStateTopLevelRoots_model st).
  rewrite Hy1, Hy2. reflexivity.
Qed.

Lemma stable_ProveValidatorAgainstValidatorList st bs idx :
  State st = Some bs ->
  stable st (ProveValidatorAgainstValidatorList (Slot bs) (Validators bs) idx).
Proof.
  intros Hst. unfold ProveValidatorAgainstValidatorList.
  apply stable_bind; [apply stable_ComputeValidatorTree; exact Hst|].
  intros [tree [e|]]; cbn [nonnil]; [apply stable_ret|].
  destruct (ComputeMerkleProofFromTree tree idx ValidatorListMerkleSubtreeNumLayers)
    as [leaf [e|]]; cbn [nonnil]; [apply stable_ret|].
  apply stable_bind; [apply stable_BigToLittleEndian|].
  intros c. apply stable_ret.
Qed.

Lemma stable_ProveValidatorAgainstBeaconState st bs roots idx :
  State st = Some bs ->
  stable st (ProveValidatorAgainstBeaconState (Slot bs) (Validators bs) roots idx).
Proof.
  intros Hst. unfold ProveValidatorAgainstBeaconState.
  destruct (ProveBeaconTopLevelRootAgainstBeaconState roots ValidatorListIndex)
    as [top [e|]]; cbn [nonnil]; [apply stable_ret|].
  apply stable_bind; [apply stable_ProveValidatorAgainstValidatorList; exact Hst|].
  intros [vp [e|]]; cbn [nonnil]; apply stable_ret.
Qed.

Lemma stable_ProveValidatorContainers_loop st bs roots rest :
  State st = Some bs ->
  forall i params,
    stable st
      (ProveValidatorContainers_loop (Slot bs) (Validators bs) roots i rest params).
Proof.
  intros Hst. induction rest as [|idx rest IH]; intros i params;
    cbn [ProveValidatorContainers_loop]; [apply stable_ret|].
  apply stable_bind; [apply stable_ProveValidatorAgainstBeaconState; exact Hst|].
  intros [proof [e|]]; cbn [nonnil]; [apply stable_ret|].
  apply stable_bind; [apply stable_slice_index|].
  intros v. apply IH.
Qed.

Lemma state_access_both st slot vals :
  VersionedBeaconState_Slot st = (slot, None) ->
  VersionedBeaconState_Validators st = (vals, None) ->
  exists bs, State st = Some bs /\ slot = Slot bs /\ vals = Validators bs.
Proof.
  unfold VersionedBeaconState_Slot, VersionedBeaconState_Validators, state_access.
  destruct (State st) as [bs|]; destruct (Version st); try discriminate;
    intros [= <-] [= <-]; eauto.
Qed.

Lemma stable_ProveValidatorContainers hdr st indices :
  stable st (ProveValidatorContainers hdr st indices).
Proof.
  unfold ProveValidatorContainers.
  apply stable_bind_post with
    (Q := fun r => match r with
                   | inl _ => True
                   | inr l => exists bs, State st = Some bs /\
                                         cl_slot l = Slot bs /\
                                         cl_validators l = Validators bs
                   end).
  - unfold ProveValidatorContainers_head.
    destruct (VersionedBeaconState_Slot st) as [slot [e|]];
      cbn [nonnil]; [apply stable_ret|].
    destruct (VersionedBeaconState_Validators st) as [vals [e|]];
      cbn [nonnil]; [apply stable_ret|].
    apply stable_bind; [apply stable_ComputeBeaconStateTopLevelRoots|].
    intros [roots [e|]]; cbn [nonnil]; apply stable_ret.
  - intros s [early|l] s' Hhead; [exact I|].
    apply ProveValidatorContainers_head_validators in Hhead
      as (Hvals & Hslot & Herr & _).
    destruct (VersionedBeaconState_Slot st) as [slot serr] eqn:Hs.
    destruct (VersionedBeaconState_Validators st) as [vals verr] eqn:Hv.
    cbn [fst snd] in *. subst verr.
    assert (serr = None) as ->.
    { unfold VersionedBeaconState_Slot, VersionedBeaconState_Validators,
        state_access in Hs, Hv.
      destruct (Version st), (State st); congruence. }
    destruct (state_access_both st slot vals Hs Hv) as (bs & Hst & -> & ->).
    eauto.
  - intros [early|l] HQ; [apply stable_ret|].
    destruct HQ as (bs & Hst & Hslot & Hvals).
    unfold ProveValidatorContainers_tail. rewrite Hslot, Hvals.
    destruct (nonnil (cl_err l)); [apply stable_ret|].
    destruct (ProveStateRootAgainstBlockHeader hdr) as [p perr].
    apply stable_bind; [apply stable_deref|].
    intros sp. destruct (nonnil perr); [apply stable_ret|].
    apply stable_ProveValidatorContainers_loop. exact Hst.
Qed.

(** A receiver whose cache is empty holds no entry that was built from
    another state. *)
Lemma built_from_empty st epp : cache epp = ∅ -> built_from st epp.
Proof.
  intros Hempty bs _. unfold Cache.lookup. rewrite Hempty.
  split; intros e x; rewrite lookup_empty; discriminate.
Qed.

(** C7 (amended).  Two invocations of [ProveValidatorContainers] with
    the same block header, beacon state and index list yield the same to
    their callers whenever, in both receivers, the live cache entries of the
    state's slot were built from that state; an empty cache is such a
    receiver, and a receiver stays one through the call, so that repeating
    the call repeats its result. *)
Theorem ProveValidatorContainers_deterministic hdr st indices s1 s2 :
  built_from st s1 -> built_from st s2 ->
  yields (ProveValidatorContainers hdr st indices s1)
    = yields (ProveValidatorContainers hdr st indices s2) /\
  built_from st (state_after (ProveValidatorContainers hdr st indices s1)) /\
  yields (ProveValidatorContainers hdr st indices
            (state_after (ProveValidatorContainers hdr st indices s1)))
    = yields (ProveValidatorContainers hdr st indices s1).
Proof.
  intros H1 H2.
  destruct (stable_ProveValidatorContainers hdr st indices s1 s2 H1 H2) as [Hy Hb].
  split_and!; [exact Hy | exact Hb |].
  exact (proj1 (stable_ProveValidatorContainers hdr st indices _ _ Hb H1)).
Qed.

Lemma ProveValidatorContainers_deterministic_witness :
  built_from Fixture.st Fixture.epp /\
  yields (ProveValidatorContainers Fixture.hdr Fixture.st [0%Z]
            (state_after (ProveValidatorContainers Fixture.hdr Fixture.st [0%Z] Fixture.epp)))
    = yields (ProveValidatorContainers Fixture.hdr Fixture.st [0%Z] Fixture.epp).
Proof.
  assert (built_from Fixture.st Fixture.epp) as Hcold
    by (apply built_from_empty; reflexivity).
  split; [exact Hcold|].
  exact (proj2 (proj2 (ProveValidatorContainers_deterministic
                         Fixture.hdr Fixture.st [0%Z] Fixture.epp Fixture.epp
                         Hcold Hcold))).
Defined.

(** The first sibling of the first proof of a result. *)
Definition first_sibling
    (y : (option VerifyValidatorFieldsCallParams * error) + panic) : option Bytes32 :=
  match y with
  | inl (Some P, _) => head (ValidatorFieldsProofs P) ≫= head
  | _ => None
  end.

(** C7, as stated, fails: the same header, state and index list give
    different proofs on a receiver with an empty cache and on a receiver
    that has served another state of the same slot and fork. *)
Lemma ProveValidatorContainers_depends_on_cache :
  cache Fixture.epp = ∅ /\
  Fixture.epp_warm
    = state_after (ProveValidatorContainers Fixture.hdr Fixture.st [0%Z] Fixture.epp) /\
  yields (ProveValidatorContainers Fixture.hdr' Fixture.st' [0%Z] Fixture.epp)
  <> yields (ProveValidatorContainers Fixture.hdr' Fixture.st' [0%Z] Fixture.epp_warm).
Proof.
  split_and!; [reflexivity..|].
  intros Heq. apply (f_equal first_sibling) in Heq.
  vm_compute in Heq. discriminate.
Qed.

(* ================================================================== *)
(** * More of the prover *)

Section ProverComposition.
Context {EPP : Type} `{!ProverDeps EPP}.

Lemma slice_index_in_range {A} (l : list A) (i : Z) (s : EPP) x :
  (0 <= i)%Z -> l !! Z.to_nat i = Some x -> slice_index l i s = Returns x s.
Proof.
  intros Hi Hx. unfold slice_index.
  apply lookup_lt_Some in Hx as Hlt.
  destruct (Z.leb_spec 0 i); [|lia].
  destruct (Z.ltb_spec i (len l)); [|unfold len in *; lia].
  cbn [andb]. rewrite Hx. reflexivity.
Qed.

(** X1.  For one index, [ProveValidatorContainers] succeeds exactly when
    [ProveValidatorFields] succeeds and the index is below the number of
    validators; it then leaves the receiver in the same state and returns
    the same state-root proof and validator proof, with the fields of that
    validator. *)
Theorem ProveValidatorContainers_single hdr st idx (s : EPP) P s' :
  ProveValidatorContainers hdr st [idx] s = Returns (Some P, None) s' <->
  exists sp proof v,
    ProveValidatorFields hdr st idx s = Returns (Some sp, proof, None) s' /\
    (0 <= idx)%Z /\
    (VersionedBeaconState_Validators st).1 !! Z.to_nat idx = Some v /\
    P = {| OracleTimestamp := GetSlotTimestamp st hdr;
           StateRootProof_ := Some sp;
           ValidatorIndices := [idx];
           ValidatorFieldsProofs := [proof];
           ValidatorFields := [ConvertValidatorToValidatorFields v] |}.
Proof.
  unfold ProveValidatorContainers, ProveValidatorFields,
    ProveValidatorContainers_head, ProveValidatorFields_head,
    ProveValidatorContainers_tail, ProveValidatorFields_tail, nil3.
  destruct (VersionedBeaconState_Slot st) as [slot [e|]]; cbn [nonnil].
  { rewrite !go_bind_unfold, !go_ret_unfold.
    split; [discriminate | intros (?&?&?&[=]&_)]. }
  destruct (VersionedBeaconState_Validators st) as [vals [e|]]; cbn [nonnil fst].
  { rewrite !go_bind_unfold, !go_ret_unfold.
    split; [discriminate | intros (?&?&?&[=]&_)]. }
  rewrite !go_bind_unfold.
  destruct (ComputeBeaconStateTopLevelRoots st s) as [[roots [e|]] s1|p s1];
    cbn [nonnil].
  { rewrite !go_ret_unfold. split; [discriminate | intros (?&?&?&[=]&_)]. }
  2:{ split; [discriminate | intros (?&?&?&[=]&_)]. }
  rewrite !go_ret_unfold.
  cbn [cl_err fl_err nonnil cl_params with_StateRootProof StateRootProof_
         fl_stateRootProof BeaconStateRoot cl_slot cl_validators cl_topLevelRoots
         fl_slot fl_validators fl_topLevelRoots].
  destruct (ProveStateRootAgainstBlockHeader hdr) as [p [e|]];
    rewrite ?go_bind_unfold; cbn [deref]; unfold go_ret; cbn [nonnil].
  { split; [discriminate | intros (?&?&?&[=]&_)]. }
  cbn [ProveValidatorContainers_loop len length make Z.to_nat Pos.to_nat
         Pos.iter_op Nat.add replicate].
  rewrite !go_bind_unfold.
  destruct (ProveValidatorAgainstBeaconState slot vals roots idx s1)
    as [[proof [e|]] s2|q s2]; cbn [nonnil].
  { rewrite ?go_ret_unfold. split; [discriminate | intros (?&?&?&[=]&_)]. }
  2:{ split; [discriminate | intros (?&?&?&[=]&_)]. }
  rewrite go_bind_unfold, ?go_ret_unfold.
  destruct (slice_index vals idx s2) as [v s3|q s3] eqn:Hv.
  - apply slice_index_returns in Hv as (Hidx & Hv & ->).
    cbn. split.
    + intros [= <- <-]. eexists _, proof, v.
      split_and!; [reflexivity | lia | exact Hv | reflexivity].
    + intros (sp & proof' & v' & [= <- <- <-] & _ & Hv' & ->).
      rewrite Hv in Hv'. injection Hv' as <-. reflexivity.
  - split; [discriminate|].
    intros (sp & proof' & v' & _ & Hpos & Hv' & _).
    rewrite (slice_index_in_range vals idx s2 v' Hpos Hv') in Hv. discriminate.
Qed.


(** X2.  [ProveValidatorFields] does not compare the index with the number
    of validators: when it returns a proof for an index that is not below
    that number, [ProveValidatorContainers] for the same index makes the same
    calls and then panics at [oracleBeaconStateValidators[validatorIndex]],
    with the receiver in the state [ProveValidatorFields] leaves. *)
Theorem ProveValidatorFields_unchecked_index hdr st idx (s : EPP) sp proof s' :
  ProveValidatorFields hdr st idx s = Returns (Some sp, proof, None) s' ->
  (validator_count st <= idx)%Z ->
  ProveValidatorContainers hdr st [idx] s
  = Panics (IndexOutOfRange idx (validator_count st)) s'.
Proof.
  unfold validator_count, ProveValidatorContainers, ProveValidatorFields,
    ProveValidatorContainers_head, ProveValidatorFields_head,
    ProveValidatorContainers_tail, ProveValidatorFields_tail, nil3.
  destruct (VersionedBeaconState_Slot st) as [slot [e|]]; cbn [nonnil];
    [rewrite !go_bind_unfold, !go_ret_unfold; discriminate|].
  destruct (VersionedBeaconState_Validators st) as [vals [e|]]; cbn [nonnil fst];
    [rewrite !go_bind_unfold, !go_ret_unfold; discriminate|].
  rewrite !go_bind_unfold.
  destruct (ComputeBeaconStateTopLevelRoots st s) as [[roots [e|]] s1|p s1];
    cbn [nonnil]; rewrite ?go_ret_unfold; try discriminate.
  cbn [cl_err fl_err nonnil cl_params with_StateRootProof StateRootProof_
         fl_stateRootProof BeaconStateRoot cl_slot cl_validators cl_topLevelRoots
         fl_slot fl_validators fl_topLevelRoots].
  destruct (ProveStateRootAgainstBlockHeader hdr) as [p [e|]];
    rewrite ?go_bind_unfold; cbn [deref]; unfold go_ret; cbn [nonnil];
    [discriminate|].
  cbn [ProveValidatorContainers_loop].
  rewrite !go_bind_unfold.
  destruct (ProveValidatorAgainstBeaconState slot vals roots idx s1)
    as [[proof' [e|]] s2|q s2]; cbn [nonnil]; rewrite ?go_ret_unfold;
    try discriminate.
  intros [= _ _ <-] Hidx. rewrite go_bind_unfold.
  rewrite slice_index_out_of_range by exact Hidx. reflexivity.
Qed.

(** X3.  For an empty index list, [ProveValidatorContainers] succeeds exactly
    when the accessors, [ComputeBeaconStateTopLevelRoots] and
    [ProveStateRootAgainstBlockHeader] succeed; it returns an object with
    three empty lists, never calls [ComputeValidatorTree], and leaves the
    receiver as [ComputeBeaconStateTopLevelRoots] left it. *)
Theorem ProveValidatorContainers_no_indices hdr st (s : EPP) P s' :
  ProveValidatorContainers hdr st [] s = Returns (Some P, None) s' <->
  (VersionedBeaconState_Slot st).2 = None /\
  (VersionedBeaconState_Validators st).2 = None /\
  exists roots p,
    ComputeBeaconStateTopLevelRoots st s = Returns (roots, None) s' /\
    ProveStateRootAgainstBlockHeader hdr = (p, None) /\
    P = {| OracleTimestamp := GetSlotTimestamp st hdr;
           StateRootProof_ :=
             Some {| BeaconStateRoot := StateRoot hdr; StateRootProof_Proof := p |};
           ValidatorIndices := [];
           ValidatorFieldsProofs := [];
           ValidatorFields := [] |}.
Proof.
  unfold ProveValidatorContainers, ProveValidatorContainers_head,
    ProveValidatorContainers_tail.
  destruct (VersionedBeaconState_Slot st) as [slot [e|]]; cbn [nonnil snd].
  { rewrite !go_bind_unfold, !go_ret_unfold.
    split; [discriminate | intros ([=]&_)]. }
  destruct (VersionedBeaconState_Validators st) as [vals [e|]]; cbn [nonnil snd].
  { rewrite !go_bind_unfold, !go_ret_unfold.
    split; [discriminate | intros (_&[=]&_)]. }
  rewrite !go_bind_unfold.
  destruct (ComputeBeaconStateTopLevelRoots st s) as [[roots [e|]] s1|q s1];
    cbn [nonnil]; rewrite ?go_ret_unfold.
  { split; [discriminate | intros (_&_&?&?&[=]&_)]. }
  2:{ split; [discriminate | intros (_&_&?&?&[=]&_)]. }
  cbn [cl_err nonnil cl_params with_StateRootProof StateRootProof_
         BeaconStateRoot cl_slot cl_validators cl_topLevelRoots].
  destruct (ProveStateRootAgainstBlockHeader hdr) as [p [e|]];
    rewrite ?go_bind_unfold; cbn [deref]; unfold go_ret; cbn [nonnil].
  { split; [discriminate | intros (_&_&?&?&_&[=]&_)]. }
  cbn. split.
  - intros [= <- <-]. split_and!; try reflexivity. exists roots, p. auto.
  - intros (_ & _ & roots' & p' & [= <- <-] & [= <-] & ->). reflexivity.
Qed.

(** The loop on a list and on a prefix of it: the same calls are made for
    the prefix, whatever the sizes of the result slices. *)
Lemma ProveValidatorContainers_loop_prefix slot vals roots l1 l2 :
  forall i params params' (s : EPP) P s',
    ProveValidatorContainers_loop slot vals roots i (l1 ++ l2) params s
      = Returns (Some P, None) s' ->
    length (ValidatorIndices params) = (i + length (l1 ++ l2))%nat ->
    length (ValidatorFieldsProofs params) = (i + length (l1 ++ l2))%nat ->
    length (ValidatorFields params) = (i + length (l1 ++ l2))%nat ->
    length (ValidatorIndices params') = (i + length l1)%nat ->
    length (ValidatorFieldsProofs params') = (i + length l1)%nat ->
    length (ValidatorFields params') = (i + length l1)%nat ->
    take i (ValidatorIndices params') = take i (ValidatorIndices params) ->
    take i (ValidatorFieldsProofs params') = take i (ValidatorFieldsProofs params) ->
    take i (ValidatorFields params') = take i (ValidatorFields params) ->
    exists P1 s1,
      ProveValidatorContainers_loop slot vals roots i l1 params' s
        = Returns (Some P1, None) s1 /\
      OracleTimestamp P1 = OracleTimestamp params' /\
      StateRootProof_ P1 = StateRootProof_ params' /\
      ValidatorIndices P1 = take (i + length l1) (ValidatorIndices P) /\
      ValidatorFieldsProofs P1 = take (i + length l1) (ValidatorFieldsProofs P) /\
      ValidatorFields P1 = take (i + length l1) (ValidatorFields P).
Proof.
  induction l1 as [|idx l1 IH];
    intros i params params' s P s' Hrun Hi Hp Hf Hi' Hp' Hf' Ti Tp Tf.
  - cbn [app length] in *. rewrite Nat.add_0_r in *.
    apply ProveValidatorContainers_loop_returns in Hrun; try assumption.
    destruct Hrun as [[[=] _]|(_ & P0 & proofs & fields & [= <-] & _ & _ & HI & HP & HF & _)].
    exists params', s. cbn [ProveValidatorContainers_loop].
    rewrite HI, HP, HF, !take_app_length'
      by (rewrite length_take; lia).
    rewrite <- Ti, <- Tp, <- Tf, !take_ge by lia.
    split_and!; reflexivity.
  - cbn [app length ProveValidatorContainers_loop] in *.
    rewrite go_bind_unfold in Hrun |- *.
    destruct (ProveValidatorAgainstBeaconState slot vals roots idx s)
      as [[proof [e|]] s1|q s1]; cbn [nonnil] in *; try discriminate.
    rewrite go_bind_unfold in Hrun |- *.
    destruct (slice_index vals idx s1) as [v s2|q s2]; [|discriminate].
    apply IH with (params' := with_fields i (ConvertValidatorToValidatorFields v)
                                (with_proof i proof (with_index i idx params')))
      in Hrun;
      cbn [with_fields with_proof with_index ValidatorIndices ValidatorFieldsProofs
             ValidatorFields OracleTimestamp StateRootProof_];
      rewrite ?length_insert; try lia.
    + destruct Hrun as (P1 & s3 & Hrun & Ht & Hs & HI & HP & HF).
      exists P1, s3. replace (i + S (length l1))%nat with (S i + length l1)%nat by lia.
      split_and!; assumption.
    + rewrite !take_S_insert by lia. rewrite Ti. reflexivity.
    + rewrite !take_S_insert by lia. rewrite Tp. reflexivity.
    + rewrite !take_S_insert by lia. rewrite Tf. reflexivity.
Qed.

(** X4.  When [ProveValidatorContainers] succeeds for a list of indices, it
    succeeds for every prefix of the list, and the indices, proofs and
    fields it returns for the prefix are the first entries of those it
    returns for the list. *)
Theorem ProveValidatorContainers_prefix hdr st l1 l2 (s : EPP) P s' :
  ProveValidatorContainers hdr st (l1 ++ l2) s = Returns (Some P, None) s' ->
  exists P1 s1,
    ProveValidatorContainers hdr st l1 s = Returns (Some P1, None) s1 /\
    OracleTimestamp P1 = OracleTimestamp P /\
    StateRootProof_ P1 = StateRootProof_ P /\
    ValidatorIndices P1 = l1 /\
    ValidatorIndices P = l1 ++ l2 /\
    ValidatorFieldsProofs P1 = take (length l1) (ValidatorFieldsProofs P) /\
    ValidatorFields P1 = take (length l1) (ValidatorFields P).
Proof.
  unfold ProveValidatorContainers. rewrite !go_bind_unfold.
  destruct (ProveValidatorContainers_head hdr st s) as [[early|l] s1|q s1] eqn:Hhead;
    [| |discriminate].
  { apply ProveValidatorContainers_head_early in Hhead as [e ->].
    rewrite go_ret_unfold. discriminate. }
  unfold ProveValidatorContainers_tail.
  destruct (nonnil (cl_err l)); [rewrite go_ret_unfold; discriminate|].
  destruct (ProveStateRootAgainstBlockHeader hdr) as [p perr].
  rewrite !go_bind_unfold.
  destruct (deref (StateRootProof_ (cl_params l)) s1) as [sp s2|q s2]; [|discriminate].
  destruct (nonnil perr); [rewrite go_ret_unfold; discriminate|].
  intros Hrun.
  assert (forall (A : Type) (z : A) (l : list Z),
            length (make z (len l)) = (0 + length l)%nat) as Hmake.
  { intros A z l0. unfold make, len. rewrite length_replicate, Nat2Z.id. reflexivity. }
  pose proof Hrun as Hall.
  apply ProveValidatorContainers_loop_returns in Hall;
    cbn [ValidatorIndices ValidatorFieldsProofs ValidatorFields]; try apply Hmake.
  destruct Hall as [[[=] _]|(_ & P0 & proofs & fields & [= <-] & Ht & Hs & HI & _)].
  match goal with
  | |- context [ProveValidatorContainers_loop _ _ _ 0 l1 ?q s2] =>
      apply ProveValidatorContainers_loop_prefix with (params' := q) in Hrun;
        cbn [ValidatorIndices ValidatorFieldsProofs ValidatorFields];
        try apply Hmake; try reflexivity
  end.
  destruct Hrun as (P1 & s3 & Hrun & Ht1 & Hs1 & HI1 & HP1 & HF1).
  exists P1, s3.
  cbn [OracleTimestamp StateRootProof_ ValidatorIndices take app Nat.add] in *.
  rewrite Hrun, Ht, Hs, Ht1, Hs1, HI1, HP1, HF1, HI, take_0.
  cbn [app]. rewrite take_app_length.
  split_and!; reflexivity.
Qed.

End ProverComposition.

(* ================================================================== *)
(** ** Chunks of a slice *)

Lemma uint64_small x : (0 <= x < 2 ^ 64)%Z -> Core.uint64 x = x.
Proof. intros H. unfold Core.uint64. apply Z.mod_small. exact H. Qed.

Lemma slice_expr_in_range {A} (s : list A) low high :
  (0 <= low <= high)%Z -> (high <= len s)%Z ->
  Core.slice_expr s low high
  = inr (take (Z.to_nat (high - low)) (drop (Z.to_nat low) s)).
Proof.
  intros H1 H2. unfold Core.slice_expr.
  destruct (Z.leb_spec 0 low); [|lia].
  destruct (Z.leb_spec low high); [|lia].
  destruct (Z.leb_spec high (len s)); [|lia].
  reflexivity.
Qed.

(** What the loop of [chunk] appends: nonempty pieces of the rest of the
    slice, all of [chunkSize] elements but the last one. *)
Definition chunks_of {A} (chunkSize : Z) (rest : list A) (cs : list (list A)) : Prop :=
  concat cs = rest /\
  Forall (fun c => (0 < len c <= chunkSize)%Z) cs /\
  (forall k c, cs !! k = Some c -> (S k < length cs)%nat -> len c = chunkSize) /\
  len cs = ((len rest + chunkSize - 1) / chunkSize)%Z.

Lemma chunk_loop_spec {A} (arr : list A) chunkSize :
  (0 < chunkSize < 2 ^ 64)%Z -> (len arr < 2 ^ 63)%Z ->
  forall fuel i chunks,
    (i = 0 \/ chunkSize <= i)%Z -> (0 <= i < 2 ^ 64)%Z ->
    (length (drop (Z.to_nat i) arr) < fuel)%nat ->
    exists cs,
      Core.chunk_loop fuel arr chunkSize (len arr) i chunks = inr (chunks ++ cs) /\
      chunks_of chunkSize (drop (Z.to_nat i) arr) cs.
Proof.
  intros Hsize Hlen.
  assert (len arr = Z.of_nat (length arr)) as Hn by reflexivity.
  induction fuel as [|fuel IH]; intros i chunks Hinv Hi Hfuel; [lia|].
  cbn [Core.chunk_loop].
  destruct (Z.ltb_spec i (len arr)) as [Hlt|Hge].
  - assert (Core.uint64 (i + chunkSize) = i + chunkSize)%Z as Hnext
      by (apply uint64_small; lia).
    rewrite Hnext.
    set (end_ := if (len arr <? i + chunkSize)%Z then len arr else (i + chunkSize)%Z).
    assert (i < end_ <= i + chunkSize /\ end_ <= Z.of_nat (length arr) /\
            (i + chunkSize <= Z.of_nat (length arr) -> end_ = i + chunkSize) /\
            (Z.of_nat (length arr) <= i + chunkSize -> end_ = Z.of_nat (length arr)))%Z
      as (He1 & He2 & He3 & He4).
    { subst end_. destruct (Z.ltb_spec (len arr) (i + chunkSize)); lia. }
    rewrite slice_expr_in_range by lia.
    set (c := take (Z.to_nat (end_ - i)) (drop (Z.to_nat i) arr)).
    assert (length c = Z.to_nat (end_ - i)) as Hc.
    { subst c. rewrite length_take, length_drop. lia. }
    assert (drop (Z.to_nat (i + chunkSize)) arr
            = drop (Z.to_nat (end_ - i)) (drop (Z.to_nat i) arr)) as Hrest.
    { rewrite drop_drop.
      destruct (Z.le_gt_cases (i + chunkSize) (Z.of_nat (length arr))) as [Hin|Hout].
      - rewrite He3 by exact Hin. f_equal. lia.
      - rewrite He4 by lia. rewrite !drop_ge by lia. reflexivity. }
    destruct (IH (i + chunkSize)%Z (chunks ++ [c])) as (cs & Hrun & Hcat & Hall & Hfull & Hcount).
    { lia. }
    { lia. }
    { rewrite Hrest, length_drop. rewrite length_drop in Hfuel |- *. lia. }
    exists (c :: cs). split.
    { rewrite Hrun, <- (assoc_L (++)). reflexivity. }
    assert (cs <> [] -> (i + chunkSize < Z.of_nat (length arr))%Z) as Hmore.
    { intros Hne. destruct cs as [|c' cs']; [done|].
      apply Forall_cons in Hall as [Hc' _]. unfold len in Hc'.
      destruct (Z.lt_ge_cases (i + chunkSize) (Z.of_nat (length arr))); [assumption|].
      rewrite drop_ge in Hcat by lia. cbn [concat] in Hcat.
      apply app_eq_nil in Hcat as [-> _]. simpl in Hc'. lia. }
    split_and!.
    + cbn [concat]. rewrite Hcat, Hrest. subst c. apply take_drop.
    + apply Forall_cons. split; [unfold len; lia | exact Hall].
    + intros [|k] c0 Hk Hlast; cbn [length] in Hlast.
      * injection Hk as <-. unfold len. rewrite Hc.
        assert (cs <> []) as Hne by (destruct cs; simpl in Hlast; [lia|done]).
        specialize (Hmore Hne). rewrite He3 by lia. lia.
      * apply (Hfull k c0 Hk). lia.
    + unfold len in *. cbn [length]. rewrite Nat2Z.inj_succ, Hcount.
      rewrite !length_drop.
      destruct (Z.le_gt_cases (i + chunkSize) (Z.of_nat (length arr))) as [Hin|Hout].
      * replace (Z.of_nat (length arr - Z.to_nat i) + chunkSize - 1)%Z
          with (Z.of_nat (length arr - Z.to_nat (i + chunkSize)) + chunkSize - 1
                + 1 * chunkSize)%Z by lia.
        rewrite Z.div_add by lia. lia.
      * replace (Z.of_nat (length arr - Z.to_nat (i + chunkSize))) with 0%Z by lia.
        rewrite (Z.div_small (0 + chunkSize - 1)) by lia.
        apply Z.div_unique with (r := (Z.of_nat (length arr - Z.to_nat i) - 1)%Z);
          [left; lia | lia].
  - exists []. rewrite app_nil_r. split; [reflexivity|].
    unfold chunks_of. rewrite drop_ge by lia.
    split_and!; [reflexivity | constructor | intros k c Hk; discriminate |].
    unfold len. simpl. symmetry. apply Z.div_small. lia.
Qed.

(** X5.  For a positive chunk size, [chunk] returns after at most one
    iteration per element, without a panic and without its [uint64] counter
    wrapping around; the chunks it returns, put together, are the input
    slice, none of them is empty, every chunk but the last has [chunkSize]
    elements and the last has at most that many, so that there are
    [ceil(len(arr) / chunkSize)] of them. *)
Theorem chunk_partition {A} (fuel : nat) (arr : list A) (chunkSize : Z) :
  (0 < chunkSize < 2 ^ 64)%Z -> (len arr < 2 ^ 63)%Z -> (length arr < fuel)%nat ->
  exists chunks,
    Core.chunk fuel arr chunkSize = inr chunks /\
    concat chunks = arr /\
    Forall (fun c => (0 < len c <= chunkSize)%Z) chunks /\
    (forall k c, chunks !! k = Some c -> (S k < length chunks)%nat -> len c = chunkSize) /\
    len chunks = ((len arr + chunkSize - 1) / chunkSize)%Z.
Proof.
  intros Hsize Hlen Hfuel. unfold Core.chunk.
  destruct (Z.leb_spec chunkSize 0); [lia|].
  rewrite uint64_small by (unfold len in *; lia).
  destruct (chunk_loop_spec arr chunkSize Hsize Hlen fuel 0 []) as (cs & Hrun & Hcs);
    [lia | lia | rewrite length_drop; lia |].
  exists cs. split; [exact Hrun | exact Hcs].
Qed.

Lemma chunk_partition_witness :
  exists chunks,
    Core.chunk 6 [1; 2; 3; 4; 5]%Z 2 = inr chunks /\
    concat chunks = [1; 2; 3; 4; 5]%Z /\
    len chunks = 3%Z.
Proof.
  destruct (chunk_partition 6 [1; 2; 3; 4; 5]%Z 2) as (chunks & Hrun & Hcat & _ & _ & Hn);
    [lia | unfold len; simpl; lia | simpl; lia |].
  exists chunks. split_and!; [exact Hrun | exact Hcat | exact Hn].
Defined.

(** X6.  [chunk] ends in a fault exactly when the chunk size is zero, and
    the fault is then its own [panic]: the slice expression of its loop is
    never out of bounds. *)
Theorem chunk_fault_iff {A} (fuel : nat) (arr : list A) (chunkSize : Z) :
  (0 <= chunkSize < 2 ^ 64)%Z -> (len arr < 2 ^ 63)%Z -> (length arr < fuel)%nat ->
  forall f,
    Core.chunk fuel arr chunkSize = inl f <->
    chunkSize = 0%Z /\ f = Core.PanicString "chunkSize must be greater than 0".
Proof.
  intros Hsize Hlen Hfuel f.
  destruct (Z.eq_dec chunkSize 0%Z) as [->|Hpos].
  - unfold Core.chunk. cbn. split; [intros [= <-]; auto | intros [_ ->]; reflexivity].
  - destruct (chunk_loop_spec arr chunkSize ltac:(lia) Hlen fuel 0 []) as (cs & Hrun & _);
      [lia | lia | rewrite length_drop; lia |].
    unfold Core.chunk. destruct (Z.leb_spec chunkSize 0); [lia|].
    rewrite uint64_small by (unfold len in *; lia).
    rewrite Hrun. split; [discriminate | intros [? _]; contradiction].
Qed.

Lemma chunk_fault_iff_witness :
  Core.chunk 4 [1; 2; 3]%Z 0 = inl (Core.PanicString "chunkSize must be greater than 0").
Proof.
  apply (chunk_fault_iff 4 [1; 2; 3]%Z 0); [lia | unfold len; simpl; lia | simpl; lia |].
  split; reflexivity.
Defined.

(** X7.  [AllZero] holds of a slice exactly when every byte of it is zero;
    it holds of the empty slice. *)
Theorem AllZero_iff (s : list byte) :
  Core.AllZero s = true <-> s = zero_bytes (length s).
Proof.
  unfold zero_bytes. induction s as [|v s IH]; [simpl; tauto|].
  cbn [Core.AllZero length replicate].
  destruct (Byte.eqb v Byte.x00) eqn:Hv; cbn [negb].
  - apply Byte.byte_dec_bl in Hv as ->. rewrite IH.
    split; [intros <-; reflexivity | intros [= H]; exact H].
  - split; [discriminate|]. intros [= -> _]. discriminate.
Qed.

(* ================================================================== *)
(** ** The validators of a pod *)

(** The withdrawal credentials that point to the pod at [address]: first byte
    1, and the address from byte 12 on. *)
Definition pod_credentials (address : list byte) (v : Validator) : Prop :=
  WithdrawalCredentials v !! 0%nat = Some Byte.x01 /\
  drop 12 (WithdrawalCredentials v) = address.

Lemma index_expr_0 {A} (x : A) (s : list A) : Core.index_expr (x :: s) 0 = inr x.
Proof.
  unfold Core.index_expr, len. cbn [length].
  destruct (Z.ltb_spec 0 (Z.of_nat (S (length s)))); [|lia]. reflexivity.
Qed.

Lemma slice_expr_from {A} (s : list A) low :
  (0 <= low <= len s)%Z -> Core.slice_expr s low (len s) = inr (drop (Z.to_nat low) s).
Proof.
  intros H. rewrite slice_expr_in_range by lia.
  rewrite take_ge; [reflexivity|]. rewrite length_drop. unfold len. lia.
Qed.

Section PodValidators.
Variable Validators : VersionedBeaconState -> list (option Validator) * error.
Variable FromHex : string -> list byte.

Definition credentials_present (o : option Validator) : Prop :=
  forall v, o = Some v -> (12 <= len (WithdrawalCredentials v))%Z.

Lemma FindAllValidatorsForEigenpod_loop_spec address rest :
  forall i out,
    (0 <= i)%Z -> (i + len rest < 2 ^ 64)%Z ->
    Forall credentials_present rest ->
    exists new,
      Core.FindAllValidatorsForEigenpod_loop address i rest out = inr (out ++ new) /\
      (forall v j,
          {| CLI.Validator_ := Some v; CLI.Index_ := j |} ∈ new <->
          (i <= j)%Z /\ rest !! Z.to_nat (j - i) = Some (Some v) /\
          pod_credentials address v) /\
      Forall (fun w => (i <= CLI.Index_ w)%Z /\ CLI.Validator_ w <> None) new /\
      StronglySorted (fun a b => (CLI.Index_ a < CLI.Index_ b)%Z) new.
Proof.
  induction rest as [|o rest IH]; intros i out Hi Hmax Hok.
  - exists []. rewrite app_nil_r. split_and!; [reflexivity | | constructor | constructor].
    intros v j. rewrite lookup_nil. split; [intros H; inversion H | intros (_ & [=] & _)].
  - apply Forall_cons in Hok as [Ho Hok].
    unfold len in Hmax. cbn [length] in Hmax.
    assert (Core.uint64 (i + 1) = i + 1)%Z as Hnext by (apply uint64_small; lia).
    assert (forall out',
              exists new,
                Core.FindAllValidatorsForEigenpod_loop address (Core.uint64 (i + 1))
                  rest out' = inr (out' ++ new) /\
                (forall v j,
                    {| CLI.Validator_ := Some v; CLI.Index_ := j |} ∈ new <->
                    (i < j)%Z /\ (o :: rest) !! Z.to_nat (j - i) = Some (Some v) /\
                    pod_credentials address v) /\
                Forall (fun w => (i < CLI.Index_ w)%Z /\ CLI.Validator_ w <> None) new /\
                StronglySorted (fun a b => (CLI.Index_ a < CLI.Index_ b)%Z) new) as Hrest.
    { intros out'. rewrite Hnext.
      destruct (IH (i + 1)%Z out') as (new & Hrun & Hmem & Hlow & Hsorted);
        [lia | unfold len; lia | exact Hok |].
      exists new. split_and!; [exact Hrun | | | exact Hsorted].
      - intros v j. rewrite Hmem. split.
        + intros (Hj & Hl & Hc). split_and!; [lia | | exact Hc].
          replace (Z.to_nat (j - i)) with (S (Z.to_nat (j - (i + 1)))) by lia. exact Hl.
        + intros (Hj & Hl & Hc). split_and!; [lia | | exact Hc].
          replace (Z.to_nat (j - i)) with (S (Z.to_nat (j - (i + 1)))) in Hl by lia.
          exact Hl.
      - eapply Forall_impl; [exact Hlow|]. intros w [Hw Hnn]. split; [lia | exact Hnn]. }
    assert (forall new : list CLI.ValidatorWithIndex,
              (forall v j,
                  {| CLI.Validator_ := Some v; CLI.Index_ := j |} ∈ new <->
                  (i < j)%Z /\ (o :: rest) !! Z.to_nat (j - i) = Some (Some v) /\
                  pod_credentials address v) ->
              (forall v, o = Some v -> ~ pod_credentials address v) ->
              forall v j,
                {| CLI.Validator_ := Some v; CLI.Index_ := j |} ∈ new <->
                (i <= j)%Z /\ (o :: rest) !! Z.to_nat (j - i) = Some (Some v) /\
                pod_credentials address v) as Hskip.
    { intros new Hmem Hno v j. rewrite Hmem. split.
      - intros (Hj & Hl & Hc). split_and!; [lia | exact Hl | exact Hc].
      - intros (Hj & Hl & Hc). split_and!; [| exact Hl | exact Hc].
        destruct (Z.eq_dec i j) as [<-|]; [|lia].
        rewrite Z.sub_diag in Hl. cbn in Hl. injection Hl as Hl.
        destruct (Hno v Hl Hc). }
    assert (forall new : list CLI.ValidatorWithIndex,
               Forall (fun w => (i < CLI.Index_ w)%Z /\ CLI.Validator_ w <> None) new ->
               Forall (fun w => (i <= CLI.Index_ w)%Z /\ CLI.Validator_ w <> None) new)
      as Hweak.
    { intros new Hlow. eapply Forall_impl; [exact Hlow|].
      intros w [Hw Hnn]. split; [lia | exact Hnn]. }
    cbn [Core.FindAllValidatorsForEigenpod_loop].
    destruct o as [v0|].
    2:{ destruct (Hrest out) as (new & Hrun & Hmem & Hlow & Hsorted).
        exists new. split_and!; [exact Hrun | | auto | exact Hsorted].
        apply Hskip; [exact Hmem | intros v [=]]. }
    specialize (Ho v0 eq_refl). unfold len in Ho.
    destruct (WithdrawalCredentials v0) as [|first creds] eqn:Hcreds;
      [simpl in Ho; lia|].
    rewrite index_expr_0.
    destruct (Byte.eqb first Byte.x01) eqn:Hfirst; cbn [negb].
    2:{ destruct (Hrest out) as (new & Hrun & Hmem & Hlow & Hsorted).
        exists new. split_and!; [exact Hrun | | auto | exact Hsorted].
        apply Hskip; [exact Hmem|]. intros v [= <-] [Hb _].
        rewrite Hcreds in Hb. injection Hb as ->. discriminate. }
    apply Byte.byte_dec_bl in Hfirst as ->.
    rewrite slice_expr_from by (unfold len; lia).
    change (Z.to_nat 12) with 12%nat.
    unfold Core.bytes_Equal. case_bool_decide as Heq.
    2:{ destruct (Hrest out) as (new & Hrun & Hmem & Hlow & Hsorted).
        exists new. split_and!; [exact Hrun | | auto | exact Hsorted].
        apply Hskip; [exact Hmem|]. intros v [= <-] [_ Hd].
        rewrite Hcreds in Hd. congruence. }
    destruct (Hrest (out ++ [ {| CLI.Validator_ := Some v0; CLI.Index_ := i |} ]))
      as (new & Hrun & Hmem & Hlow & Hsorted).
    exists ({| CLI.Validator_ := Some v0; CLI.Index_ := i |} :: new). split_and!.
    + rewrite Hrun, <- (assoc_L (++)). reflexivity.
    + intros v j. rewrite elem_of_cons, Hmem. split.
      * intros [[= -> ->]|(Hj & Hl & Hc)].
        -- rewrite Z.sub_diag. split_and!; [lia | reflexivity |].
           split; rewrite Hcreds; [reflexivity | symmetry; exact Heq].
        -- split_and!; [lia | exact Hl | exact Hc].
      * intros (Hj & Hl & Hc). destruct (Z.eq_dec i j) as [<-|].
        -- left. rewrite Z.sub_diag in Hl. cbn in Hl. injection Hl as ->. reflexivity.
        -- right. split_and!; [lia | exact Hl | exact Hc].
    + apply Forall_cons. split; [split; [cbn; lia | discriminate] | auto].
    + constructor; [exact Hsorted|].
      eapply Forall_impl; [exact Hlow|]. intros w [Hw _]. exact Hw.
Qed.

(** X8.  When the state's validators can be read and the withdrawal
    credentials of each of them have at least twelve bytes,
    [FindAllValidatorsForEigenpod] returns without error, and what it returns
    are exactly the validators that are not [nil], whose credentials start
    with the byte 1 and hold the bytes of the address from byte 12 on, each
    with its position in the state's list, in strictly ascending order of
    position; no entry it returns has a [nil] pointer. *)
Theorem FindAllValidatorsForEigenpod_spec eigenpodAddress beaconState allValidators :
  Validators beaconState = (allValidators, None) ->
  (len allValidators < 2 ^ 63)%Z ->
  Forall credentials_present allValidators ->
  exists outputValidators,
    Core.FindAllValidatorsForEigenpod Validators FromHex eigenpodAddress beaconState
      = inr (outputValidators, None) /\
    (forall v i,
        {| CLI.Validator_ := Some v; CLI.Index_ := i |} ∈ outputValidators <->
        (0 <= i)%Z /\ allValidators !! Z.to_nat i = Some (Some v) /\
        pod_credentials (FromHex eigenpodAddress) v) /\
    Forall (fun w => CLI.Validator_ w <> None) outputValidators /\
    StronglySorted (fun a b => (CLI.Index_ a < CLI.Index_ b)%Z) outputValidators.
Proof.
  intros Hall Hlen Hok. unfold Core.FindAllValidatorsForEigenpod. rewrite Hall.
  destruct (FindAllValidatorsForEigenpod_loop_spec (FromHex eigenpodAddress)
              allValidators 0 []) as (new & Hrun & Hmem & Hnn & Hsorted);
    [lia | lia | exact Hok |].
  rewrite Hrun. exists new. split_and!; [reflexivity | | | exact Hsorted].
  - intros v i. rewrite Hmem, Z.sub_0_r. reflexivity.
  - eapply Forall_impl; [exact Hnn|]. intros w [_ Hw]. exact Hw.
Qed.

(** X9.  [FindAllValidatorsForEigenpod] does not look at the length of the
    decoded address: when the address does not decode to 20 bytes and the
    credentials have 32, it returns the empty list and no error. *)
Theorem FindAllValidatorsForEigenpod_address_length
    eigenpodAddress beaconState allValidators :
  Validators beaconState = (allValidators, None) ->
  (len allValidators < 2 ^ 63)%Z ->
  Forall (fun o => forall v, o = Some v -> length (WithdrawalCredentials v) = 32%nat)
    allValidators ->
  length (FromHex eigenpodAddress) <> 20%nat ->
  Core.FindAllValidatorsForEigenpod Validators FromHex eigenpodAddress beaconState
    = inr ([], None).
Proof.
  intros Hall Hlen H32 Haddr. unfold Core.FindAllValidatorsForEigenpod. rewrite Hall.
  destruct (FindAllValidatorsForEigenpod_loop_spec (FromHex eigenpodAddress)
              allValidators 0 []) as (new & Hrun & Hmem & Hnn & _); [lia | lia | |].
  { eapply Forall_impl; [exact H32|]. intros o Ho v Hv.
    unfold len. rewrite (Ho v Hv). lia. }
  rewrite Hrun. destruct new as [|[[v|] i] new]; [reflexivity| |]; exfalso.
  2:{ apply Forall_cons in Hnn as [[_ Hnil] _]. apply Hnil. reflexivity. }
  destruct (proj1 (Hmem v i)) as (Hi & Hl & _ & Hd); [left|].
  apply Haddr. rewrite <- Hd, length_drop.
  rewrite Z.sub_0_r in Hl. apply list_elem_of_lookup_2 in Hl.
  rewrite Forall_forall in H32. rewrite (H32 _ Hl v eq_refl). reflexivity.
Qed.

End PodValidators.

(* ================================================================== *)
(** ** The on-chain lookups, one by one *)

Section Lookups.
Variable NewEigenPod : string -> error.
Variable validatorPubkeyHashToInfo :
  string -> Bytes32 -> CLI.IEigenPodValidatorInfo * error.

(** X10.  [GetOnchainValidatorInfo] returns without error exactly when the
    binding to the pod can be made and every entry points to a validator
    whose lookup succeeds; it then returns the answers of the contract in
    the order of the validators, after one lookup per validator, duplicates
    included. *)
Theorem GetOnchainValidatorInfo_success_iff address allValidators log validatorInfo log' :
  CLI.GetOnchainValidatorInfo NewEigenPod validatorPubkeyHashToInfo
    address allValidators log = Returns (validatorInfo, None) log' <->
  NewEigenPod address = None /\
  Forall (lookup_ok validatorPubkeyHashToInfo address) allValidators /\
  info_of validatorPubkeyHashToInfo address <$> allValidators = Some <$> validatorInfo /\
  log' = log ++ keys_of allValidators /\
  length (keys_of allValidators) = length allValidators.
Proof.
  split.
  - intros Hrun.
    apply GetOnchainValidatorInfo_returns in Hrun as (Hbind & Hok & -> & ->).
    destruct (lookups_ok_total _ _ _ Hok) as (Hk & Hi & _). auto.
  - intros (Hbind & Hok & Hi & -> & _).
    rewrite GetOnchainValidatorInfo_ok by assumption.
    destruct (lookups_ok_total _ _ _ Hok) as (_ & Hi' & _).
    rewrite Hi' in Hi. apply (inj (fmap Some)) in Hi. rewrite Hi. reflexivity.
Qed.

(** X11.  [GetOnchainValidatorInfo] stops at the first lookup that fails: it
    has then looked up the validators before the failing one and that one,
    none after it, and returns no info at all, with the error of the
    contract wrapped. *)
Theorem GetOnchainValidatorInfo_first_failure address pre w post e log :
  NewEigenPod address = None ->
  Forall (lookup_ok validatorPubkeyHashToInfo address) pre ->
  snd <$> lookup_of validatorPubkeyHashToInfo address w = Some (Some e) ->
  CLI.GetOnchainValidatorInfo NewEigenPod validatorPubkeyHashToInfo
    address (pre ++ w :: post) log
  = Returns ([], Some (Errorf "failed to fetch validator eigeninfo" e))
      (log ++ keys_of (pre ++ [w])).
Proof.
  intros Hbind Hpre Hw. unfold CLI.GetOnchainValidatorInfo. rewrite Hbind.
  destruct (lookup_of validatorPubkeyHashToInfo address w) as [[info err]|] eqn:Hl;
    [|discriminate].
  cbn in Hw. injection Hw as ->.
  apply (GetOnchainValidatorInfo_loop_failure _ address pre w post info e); assumption.
Qed.

(* ================================================================== *)
(** ** Selections of the validators of a pod *)

(** The validators of [vals] whose on-chain info, at the same position of
    [infos], satisfies [cond]. *)
Definition selected_by (cond : CLI.IEigenPodValidatorInfo -> bool)
    (vals : list CLI.ValidatorWithIndex) (infos : list CLI.IEigenPodValidatorInfo)
    : list CLI.ValidatorWithIndex :=
  (List.filter (fun p => cond p.2) (zip vals infos)).*1.

Lemma SelectCheckpointableValidators_loop_spec lastCheckpoint
    (pre infos_rest : list CLI.IEigenPodValidatorInfo) rest acc (log : list Bytes32) :
  length infos_rest = length rest ->
  Core.SelectCheckpointableValidators_loop lastCheckpoint (pre ++ infos_rest)
    (len pre) rest acc log
  = Returns (acc ++ selected_by (Core.checkpointable_condition lastCheckpoint)
                      rest infos_rest, None) log.
Proof.
  revert pre infos_rest acc.
  induction rest as [|v rest IH]; intros pre infos_rest acc Hlen.
  - destruct infos_rest; [|discriminate]. cbn. rewrite app_nil_r. reflexivity.
  - destruct infos_rest as [|info infos_rest]; [discriminate|].
    injection Hlen as Hlen.
    cbn [Core.SelectCheckpointableValidators_loop].
    rewrite go_bind_unfold, slice_index_app.
    replace (len pre + 1)%Z with (len (pre ++ [info]))
      by (unfold len; rewrite length_app; simpl; lia).
    replace (pre ++ info :: infos_rest) with ((pre ++ [info]) ++ infos_rest)
      by (rewrite <- (assoc_L (++)); reflexivity).
    rewrite IH by exact Hlen.
    unfold selected_by. cbn [zip zip_with List.filter fst snd].
    destruct (Core.checkpointable_condition lastCheckpoint info).
    + cbn [fmap list_fmap fst]. rewrite <- (assoc_L (++)). reflexivity.
    + reflexivity.
Qed.

Lemma SelectActiveValidators_loop_spec
    (pre infos_rest : list CLI.IEigenPodValidatorInfo) rest acc (log : list Bytes32) :
  length infos_rest = length rest ->
  Core.SelectActiveValidators_loop (pre ++ infos_rest) (len pre) rest acc log
  = Returns (acc ++ selected_by
                      (fun info => (CLI.info_Status info =? CLI.ValidatorStatusActive)%Z)
                      rest infos_rest, None) log.
Proof.
  revert pre infos_rest acc.
  induction rest as [|v rest IH]; intros pre infos_rest acc Hlen.
  - destruct infos_rest; [|discriminate]. cbn. rewrite app_nil_r. reflexivity.
  - destruct infos_rest as [|info infos_rest]; [discriminate|].
    injection Hlen as Hlen.
    cbn [Core.SelectActiveValidators_loop].
    rewrite go_bind_unfold, slice_index_app.
    replace (len pre + 1)%Z with (len (pre ++ [info]))
      by (unfold len; rewrite length_app; simpl; lia).
    replace (pre ++ info :: infos_rest) with ((pre ++ [info]) ++ infos_rest)
      by (rewrite <- (assoc_L (++)); reflexivity).
    rewrite IH by exact Hlen.
    unfold selected_by. cbn [zip zip_with List.filter fst snd].
    destruct (CLI.info_Status info =? CLI.ValidatorStatusActive)%Z.
    + cbn [fmap list_fmap fst]. rewrite <- (assoc_L (++)). reflexivity.
    + reflexivity.
Qed.

(** [c] of the info that the contract holds for the entry and of the entry;
    false for an entry without info. *)
Definition with_info (view : string -> Bytes32 -> CLI.IEigenPodValidatorInfo * error)
    (address : string) (c : CLI.IEigenPodValidatorInfo -> CLI.ValidatorWithIndex -> bool)
    (w : CLI.ValidatorWithIndex) : bool :=
  match info_of view address w with
  | Some info => c info w
  | None => false
  end.

Lemma filter_zip_lookups address
    (c : CLI.IEigenPodValidatorInfo -> CLI.ValidatorWithIndex -> bool) vals :
  Forall (lookup_ok validatorPubkeyHashToInfo address) vals ->
  (List.filter (fun p => c p.2 p.1)
     (zip vals (omap (info_of validatorPubkeyHashToInfo address) vals))).*1
  = List.filter (with_info validatorPubkeyHashToInfo address c) vals.
Proof.
  induction 1 as [|w ws Hw _ IH]; [reflexivity|].
  apply lookup_ok_inv in Hw as (v & info & _ & _ & Hinfo).
  cbn [omap list_omap]. rewrite Hinfo.
  cbn [zip zip_with List.filter fst snd].
  assert (with_info validatorPubkeyHashToInfo address c w = c info w) as ->
    by (unfold with_info; rewrite Hinfo; reflexivity).
  destruct (c info w); cbn [fmap list_fmap fst]; f_equal; exact IH.
Qed.

Lemma filter_sublist_implies {A} (c1 c2 : A -> bool) (l : list A) :
  (forall x, c1 x = true -> c2 x = true) ->
  List.filter c1 l `sublist_of` List.filter c2 l /\ List.filter c2 l `sublist_of` l.
Proof.
  intros Himp. induction l as [|x l [IH1 IH2]]; [split; constructor|].
  cbn [List.filter]. destruct (c1 x) eqn:H1.
  - rewrite (Himp x H1). split; apply sublist_skip; assumption.
  - destruct (c2 x); split;
      first [assumption | apply sublist_cons; assumption | apply sublist_skip; assumption].
Qed.

(** A run of [SelectCheckpointableValidators], [SelectActiveValidators] or
    [SelectAwaitingCredentialValidators] whose lookups all succeed. *)
Lemma SelectCheckpointableValidators_ok address vals lastCheckpoint log :
  NewEigenPod address = None ->
  Forall (lookup_ok validatorPubkeyHashToInfo address) vals ->
  Core.SelectCheckpointableValidators NewEigenPod validatorPubkeyHashToInfo
    address vals lastCheckpoint log
  = Returns (List.filter
               (with_info validatorPubkeyHashToInfo address
                  (fun info _ => Core.checkpointable_condition lastCheckpoint info))
               vals, None)
      (log ++ keys_of vals).
Proof.
  intros Hbind Hok. unfold Core.SelectCheckpointableValidators.
  rewrite go_bind_unfold, GetOnchainValidatorInfo_ok by assumption. cbn [nonnil].
  destruct (lookups_ok_total _ _ _ Hok) as (_ & Hi & _).
  etrans; [apply (SelectCheckpointableValidators_loop_spec lastCheckpoint [] _ vals [])|].
  { apply (f_equal length) in Hi. rewrite !length_fmap in Hi. symmetry. exact Hi. }
  cbn [app]. do 2 f_equal.
  apply (filter_zip_lookups address
           (fun info _ => Core.checkpointable_condition lastCheckpoint info)).
  exact Hok.
Qed.

Lemma SelectActiveValidators_ok address vals log :
  NewEigenPod address = None ->
  Forall (lookup_ok validatorPubkeyHashToInfo address) vals ->
  Core.SelectActiveValidators NewEigenPod validatorPubkeyHashToInfo address vals log
  = Returns (List.filter
               (with_info validatorPubkeyHashToInfo address
                  (fun info _ =>
                     (CLI.info_Status info =? CLI.ValidatorStatusActive)%Z))
               vals, None)
      (log ++ keys_of vals).
Proof.
  intros Hbind Hok. unfold Core.SelectActiveValidators.
  rewrite go_bind_unfold, GetOnchainValidatorInfo_ok by assumption. cbn [nonnil].
  destruct (lookups_ok_total _ _ _ Hok) as (_ & Hi & _).
  etrans; [apply (SelectActiveValidators_loop_spec [] _ vals [])|].
  { apply (f_equal length) in Hi. rewrite !length_fmap in Hi. symmetry. exact Hi. }
  cbn [app]. do 2 f_equal.
  apply (filter_zip_lookups address
           (fun info _ => (CLI.info_Status info =? CLI.ValidatorStatusActive)%Z)).
  exact Hok.
Qed.

Lemma SelectAwaitingCredentialValidators_ok address vals log :
  NewEigenPod address = None ->
  Forall (lookup_ok validatorPubkeyHashToInfo address) vals ->
  CLI.SelectAwaitingCredentialValidators NewEigenPod validatorPubkeyHashToInfo
    address vals log
  = Returns (List.filter
               (with_info validatorPubkeyHashToInfo address awaits_credential_proof)
               vals, None)
      (log ++ keys_of vals).
Proof.
  intros Hbind Hok. unfold CLI.SelectAwaitingCredentialValidators.
  rewrite go_bind_unfold, GetOnchainValidatorInfo_ok by assumption. cbn [nonnil].
  destruct (lookups_ok_total _ _ _ Hok) as (_ & Hi & Hnn).
  etrans; [apply (SelectAwaitingCredentialValidators_loop_spec [] _ vals [])|].
  { apply (f_equal length) in Hi. rewrite !length_fmap in Hi. symmetry. exact Hi. }
  { exact Hnn. }
  cbn [app]. do 2 f_equal.
  apply (filter_zip_lookups address awaits_credential_proof). exact Hok.
Qed.

(** The condition of the loop of [SelectAwaitingActivationValidators], of the
    validator an entry points to. *)
Definition awaits_activation (w : CLI.ValidatorWithIndex) : bool :=
  match CLI.Validator_ w with
  | Some v => (ActivationEpoch v =? CLI.FAR_FUTURE_EPOCH)%Z
  | None => false
  end.

Lemma SelectAwaitingActivationValidators_loop_spec rest acc (log : list Bytes32) :
  Forall (fun w => CLI.Validator_ w <> None) rest ->
  Core.SelectAwaitingActivationValidators_loop rest acc log
  = Returns (acc ++ List.filter awaits_activation rest, None) log.
Proof.
  intros Hnn. revert acc. induction Hnn as [|w rest Hw _ IH]; intros acc.
  - cbn. rewrite app_nil_r. reflexivity.
  - cbn [Core.SelectAwaitingActivationValidators_loop List.filter].
    unfold awaits_activation at 1.
    destruct (CLI.Validator_ w) as [v|]; [|done].
    cbn [deref]. rewrite go_bind_unfold. unfold go_ret at 1. rewrite IH.
    destruct (ActivationEpoch v =? CLI.FAR_FUTURE_EPOCH)%Z.
    + rewrite <- (assoc_L (++)). reflexivity.
    + reflexivity.
Qed.

Lemma SelectAwaitingActivationValidators_loop_nil pre w post acc (log : list Bytes32) :
  Forall (fun w => CLI.Validator_ w <> None) pre ->
  CLI.Validator_ w = None ->
  Core.SelectAwaitingActivationValidators_loop (pre ++ w :: post) acc log
  = Panics NilDereference log.
Proof.
  intros Hnn Hw. revert acc. induction Hnn as [|x pre Hx _ IH]; intros acc.
  - cbn [app Core.SelectAwaitingActivationValidators_loop]. rewrite Hw. reflexivity.
  - cbn [app Core.SelectAwaitingActivationValidators_loop].
    destruct (CLI.Validator_ x) as [v|]; [|done].
    cbn [deref]. rewrite go_bind_unfold. unfold go_ret at 1. apply IH.
Qed.


Lemma SelectCheckpointableValidators_loop_zero infos rest :
  forall i acc (log : list Bytes32),
    Core.SelectCheckpointableValidators_loop 0 infos i rest acc log
    = Core.SelectActiveValidators_loop infos i rest acc log.
Proof.
  induction rest as [|v rest IH]; intros i acc log; [reflexivity|].
  cbn [Core.SelectCheckpointableValidators_loop Core.SelectActiveValidators_loop].
  rewrite !go_bind_unfold.
  destruct (slice_index infos i log) as [info log'|p log']; [|reflexivity].
  replace (Core.checkpointable_condition 0 info)
    with (CLI.info_Status info =? CLI.ValidatorStatusActive)%Z.
  - apply IH.
  - unfold Core.checkpointable_condition.
    destruct (CLI.LastCheckpointedAt info =? 0)%Z; reflexivity.
Qed.

(** X13.  With [lastCheckpoint = 0], [SelectCheckpointableValidators] is
    [SelectActiveValidators]: the same lookups, the same result, the same
    error or panic. *)
Theorem SelectCheckpointableValidators_zero address vals log :
  Core.SelectCheckpointableValidators NewEigenPod validatorPubkeyHashToInfo
    address vals 0 log
  = Core.SelectActiveValidators NewEigenPod validatorPubkeyHashToInfo address vals log.
Proof.
  unfold Core.SelectCheckpointableValidators, Core.SelectActiveValidators.
  rewrite !go_bind_unfold.
  destruct (CLI.GetOnchainValidatorInfo NewEigenPod validatorPubkeyHashToInfo
              address vals log) as [[infos err] log'|p log']; [|reflexivity].
  destruct (nonnil err); [reflexivity|].
  apply SelectCheckpointableValidators_loop_zero.
Qed.

(** X14.  For every [lastCheckpoint], the validators that
    [SelectCheckpointableValidators] returns are among those that
    [SelectActiveValidators] returns for the same input, in the same order,
    and these are among the input. *)
Theorem SelectCheckpointableValidators_among_active address vals lastCheckpoint log :
  NewEigenPod address = None ->
  Forall (lookup_ok validatorPubkeyHashToInfo address) vals ->
  exists checkpointable active log',
    Core.SelectCheckpointableValidators NewEigenPod validatorPubkeyHashToInfo
      address vals lastCheckpoint log = Returns (checkpointable, None) log' /\
    Core.SelectActiveValidators NewEigenPod validatorPubkeyHashToInfo address vals log
      = Returns (active, None) log' /\
    checkpointable `sublist_of` active /\
    active `sublist_of` vals.
Proof.
  intros Hbind Hok. eexists _, _, _. split_and!.
  - apply SelectCheckpointableValidators_ok; assumption.
  - apply SelectActiveValidators_ok; assumption.
  - apply filter_sublist_implies. intros w. unfold with_info.
    destruct (info_of validatorPubkeyHashToInfo address w); [|done].
    unfold Core.checkpointable_condition. rewrite andb_true_iff. tauto.
  - apply (filter_sublist_implies _ _ vals (fun x H => H)).
Qed.

(** X15.  [SelectAwaitingActivationValidators] makes no call of the contract
    and returns no error.  When every entry points to a validator it returns
    the entries whose validator has the activation epoch
    [FAR_FUTURE_EPOCH], in input order; at the first entry whose pointer is
    [nil] it panics, in [validator.Validator.ActivationEpoch].  When the
    binding and all lookups succeed, none of the validators it returns, and
    none that [SelectActiveValidators] returns, is among the validators that
    [SelectAwaitingCredentialValidators] returns. *)
Theorem SelectAwaitingCredentialValidators_exclusive address vals log :
  (Forall (fun w => CLI.Validator_ w <> None) vals ->
   Core.SelectAwaitingActivationValidators address vals log
   = Returns (List.filter awaits_activation vals, None) log) /\
  (forall pre w post,
      vals = pre ++ w :: post ->
      Forall (fun w => CLI.Validator_ w <> None) pre ->
      CLI.Validator_ w = None ->
      Core.SelectAwaitingActivationValidators address vals log
      = Panics NilDereference log) /\
  (forall w,
      awaits_activation w = true <->
      exists v, CLI.Validator_ w = Some v /\ ActivationEpoch v = CLI.FAR_FUTURE_EPOCH) /\
  (NewEigenPod address = None ->
   Forall (lookup_ok validatorPubkeyHashToInfo address) vals ->
   exists awaitingCredential active log',
     CLI.SelectAwaitingCredentialValidators NewEigenPod validatorPubkeyHashToInfo
       address vals log = Returns (awaitingCredential, None) log' /\
     Core.SelectActiveValidators NewEigenPod validatorPubkeyHashToInfo address vals log
       = Returns (active, None) log' /\
     Core.SelectAwaitingActivationValidators address vals log
       = Returns (List.filter awaits_activation vals, None) log /\
     forall w, w ∈ awaitingCredential ->
               ~ w ∈ List.filter awaits_activation vals /\ ~ w ∈ active).
Proof.
  split_and!.
  - intros Hnn. unfold Core.SelectAwaitingActivationValidators.
    rewrite SelectAwaitingActivationValidators_loop_spec by exact Hnn. reflexivity.
  - intros pre w post -> Hnn Hw. unfold Core.SelectAwaitingActivationValidators.
    apply SelectAwaitingActivationValidators_loop_nil; assumption.
  - intros w. unfold awaits_activation.
    destruct (CLI.Validator_ w) as [v|].
    + rewrite Z.eqb_eq. split; [eauto | intros (v' & [= <-] & H); exact H].
    + split; [discriminate | intros (v & [=] & _)].
  - intros Hbind Hok. eexists _, _, _. split_and!.
    + apply SelectAwaitingCredentialValidators_ok; assumption.
    + apply SelectActiveValidators_ok; assumption.
    + unfold Core.SelectAwaitingActivationValidators.
      rewrite SelectAwaitingActivationValidators_loop_spec; [reflexivity|].
      apply lookups_ok_total in Hok as (_ & _ & Hnn). exact Hnn.
    + intros w. rewrite !list_elem_of_In, !filter_In.
      unfold with_info, awaits_credential_proof, awaits_activation.
      destruct (info_of validatorPubkeyHashToInfo address w) as [info|];
        [|intros [_ [=]]].
      destruct (CLI.Validator_ w) as [v|]; [|intros [_ [=]]].
      rewrite !andb_true_iff, negb_true_iff, !Z.eqb_eq, Z.eqb_neq.
      unfold CLI.ValidatorStatusInactive, CLI.ValidatorStatusActive.
      intros (_ & (Hs & _) & Ha). split; intros (_ & H); [contradiction | lia].
Qed.

End Lookups.

(* ================================================================== *)
(** ** The checkpoint of a pod and its beacon state *)

(** The number of tracing sections that a sequence of events leaves open. *)
Definition open_sections (events : list Core.event) : Z :=
  fold_left (fun depth e =>
               match e with
               | Core.OnStartSection _ => depth + 1
               | Core.OnEndSection => depth - 1
               | _ => depth
               end)%Z events 0%Z.

Lemma open_sections_app events more :
  open_sections (events ++ more)
  = (open_sections events + open_sections more)%Z.
Proof.
  unfold open_sections. rewrite fold_left_app.
  generalize (fold_left
                (fun depth e =>
                   match e with
                   | Core.OnStartSection _ => depth + 1
                   | Core.OnEndSection => depth - 1
                   | _ => depth
                   end)%Z events 0%Z) as d.
  induction more as [|e more IH]; intros d; [cbn; lia|].
  cbn [fold_left]. rewrite IH. rewrite (IH (match e with
                                            | Core.OnStartSection _ => 0 + 1
                                            | Core.OnEndSection => 0 - 1
                                            | _ => 0
                                            end)%Z).
  destruct e; lia.
Qed.

(** The slot that [header.Header.Message.Slot] reads, when none of the three
    pointers is [nil]. *)
Definition header_slot (header : option Core.BeaconBlockHeaderResponse) : option Z :=
  match header with
  | Some response =>
      match Core.Header response with
      | Some signed =>
          match Core.Message signed with
          | Some message => Some (hdr_Slot message)
          | None => None
          end
      | None => None
      end
  | None => None
  end.

Section CheckpointFacts.
Variable NewEigenPod : string -> error.
Variable currentCheckpointTimestamp : string -> Z * error.
Variable currentCheckpoint_BeaconBlockRoot : string -> Bytes32 * error.
Variable getBeaconHeader : string -> option Core.BeaconBlockHeaderResponse * error.
Variable getBeaconState : string -> option VersionedBeaconState * error.


(** Every run is one of these; the events it adds say how far it came. *)
Inductive checkpoint_run (address : string)
    : Z * option VersionedBeaconState * error + panic -> list Core.event -> Prop :=
| run_no_pod e :
    NewEigenPod address = Some e ->
    checkpoint_run address
      (inl (0%Z, None,
       Some (Errorf "failed to fetch current checkpoint"
               (Errorf "failed to locate eigenpod. is your address correct?" e))))
      [Core.OnStartSection "GetCurrentCheckpoint"; Core.CallNewEigenPod address]
| run_no_timestamp t e :
    NewEigenPod address = None ->
    currentCheckpointTimestamp address = (t, Some e) ->
    checkpoint_run address
      (inl (0%Z, None,
       Some (Errorf "failed to fetch current checkpoint"
               (Errorf "failed to locate eigenpod. Is your address correct?" e))))
      [Core.OnStartSection "GetCurrentCheckpoint"; Core.CallNewEigenPod address;
       Core.CallCurrentCheckpointTimestamp address]
| run_head state err :
    NewEigenPod address = None ->
    currentCheckpointTimestamp address = (0%Z, None) ->
    getBeaconState "head" = (state, err) ->
    checkpoint_run address
      (inl (match err with
       | Some e => (0%Z, None, Some (Errorf "failed to fetch beacon state" e))
       | None => (0%Z, state, None)
       end))
      ([Core.OnStartSection "GetCurrentCheckpoint"; Core.CallNewEigenPod address;
        Core.CallCurrentCheckpointTimestamp address; Core.OnEndSection;
        Core.OnStartSection "GetBeaconState"; Core.CallGetBeaconState "head"]
       ++ match err with Some _ => [] | None => [Core.OnEndSection] end)
| run_no_root t r e :
    NewEigenPod address = None ->
    currentCheckpointTimestamp address = (t, None) -> t <> 0%Z ->
    currentCheckpoint_BeaconBlockRoot address = (r, Some e) ->
    checkpoint_run address
      (inl (0%Z, None,
       Some (Errorf "failed to fetch last checkpoint" (Errorf "failed to reach eigenpod" e))))
      [Core.OnStartSection "GetCurrentCheckpoint"; Core.CallNewEigenPod address;
       Core.CallCurrentCheckpointTimestamp address; Core.OnEndSection;
       Core.OnStartSection "GetCurrentCheckpointBlockRoot"; Core.CallNewEigenPod address;
       Core.CallCurrentCheckpoint address]
| run_empty_root t root :
    NewEigenPod address = None ->
    currentCheckpointTimestamp address = (t, None) -> t <> 0%Z ->
    currentCheckpoint_BeaconBlockRoot address = (root, None) ->
    Core.AllZero root = true ->
    checkpoint_run address
      (inl (0%Z, None, Some (ErrExternal "failed to fetch last checkpoint - empty blockRoot")))
      [Core.OnStartSection "GetCurrentCheckpoint"; Core.CallNewEigenPod address;
       Core.CallCurrentCheckpointTimestamp address; Core.OnEndSection;
       Core.OnStartSection "GetCurrentCheckpointBlockRoot"; Core.CallNewEigenPod address;
       Core.CallCurrentCheckpoint address]
| run_no_header t root header e :
    NewEigenPod address = None ->
    currentCheckpointTimestamp address = (t, None) -> t <> 0%Z ->
    currentCheckpoint_BeaconBlockRoot address = (root, None) ->
    Core.AllZero root = false ->
    getBeaconHeader ("0x" ++ Core.hex_EncodeToString root) = (header, Some e) ->
    checkpoint_run address
      (inl (0%Z, None,
       Some (Errorf ("failed to fetch beacon header (0x"
                       ++ Core.hex_EncodeToString root ++ ")") e)))
      [Core.OnStartSection "GetCurrentCheckpoint"; Core.CallNewEigenPod address;
       Core.CallCurrentCheckpointTimestamp address; Core.OnEndSection;
       Core.OnStartSection "GetCurrentCheckpointBlockRoot"; Core.CallNewEigenPod address;
       Core.CallCurrentCheckpoint address; Core.OnEndSection;
       Core.OnStartSection "GetBeaconHeader";
       Core.CallGetBeaconHeader ("0x" ++ Core.hex_EncodeToString root)]
| run_nil_header t root header :
    NewEigenPod address = None ->
    currentCheckpointTimestamp address = (t, None) -> t <> 0%Z ->
    currentCheckpoint_BeaconBlockRoot address = (root, None) ->
    Core.AllZero root = false ->
    getBeaconHeader ("0x" ++ Core.hex_EncodeToString root) = (header, None) ->
    header_slot header = None ->
    checkpoint_run address (inr NilDereference)
      [Core.OnStartSection "GetCurrentCheckpoint"; Core.CallNewEigenPod address;
       Core.CallCurrentCheckpointTimestamp address; Core.OnEndSection;
       Core.OnStartSection "GetCurrentCheckpointBlockRoot"; Core.CallNewEigenPod address;
       Core.CallCurrentCheckpoint address; Core.OnEndSection;
       Core.OnStartSection "GetBeaconHeader";
       Core.CallGetBeaconHeader ("0x" ++ Core.hex_EncodeToString root);
       Core.OnEndSection]
| run_checkpoint t root header slot state err :
    NewEigenPod address = None ->
    currentCheckpointTimestamp address = (t, None) -> t <> 0%Z ->
    currentCheckpoint_BeaconBlockRoot address = (root, None) ->
    Core.AllZero root = false ->
    getBeaconHeader ("0x" ++ Core.hex_EncodeToString root) = (header, None) ->
    header_slot header = Some slot ->
    getBeaconState (Core.strconv_FormatUint slot) = (state, err) ->
    checkpoint_run address
      (inl (match err with
       | Some e => (0%Z, None, Some (Errorf "failed to fetch beacon state" e))
       | None => (t, state, None)
       end))
      ([Core.OnStartSection "GetCurrentCheckpoint"; Core.CallNewEigenPod address;
        Core.CallCurrentCheckpointTimestamp address; Core.OnEndSection;
        Core.OnStartSection "GetCurrentCheckpointBlockRoot"; Core.CallNewEigenPod address;
        Core.CallCurrentCheckpoint address; Core.OnEndSection;
        Core.OnStartSection "GetBeaconHeader";
        Core.CallGetBeaconHeader ("0x" ++ Core.hex_EncodeToString root);
        Core.OnEndSection;
        Core.OnStartSection "GetBeaconState";
        Core.CallGetBeaconState (Core.strconv_FormatUint slot)]
       ++ match err with Some _ => [] | None => [Core.OnEndSection] end).

Ltac same_call :=
  repeat match goal with
         | H1 : ?x = _, H2 : ?x = _ |- _ => rewrite H1 in H2; simplify_eq
         end.

Ltac go_step :=
  repeat first
    [ rewrite go_bind_unfold
    | rewrite go_ret_unfold
    | progress unfold Core.emit, Core.onchain_NewEigenPod ].

(** What a run leaves: its result or panic, and the events with those of the
    run added. *)
Definition ends_with (events : list Core.event)
    (res : Z * option VersionedBeaconState * error + panic) (more : list Core.event)
    : outcome (list Core.event) (Z * option VersionedBeaconState * error) :=
  match res with
  | inl r => Returns r (events ++ more)
  | inr p => Panics p (events ++ more)
  end.

Lemma GetCheckpointTimestampAndBeaconState_runs address events :
  exists res more,
    Core.GetCheckpointTimestampAndBeaconState NewEigenPod currentCheckpointTimestamp
      currentCheckpoint_BeaconBlockRoot getBeaconHeader getBeaconState address events
      = ends_with events res more /\
    checkpoint_run address res more.
Proof.
  unfold Core.GetCheckpointTimestampAndBeaconState, Core.GetCurrentCheckpoint,
    Core.GetCurrentCheckpointBlockRoot, Core.GetCheckpointTimestampAndBeaconState_state.
  go_step.
  destruct (NewEigenPod address) as [e|] eqn:Hpod.
  { go_step. eexists _, _. split; [|exact (run_no_pod address e Hpod)].
    cbn [ends_with]. rewrite <- !(assoc_L (++)). reflexivity. }
  go_step.
  destruct (currentCheckpointTimestamp address) as [t [e|]] eqn:Ht.
  { go_step. eexists _, _. split; [|exact (run_no_timestamp address t e Hpod Ht)].
    cbn [ends_with]. rewrite <- !(assoc_L (++)). reflexivity. }
  go_step.
  destruct (Z.eqb_spec t 0) as [->|Hne]; cbn [negb].
  { go_step. destruct (getBeaconState "head") as [state err] eqn:Hstate.
    eexists _, _. split; [|exact (run_head address state err Hpod Ht Hstate)].
    destruct err; go_step; cbn [ends_with]; rewrite <- !(assoc_L (++)); reflexivity. }
  go_step.
  destruct (currentCheckpoint_BeaconBlockRoot address) as [root [e|]] eqn:Hroot.
  { go_step. eexists _, _. split; [|exact (run_no_root address t root e Hpod Ht Hne Hroot)].
    cbn [ends_with]. rewrite <- !(assoc_L (++)). reflexivity. }
  go_step.
  destruct (Core.AllZero root) eqn:Hzero.
  { go_step. eexists _, _.
    split; [|exact (run_empty_root address t root Hpod Ht Hne Hroot Hzero)].
    cbn [ends_with]. rewrite <- !(assoc_L (++)). reflexivity. }
  go_step.
  destruct (getBeaconHeader ("0x" ++ Core.hex_EncodeToString root))
    as [header [e|]] eqn:Hheader.
  { go_step. eexists _, _.
    split; [|exact (run_no_header address t root header e Hpod Ht Hne Hroot Hzero Hheader)].
    cbn [ends_with]. rewrite <- !(assoc_L (++)). reflexivity. }
  go_step.
  destruct (header_slot header) as [slot|] eqn:Hslot.
  2:{ eexists _, _.
      split; [|exact (run_nil_header address t root header
                        Hpod Ht Hne Hroot Hzero Hheader Hslot)].
      unfold header_slot in Hslot.
      destruct header as [response|]; cbn [deref]; unfold go_ret, go_panic;
        [|cbn [ends_with]; rewrite <- !(assoc_L (++)); reflexivity].
      go_step. destruct (Core.Header response) as [signed|] eqn:Hh1; cbn [deref];
        unfold go_ret, go_panic;
        [|cbn [ends_with]; rewrite <- !(assoc_L (++)); reflexivity].
      go_step. destruct (Core.Message signed) as [message|] eqn:Hh2; [discriminate|].
      cbn [deref ends_with]. unfold go_panic.
      rewrite <- !(assoc_L (++)). reflexivity. }
  assert (header_slot header = Some slot) as Hslot' by exact Hslot.
  unfold header_slot in Hslot.
  destruct header as [response|]; [|discriminate].
  destruct (Core.Header response) as [signed|] eqn:Hh1; [|discriminate].
  destruct (Core.Message signed) as [message|] eqn:Hh2; [|discriminate].
  injection Hslot as Hslot.
  cbn [deref]. unfold go_ret at 1. go_step. rewrite Hh1.
  cbn [deref]. unfold go_ret at 1. go_step. rewrite Hh2.
  cbn [deref]. unfold go_ret at 1. rewrite Hslot.
  go_step.
  destruct (getBeaconState (Core.strconv_FormatUint slot)) as [state err] eqn:Hstate.
  eexists _, _.
  split; [|exact (run_checkpoint address t root (Some response) slot state err
                    Hpod Ht Hne Hroot Hzero Hheader Hslot' Hstate)].
  destruct err; go_step; cbn [ends_with]; rewrite <- !(assoc_L (++)); reflexivity.
Qed.

(** X16.  [GetCheckpointTimestampAndBeaconState] succeeds exactly when the
    pod answers with its checkpoint timestamp and the beacon node with the
    state asked for: the state [head] when the timestamp is 0, and else the
    state of the slot, in decimal, of the header of the block whose root, in
    hexadecimal after [0x], is the checkpoint's block root, which must not
    be all zero; the header response, its [Header] and the [Message] of that
    must not be [nil].  It returns the timestamp of the pod and that
    state. *)
Theorem GetCheckpointTimestampAndBeaconState_success address events t state :
  (exists events',
      Core.GetCheckpointTimestampAndBeaconState NewEigenPod currentCheckpointTimestamp
        currentCheckpoint_BeaconBlockRoot getBeaconHeader getBeaconState address events
      = Returns (t, state, None) events') <->
  NewEigenPod address = None /\
  currentCheckpointTimestamp address = (t, None) /\
  exists stateId,
    getBeaconState stateId = (state, None) /\
    if (t =? 0)%Z then stateId = "head"%string else
    exists root header slot,
      currentCheckpoint_BeaconBlockRoot address = (root, None) /\
      Core.AllZero root = false /\
      getBeaconHeader ("0x" ++ Core.hex_EncodeToString root) = (header, None) /\
      header_slot header = Some slot /\
      stateId = Core.strconv_FormatUint slot.
Proof.
  destruct (GetCheckpointTimestampAndBeaconState_runs address events)
    as (res & more & Hrun & Hc).
  rewrite Hrun. split.
  - intros [events' Hres].
    inversion Hc as [| |state' err| | | | |t' root header slot state' err]; subst;
      cbn [ends_with] in Hres; try discriminate;
      destruct err; simplify_eq.
    + split_and!; [assumption..|]. exists "head"%string. split; [assumption|reflexivity].
    + split_and!; [assumption..|]. eexists. split; [eassumption|].
      destruct (Z.eqb_spec t 0); [contradiction|]. eauto 10.
  - intros (Hpod & Ht & stateId & Hstate & Hid).
    destruct (Z.eqb_spec t 0) as [->|Hne].
    + subst stateId. inversion Hc; subst; same_call; try done.
      cbn [ends_with]. eexists. reflexivity.
    + destruct Hid as (root & header & slot & Hroot & Hzero & Hheader & Hslot & ->).
      inversion Hc; subst; same_call; try done.
      cbn [ends_with]. eexists. reflexivity.
Qed.

(** X17.  The check [blockRoot == nil] of
    [GetCheckpointTimestampAndBeaconState] never fires:
    [GetCurrentCheckpointBlockRoot] returns a [nil] root only together with
    an error, and no run returns the error of that check. *)
Theorem nil_blockRoot_check_is_dead address events :
  (forall blockRoot err events',
      Core.GetCurrentCheckpointBlockRoot NewEigenPod currentCheckpoint_BeaconBlockRoot
        address events = Returns (blockRoot, err) events' ->
      blockRoot = None <-> err <> None) /\
  forall r events',
    Core.GetCheckpointTimestampAndBeaconState NewEigenPod currentCheckpointTimestamp
      currentCheckpoint_BeaconBlockRoot getBeaconHeader getBeaconState address events
      = Returns r events' ->
    r.2 <> Some (ErrExternal "failed to fetch last checkpoint - nil blockRoot").
Proof.
  split.
  - intros blockRoot err events'. unfold Core.GetCurrentCheckpointBlockRoot. go_step.
    destruct (NewEigenPod address) as [e|]; go_step.
    { intros [= <- <- _]. split; [discriminate | reflexivity]. }
    destruct (currentCheckpoint_BeaconBlockRoot address) as [root [e|]]; go_step;
      intros [= <- <- _]; split; try discriminate; try reflexivity.
    intros H. destruct H. reflexivity.
  - intros r events' Hr.
    destruct (GetCheckpointTimestampAndBeaconState_runs address events)
      as (res & more & Hrun & Hc).
    rewrite Hrun in Hr.
    inversion Hc as [| |? err| | | | |? ? ? ? ? err]; subst; cbn [ends_with] in Hr;
      try discriminate; try destruct err; injection Hr as <- _; cbn [snd]; discriminate.
Qed.

(** X18.  With a beacon node whose header responses, when it answers without
    error, are not [nil] and have a [Header] and in it a [Message] that are
    not [nil], [GetCheckpointTimestampAndBeaconState] returns.  A run that
    succeeds has closed every tracing section it opened; a run that returns
    an error has left exactly one section open, the one in which the error
    arose.  A run panics only in [header.Header.Message.Slot], on a [nil]
    among those three pointers, with every section closed. *)
Theorem GetCheckpointTimestampAndBeaconState_sections address events :
  ((forall blockId header,
       getBeaconHeader blockId = (header, None) -> is_Some (header_slot header)) ->
   exists r events',
     Core.GetCheckpointTimestampAndBeaconState NewEigenPod currentCheckpointTimestamp
       currentCheckpoint_BeaconBlockRoot getBeaconHeader getBeaconState address events
       = Returns r events' /\
     open_sections events'
     = (open_sections events + if nonnil r.2 then 1 else 0)%Z) /\
  (forall q events',
      Core.GetCheckpointTimestampAndBeaconState NewEigenPod currentCheckpointTimestamp
        currentCheckpoint_BeaconBlockRoot getBeaconHeader getBeaconState address events
      = Panics q events' ->
      q = NilDereference /\
      open_sections events' = open_sections events /\
      exists blockId header,
        getBeaconHeader blockId = (header, None) /\ header_slot header = None).
Proof.
  destruct (GetCheckpointTimestampAndBeaconState_runs address events)
    as (res & more & Hrun & Hc).
  rewrite Hrun. split.
  - intros Hheader.
    inversion Hc as [| |? err| | | |? ? header ? ? ? ? ? Hh Hnil|? ? ? ? ? err];
      subst; cbn [ends_with];
      try (destruct (Hheader _ _ Hh) as [slot Hslot]; rewrite Hslot in Hnil; discriminate);
      eexists _, _; (split; [reflexivity|]); rewrite open_sections_app; f_equal;
      try reflexivity; destruct err; reflexivity.
  - intros q events' Hpanic.
    inversion Hc as [| |? err| | | |? ? header ? ? ? ? ? Hh Hnil|? ? ? ? ? err];
      subst; cbn [ends_with] in Hpanic; try discriminate.
    injection Hpanic as <- <-. split_and!; [reflexivity | | eauto].
    rewrite open_sections_app. cbn. lia.
Qed.

(** X19.  For a pod without a checkpoint, timestamp 0,
    [GetCheckpointTimestampAndBeaconState] asks the beacon node for the
    state [head] and for nothing else, and does not read the checkpoint of
    the pod. *)
Theorem GetCheckpointTimestampAndBeaconState_head address events :
  NewEigenPod address = None ->
  currentCheckpointTimestamp address = (0%Z, None) ->
  exists r more,
    Core.GetCheckpointTimestampAndBeaconState NewEigenPod currentCheckpointTimestamp
      currentCheckpoint_BeaconBlockRoot getBeaconHeader getBeaconState address events
      = Returns r (events ++ more) /\
    r = (let '(state, err) := getBeaconState "head" in
         match err with
         | Some e => (0%Z, None, Some (Errorf "failed to fetch beacon state" e))
         | None => (0%Z, state, None)
         end) /\
    Core.CallGetBeaconState "head" ∈ more /\
    forall e, e ∈ more ->
      match e with
      | Core.CallCurrentCheckpoint _ | Core.CallGetBeaconHeader _ => False
      | Core.CallGetBeaconState stateId => stateId = "head"%string
      | _ => True
      end.
Proof.
  intros Hpod Ht.
  destruct (GetCheckpointTimestampAndBeaconState_runs address events)
    as (res & more & Hrun & Hc).
  rewrite Hrun.
  inversion Hc as [| |state err ? ? Hstate| | | | |]; subst; same_call; try done.
  eexists _, _. cbn [ends_with]. split; [reflexivity|].
  rewrite Hstate. split_and!.
  - reflexivity.
  - set_solver.
  - intros e He. destruct err;
      repeat (apply elem_of_cons in He as [->|He]; [done|]);
      apply elem_of_nil in He; destruct He.
Qed.

End CheckpointFacts.

(* ================================================================== *)
(** ** Runs on the fixtures *)

Lemma ProveValidatorFields_unchecked_index_witness :
  ProveValidatorContainers Fixture.hdr Fixture.st [2%Z] Fixture.epp
  = Panics (IndexOutOfRange 2 (validator_count Fixture.st))
      (state_after (ProveValidatorFields Fixture.hdr Fixture.st 2 Fixture.epp)).
Proof.
  assert (exists sp proof s',
             ProveValidatorFields Fixture.hdr Fixture.st 2 Fixture.epp
             = Returns (Some sp, proof, None) s') as (sp & proof & s' & E)
    by (vm_compute; eexists _, _, _; reflexivity).
  rewrite E. cbn [state_after].
  apply (ProveValidatorFields_unchecked_index _ _ _ _ sp proof s' E).
  vm_compute. discriminate.
Defined.

Lemma ProveValidatorContainers_prefix_witness :
  exists P s' P1 s1,
    ProveValidatorContainers Fixture.hdr Fixture.st ([1] ++ [0])%Z Fixture.epp
      = Returns (Some P, None) s' /\
    ProveValidatorContainers Fixture.hdr Fixture.st [1%Z] Fixture.epp
      = Returns (Some P1, None) s1 /\
    ValidatorFieldsProofs P1 = take 1 (ValidatorFieldsProofs P).
Proof.
  match goal with
  | |- exists P s' P1 s1, ?run = _ /\ _ =>
      assert (exists P s', run = Returns (Some P, None) s') as (P & s' & E)
        by (vm_compute; eexists _, _; reflexivity)
  end.
  destruct (ProveValidatorContainers_prefix _ _ _ _ _ _ _ E)
    as (P1 & s1 & E1 & _ & _ & _ & _ & HP & _).
  exists P, s', P1, s1. split_and!; [exact E | exact E1 | exact HP].
Defined.

Lemma FindAllValidatorsForEigenpod_spec_witness :
  exists outputValidators,
    Core.FindAllValidatorsForEigenpod (fun _ => (PodFixture.pointers, None))
      (fun _ => PodFixture.pod_address) "0xpod" Fixture.st
      = inr (outputValidators, None) /\
    {| CLI.Validator_ := Some PodFixture.w; CLI.Index_ := 2 |} ∈ outputValidators.
Proof.
  destruct (FindAllValidatorsForEigenpod_spec (fun _ => (PodFixture.pointers, None))
              (fun _ => PodFixture.pod_address) "0xpod" Fixture.st PodFixture.pointers
              eq_refl) as (out & Hrun & Hmem & _).
  { unfold len. simpl. lia. }
  { repeat constructor; intros v [= <-]; vm_compute; discriminate. }
  exists out. split; [exact Hrun|]. apply Hmem.
  split_and!; [lia | reflexivity |]. split; reflexivity.
Defined.

Lemma FindAllValidatorsForEigenpod_address_length_witness :
  Core.FindAllValidatorsForEigenpod (fun _ => (PodFixture.pointers, None))
    (fun _ => [Byte.xab]) "0xab" Fixture.st
  = inr ([], None).
Proof.
  apply (FindAllValidatorsForEigenpod_address_length (fun _ => (PodFixture.pointers, None))
           (fun _ => [Byte.xab]) "0xab" Fixture.st PodFixture.pointers eq_refl).
  - unfold len. simpl. lia.
  - repeat constructor; intros v [= <-]; reflexivity.
  - simpl. lia.
Defined.

Lemma GetOnchainValidatorInfo_first_failure_witness :
  CLI.GetOnchainValidatorInfo Fixture.pod_binding PodFixture.failing_view "0xpod"
    (Fixture.pod_validators ++ Fixture.pod_validators) []
  = Returns ([], Some (Errorf "failed to fetch validator eigeninfo"
                         (ErrExternal "execution reverted")))
      (keys_of Fixture.pod_validators).
Proof.
  apply (GetOnchainValidatorInfo_first_failure Fixture.pod_binding PodFixture.failing_view
           "0xpod" (take 1 Fixture.pod_validators)
           {| CLI.Validator_ := Some Fixture.v1; CLI.Index_ := 1 |}
           Fixture.pod_validators (ErrExternal "execution reverted") []).
  - reflexivity.
  - constructor; [vm_compute; exact I | constructor].
  - vm_compute. reflexivity.
Defined.


Lemma SelectCheckpointableValidators_among_active_witness :
  exists checkpointable active log',
    Core.SelectCheckpointableValidators Fixture.pod_binding Fixture.pod_view "0xpod"
      Fixture.pod_validators 7 [] = Returns (checkpointable, None) log' /\
    Core.SelectActiveValidators Fixture.pod_binding Fixture.pod_view "0xpod"
      Fixture.pod_validators [] = Returns (active, None) log' /\
    checkpointable `sublist_of` active.
Proof.
  destruct (SelectCheckpointableValidators_among_active Fixture.pod_binding
              Fixture.pod_view "0xpod" Fixture.pod_validators 7 [])
    as (cp & act & log' & Hcp & Hact & Hsub & _).
  - reflexivity.
  - repeat constructor.
  - exists cp, act, log'. split_and!; assumption.
Defined.

Lemma SelectAwaitingCredentialValidators_exclusive_witness :
  Core.SelectAwaitingActivationValidators "0xpod"
    (Fixture.pod_validators ++ [PodFixture.nil_entry]) []
  = Panics NilDereference [].
Proof.
  apply (proj1 (proj2 (SelectAwaitingCredentialValidators_exclusive Fixture.pod_binding
                         Fixture.pod_view "0xpod"
                         (Fixture.pod_validators ++ [PodFixture.nil_entry]) []))
           Fixture.pod_validators PodFixture.nil_entry []).
  - reflexivity.
  - repeat constructor; discriminate.
  - reflexivity.
Defined.

Lemma GetCheckpointTimestampAndBeaconState_head_witness :
  exists more,
    Core.GetCheckpointTimestampAndBeaconState (fun _ => None) (fun _ => (0%Z, None))
      (fun _ => (zero_bytes 32, None)) (fun _ => (PodFixture.header_response, None))
      (fun _ => (Some Fixture.st, None)) "0xpod" []
    = Returns (0%Z, Some Fixture.st, None) more.
Proof.
  destruct (GetCheckpointTimestampAndBeaconState_head (fun _ => None)
              (fun _ => (0%Z, None)) (fun _ => (zero_bytes 32, None))
              (fun _ => (PodFixture.header_response, None))
              (fun _ => (Some Fixture.st, None)) "0xpod" []
              eq_refl eq_refl) as (r & more & Hrun & Hr & _).
  exists more. rewrite Hrun, Hr. reflexivity.
Defined.

Lemma GetCheckpointTimestampAndBeaconState_sections_witness :
  exists r events',
    Core.GetCheckpointTimestampAndBeaconState (fun _ => None) (fun _ => (1700000000%Z, None))
      (fun _ => (replicate 32 Byte.x11, None))
      (fun _ => (PodFixture.header_response, None))
      (fun _ => (None, Some (ErrExternal "404"))) "0xpod" []
    = Returns r events' /\
    open_sections events' = 1%Z.
Proof.
  destruct (proj1 (GetCheckpointTimestampAndBeaconState_sections (fun _ => None)
                     (fun _ => (1700000000%Z, None))
                     (fun _ => (replicate 32 Byte.x11, None))
                     (fun _ => (PodFixture.header_response, None))
                     (fun _ => (None, Some (ErrExternal "404"))) "0xpod" []))
    as (r & events' & Hrun & Hopen).
  - intros blockId header [= <-]. eexists. reflexivity.
  - exists r, events'. split; [exact Hrun|].
    rewrite Hopen. vm_compute in Hrun. injection Hrun as <- _. reflexivity.
Defined.
